(** * A reverse-mode automatic-differentiation engine over scalars

    Shallow embedding of [autodiff/engine.py] (class [Scalar]) and of the
    neuron of [autodiff/nn.py].

    Numbers.  The engine is duck-typed over Python numbers; the embedding
    takes them to be Python floats and writes a float as the real number it
    stands for: arithmetic is exact (no rounding, no NaN, no infinity).
    Python's [+], [-] and [*] on floats never raise (beyond the largest
    float they give an infinity): here they are the operations of the real
    numbers, so the development is about programs whose sums and products
    stay within the floats.  What Python's other operations on numbers do
    besides computing is kept: [**] and [/] raise [ZeroDivisionError], [**]
    and [math.exp] raise [OverflowError] when the result exceeds the
    largest float, and [**] returns a complex number for a negative base
    and a fractional exponent.  (An [int] behaves as the float of the same
    value, except that [**] with a non-negative [int] exponent on an [int]
    base never overflows.)

    Objects.  A [Scalar] object lives in a heap, a list of records indexed by
    allocation order; a reference to an object is its index.  Every operator
    of the class allocates its result at the end of the heap, so the operands
    of a node always have smaller references than the node itself. *)

From Stdlib Require Import String Reals Lra Lia Arith Bool List Permutation.
Import ListNotations.

Open Scope R_scope.

(** ** References, closures and objects *)

Abbreviation ref := nat (only parsing).

(** The closure stored in [_backward].  Each constructor is one of the
    [def _backward()] bodies of the class together with the variables it
    captures; the result node [res] of the enclosing method is the node that
    holds the closure.  [NoOp] is the [lambda: None] of [__init__]. *)
Inductive closure : Type :=
| NoOp
| AddBackward (self other : ref)
| MulBackward (self other : ref)
| PowBackward (self : ref) (power : R)
| TanhBackward (self : ref) (y : R)
| ReluBackward (self : ref)
| GeluBackward (self : ref) (x inner : R).

Record Scalar : Type := mkScalar
  { value : R;
    grad : R;
    _backward : closure;
    _ancestors : list ref }.

Definition heap := list Scalar.

Definition null : Scalar := mkScalar 0 0 NoOp [].

Definition deref (h : heap) (r : ref) : Scalar := nth r h null.

(** The order in which Python iterates over a [set] of objects is not fixed
    by the language; a [SetOrder] is one such order: it lists the distinct
    elements of the tuple the set was built from. *)
Record SetOrder : Type := mkSetOrder
  { iter_of : list ref -> list ref;
    iter_perm : forall l, Permutation (iter_of l) (nodup Nat.eq_dec l) }.

Definition insertion_order : SetOrder :=
  mkSetOrder (nodup Nat.eq_dec) (fun l => Permutation_refl _).

(** ** Updating one object of the heap *)

Fixpoint update (h : heap) (r : ref) (f : Scalar -> Scalar) : heap :=
  match h, r with
  | [], _ => []
  | s :: t, O => f s :: t
  | s :: t, S r' => s :: update t r' f
  end.

(** [u.grad = g] *)
Definition set_grad (h : heap) (r : ref) (g : R) : heap :=
  update h r (fun s => mkScalar (value s) g (_backward s) (_ancestors s)).

(** [u.grad += d] *)
Definition add_grad (h : heap) (r : ref) (d : R) : heap :=
  update h r (fun s => mkScalar (value s) (grad s + d) (_backward s) (_ancestors s)).

(** ** Results and exceptions *)

(** What a call gives: [Ok a] when it returns [a]; one of the exceptions
    the engine can raise; or [Complex] when an operation on numbers returns
    a complex number, a value outside the real numbers of this development,
    which does not follow the program any further. *)
Inductive result (A : Type) : Type :=
| Ok (a : A)
| TypeError
| ZeroDivisionError
| OverflowError
| Complex.

Arguments Ok {A} a.
Arguments TypeError {A}.
Arguments ZeroDivisionError {A}.
Arguments OverflowError {A}.
Arguments Complex {A}.

(** Sequencing: what is not a returned value propagates. *)
Definition bind {A B : Type} (r : result A) (k : A -> result B) : result B :=
  match r with
  | Ok a => k a
  | TypeError => TypeError
  | ZeroDivisionError => ZeroDivisionError
  | OverflowError => OverflowError
  | Complex => Complex
  end.

Notation "x <- r ;; k" := (bind r (fun x => k))
  (at level 61, r at next level, right associativity).
Notation "' p <- r ;; k" := (bind r (fun p => k))
  (at level 61, p pattern, r at next level, right associativity).

(** ** Python arithmetic on numbers *)

(** The largest float, [(2 - 2^-52) * 2^1023]. *)
Definition float_max : R := (2 - / 2 ^ 52) * 2 ^ 1023.

(** The result of an operation that reports a float overflow. *)
Definition in_range (v : R) : result R :=
  if Rle_dec (Rabs v) float_max then Ok v else OverflowError.

(** [x ** p] on numbers.  Anything to the power 0 is 1; 0 to a negative
    power raises, to a positive power it is 0; an integral exponent is
    repeated multiplication (or its inverse); a negative base with any other
    exponent gives a complex number; a positive base gives
    [exp (p * ln x)]. *)
Definition py_pow (x p : R) : result R :=
  if Req_dec_T p 0 then Ok 1
  else if Req_dec_T x 0 then
    if Rlt_dec p 0 then ZeroDivisionError else Ok 0
  else if Req_dec_T p (IZR (Int_part p)) then in_range (powerRZ x (Int_part p))
  else if Rlt_dec x 0 then Complex
  else in_range (Rpower x p).

(** [x / y] on numbers. *)
Definition py_truediv (x y : R) : result R :=
  if Req_dec_T y 0 then ZeroDivisionError else Ok (x / y).

(** [math.exp(x)] *)
Definition math_exp (x : R) : result R := in_range (exp x).

(** [True] and [False] used as numbers. *)
Definition bool_num (b : bool) : R := if b then 1 else 0.

(** [x < y] and [x > y] on numbers. *)
Definition py_lt (x y : R) : bool := if Rlt_dec x y then true else false.
Definition py_gt (x y : R) : bool := py_lt y x.

(** ** The constructors of the class *)

Section Engine.

Context (so : SetOrder).

(** [Scalar(value, _ancestors)]: the new object and the extended heap. *)
Definition Scalar_init (h : heap) (v : R) (anc : list ref) : heap * ref :=
  (h ++ [mkScalar v 0 NoOp (iter_of so anc)], length h).

(** [res._backward = _backward] *)
Definition set_backward (h : heap) (r : ref) (c : closure) : heap :=
  update h r (fun s => mkScalar (value s) (grad s) c (_ancestors s)).

(** An operand of a binary operator: a plain number or a node. *)
Inductive operand : Type :=
| Num (c : R)
| Node (r : ref).

(** [if not isinstance(other, Scalar): other = Scalar(other)] *)
Definition promote (h : heap) (other : operand) : heap * ref :=
  match other with
  | Num c => Scalar_init h c []
  | Node r => (h, r)
  end.

Definition Scalar_add (h : heap) (self : ref) (other : operand) : heap * ref :=
  let (h1, other) := promote h other in
  let (h2, res) :=
    Scalar_init h1 (value (deref h1 self) + value (deref h1 other)) [self; other] in
  (set_backward h2 res (AddBackward self other), res).

Definition Scalar_radd (h : heap) (self : ref) (other : operand) : heap * ref :=
  Scalar_add h self other.

Definition Scalar_mul (h : heap) (self : ref) (other : operand) : heap * ref :=
  let (h1, other) := promote h other in
  let (h2, res) :=
    Scalar_init h1 (value (deref h1 self) * value (deref h1 other)) [self; other] in
  (set_backward h2 res (MulBackward self other), res).

Definition Scalar_rmul (h : heap) (self : ref) (other : operand) : heap * ref :=
  Scalar_mul h self other.

Definition Scalar_neg (h : heap) (self : ref) : heap * ref :=
  Scalar_mul h self (Num (-1)).

(** [self.value ** power] is computed first: when it raises, no node is
    built. *)
Definition Scalar_pow (h : heap) (self : ref) (power : R) : result (heap * ref) :=
  v <- py_pow (value (deref h self)) power ;;
  let (h1, res) := Scalar_init h v [self] in
  Ok (set_backward h1 res (PowBackward self power), res).

(** [-other] for an operand: a number is negated as a number, a node by
    [__neg__]. *)
Definition neg_operand (h : heap) (other : operand) : heap * operand :=
  match other with
  | Num c => (h, Num (- c))
  | Node r => let (h1, n) := Scalar_neg h r in (h1, Node n)
  end.

(** [other ** -1] for an operand: the power of numbers, or [__pow__]. *)
Definition inv_operand (h : heap) (other : operand) : result (heap * operand) :=
  match other with
  | Num c => v <- py_pow c (-1) ;; Ok (h, Num v)
  | Node r => '(h1, n) <- Scalar_pow h r (-1) ;; Ok (h1, Node n)
  end.

Definition Scalar_sub (h : heap) (self : ref) (other : operand) : heap * ref :=
  let (h1, n) := neg_operand h other in
  Scalar_add h1 self n.

(** [other + (-self)]: [other] is the left operand of the sum.  When it is
    a node, the sum is its [__add__]; when it is a plain number, which
    cannot add a node, the sum is [__radd__] of the negated node. *)
Definition Scalar_rsub (h : heap) (self : ref) (other : operand) : heap * ref :=
  let (h1, n) := Scalar_neg h self in
  match other with
  | Node o => Scalar_add h1 o (Node n)
  | Num c => Scalar_radd h1 n (Num c)
  end.

(** [self * other**-1] *)
Definition Scalar_div (h : heap) (self : ref) (other : operand) : result (heap * ref) :=
  '(h1, n) <- inv_operand h other ;;
  Ok (Scalar_mul h1 self n).

(** [other * self**-1]: [other] is the left operand of the product, as in
    [__rsub__]. *)
Definition Scalar_rdiv (h : heap) (self : ref) (other : operand) : result (heap * ref) :=
  '(h1, n) <- Scalar_pow h self (-1) ;;
  Ok match other with
     | Node o => Scalar_mul h1 o (Node n)
     | Num c => Scalar_rmul h1 n (Num c)
     end.

Definition Scalar_tanh (h : heap) (self : ref) : result (heap * ref) :=
  let x := value (deref h self) in
  e1 <- math_exp (2 * x) ;;
  e2 <- math_exp (2 * x) ;;
  y <- py_truediv (e1 - 1) (e2 + 1) ;;
  let (h1, res) := Scalar_init h y [self] in
  Ok (set_backward h1 res (TanhBackward self y), res).

Definition Scalar_relu (h : heap) (self : ref) : heap * ref :=
  let v := value (deref h self) in
  let (h1, res) := Scalar_init h (if py_lt v 0 then 0 else v) [self] in
  (set_backward h1 res (ReluBackward self), res).

(** [math.sqrt(2.0 / math.pi) * (x + 0.044715 * x * x * x)] *)
Definition gelu_inner (x : R) : R :=
  sqrt (2 / PI) * (x + 44715 / 1000000 * x * x * x).

Definition Scalar_gelu (h : heap) (self : ref) : result (heap * ref) :=
  let x := value (deref h self) in
  let inner := gelu_inner x in
  e1 <- math_exp (2 * inner) ;;
  e2 <- math_exp (2 * inner) ;;
  q <- py_truediv (e1 - 1) (e2 + 1) ;;
  let y := 5 / 10 * x * (1 + q) in
  let (h1, res) := Scalar_init h y [self] in
  Ok (set_backward h1 res (GeluBackward self x inner), res).

End Engine.

(** ** The backward closures *)

(** One statement [target.grad += amount] of a closure: its target and its
    right-hand side, computed in the heap in which the statement runs. *)
Definition statement : Type := (ref * (heap -> result R))%type.

(** The body of the closure that the node [res] holds. *)
Definition body (c : closure) (res : ref) : list statement :=
  match c with
  | NoOp => []
  | AddBackward self other =>
      [ (self, fun h => Ok (grad (deref h res)));
        (other, fun h => Ok (grad (deref h res))) ]
  | MulBackward self other =>
      [ (self, fun h => Ok (value (deref h other) * grad (deref h res)));
        (other, fun h => Ok (value (deref h self) * grad (deref h res))) ]
  | PowBackward self power =>
      [ (self, fun h =>
           v <- py_pow (value (deref h self)) (power - 1) ;;
           Ok (power * v * grad (deref h res))) ]
  | TanhBackward self y =>
      [ (self, fun h =>
           y2 <- py_pow y 2 ;;
           Ok ((1 - y2) * grad (deref h res))) ]
  | ReluBackward self =>
      [ (self, fun h =>
           Ok (bool_num (py_gt (value (deref h res)) 0) * grad (deref h res))) ]
  | GeluBackward self x inner =>
      [ (self, fun h =>
           e1 <- math_exp inner ;;
           e2 <- math_exp (- inner) ;;
           sech_inner <- py_truediv 2 (e1 + e2) ;;
           Ok ((5 / 10 * (1 + tanh inner)
                + 5 / 10 * x * sech_inner * sech_inner * sqrt (2 / PI)
                  * (1 + 3 * (44715 / 1000000) * x * x))
               * grad (deref h res))) ]
  end.

(** A result with its value dropped. *)
Definition discard {A : Type} (r : result A) : result unit := _ <- r ;; Ok tt.

(** The statements of a body, one after the other, each reading the heap
    left by the one before.  A statement whose right-hand side does not
    return a number ends the run and leaves the heap as it found it. *)
Fixpoint exec (stmts : list statement) (h : heap) : heap * result unit :=
  match stmts with
  | [] => (h, Ok tt)
  | (target, rhs) :: rest =>
      match rhs h with
      | Ok amount => exec rest (add_grad h target amount)
      | r => (h, discard r)
      end
  end.

(** Calling [res._backward()]: the heap it leaves, and whether it returns. *)
Definition local_backward (h : heap) (res : ref) : heap * result unit :=
  exec (body (_backward (deref h res)) res) h.

(** ** [backward]: depth-first post-order, then the closures in reverse *)

(** The two local lists of [backward]: [visited] (a set, kept as the list of
    its elements) and [toposort]. *)
Definition dfs_state : Type := (list ref * list ref)%type.

Definition mem (u : ref) (l : list ref) : bool := existsb (Nat.eqb u) l.

(** A [for] loop over references whose body may run out of stack. *)
Fixpoint for_each (body : dfs_state -> ref -> option dfs_state)
    (l : list ref) (s : dfs_state) : option dfs_state :=
  match l with
  | [] => Some s
  | v :: t =>
      match body s v with
      | Some s' => for_each body t s'
      | None => None
      end
  end.

(** The nested function [dfs(u)].  [fuel] bounds the depth of the recursion;
    [None] is a traversal that does not return within that depth. *)
Fixpoint dfs (fuel : nat) (h : heap) (u : ref) (s : dfs_state) : option dfs_state :=
  match fuel with
  | O => None
  | S fuel' =>
      if mem u (fst s) then Some s
      else
        match for_each (fun s' v => dfs fuel' h v s') (_ancestors (deref h u))
                (u :: fst s, snd s) with
        | Some s' => Some (fst s', snd s' ++ [u])
        | None => None
        end
  end.

(** [for node in order: node._backward()]: the loop ends with the first
    closure that does not return. *)
Fixpoint run_closures (order : list ref) (h : heap) : heap * result unit :=
  match order with
  | [] => (h, Ok tt)
  | node :: rest =>
      match local_backward h node with
      | (h1, Ok _) => run_closures rest h1
      | (h1, r) => (h1, r)
      end
  end.

(** [self.backward()]: the heap it leaves, and whether it returns. *)
Definition backward (fuel : nat) (h : heap) (self : ref) : option (heap * result unit) :=
  match dfs fuel h self ([], []) with
  | None => None
  | Some s => Some (run_closures (rev (snd s)) (set_grad h self 1))
  end.

(** ** Well-formed heaps *)

(** The nodes a closure writes to. *)
Definition operands (c : closure) : list ref :=
  match c with
  | NoOp => []
  | AddBackward self other => [self; other]
  | MulBackward self other => [self; other]
  | PowBackward self _ => [self]
  | TanhBackward self _ => [self]
  | ReluBackward self => [self]
  | GeluBackward self _ _ => [self]
  end.

(** What every heap built by the constructors satisfies: the ancestors of a
    node were allocated before it, are listed once each, and are exactly the
    nodes its closure writes to. *)
Record wf_node (r : ref) (s : Scalar) : Prop := mk_wf_node
  { anc_lt : forall a, In a (_ancestors s) -> (a < r)%nat;
    anc_nodup : NoDup (_ancestors s);
    anc_operands : forall a, In a (operands (_backward s)) <-> In a (_ancestors s) }.

Definition wf (h : heap) : Prop :=
  forall r, (r < length h)%nat -> wf_node r (deref h r).

(** [reachable h u v]: [v] is [u] or one of its ancestors, transitively. *)
Inductive reachable (h : heap) (u : ref) : ref -> Prop :=
| reach_refl : reachable h u u
| reach_step : forall v w,
    reachable h u v -> In w (_ancestors (deref h v)) -> reachable h u w.

(** [depends h u v]: [v] is a proper ancestor of [u]. *)
Definition depends (h : heap) (u v : ref) : Prop :=
  exists n, reachable h u n /\ In v (_ancestors (deref h n)).

(** The closure of [n] returns when it is called. *)
Definition safe (h : heap) (n : ref) : Prop := snd (local_backward h n) = Ok tt.

(** No closure that [backward] can call from [root] raises. *)
Definition no_raise (h : heap) (root : ref) : Prop :=
  forall n, reachable h root n -> safe h n.

(** ** How Python resolves a binary operator on the class

    The methods of the class that implement binary operators, by name, as
    the class body defines them.  [__pow__] computes [self.value ** power],
    which no number type and no method of the class defines for a node
    [power]: it raises [TypeError]. *)

Definition method : Type := SetOrder -> heap -> ref -> operand -> result (heap * ref).

Definition Scalar_pow_method : method :=
  fun so h self power =>
    match power with
    | Num p => Scalar_pow so h self p
    | Node _ => TypeError
    end.

Definition Scalar_binary_methods : list (string * method) :=
  [ ("__add__"%string, fun so h self other => Ok (Scalar_add so h self other));
    ("__radd__"%string, fun so h self other => Ok (Scalar_radd so h self other));
    ("__sub__"%string, fun so h self other => Ok (Scalar_sub so h self other));
    ("__rsub__"%string, fun so h self other => Ok (Scalar_rsub so h self other));
    ("__mul__"%string, fun so h self other => Ok (Scalar_mul so h self other));
    ("__rmul__"%string, fun so h self other => Ok (Scalar_rmul so h self other));
    ("__div__"%string, Scalar_div);
    ("__rdiv__"%string, Scalar_rdiv);
    ("__pow__"%string, Scalar_pow_method) ].

Fixpoint lookup (name : string) (table : list (string * method)) : option method :=
  match table with
  | [] => None
  | (n, m) :: t => if String.eqb name n then Some m else lookup name t
  end.

(** The binary operators [+], [-], [*], [/] and [**] of Python 3 and the
    names of the methods it looks up for them. *)
Inductive binop : Type := OpAdd | OpSub | OpMul | OpTrueDiv | OpPow.

Definition dunder (op : binop) : string :=
  match op with
  | OpAdd => "__add__"
  | OpSub => "__sub__"
  | OpMul => "__mul__"
  | OpTrueDiv => "__truediv__"
  | OpPow => "__pow__"
  end.

Definition reflected (op : binop) : string :=
  match op with
  | OpAdd => "__radd__"
  | OpSub => "__rsub__"
  | OpMul => "__rmul__"
  | OpTrueDiv => "__rtruediv__"
  | OpPow => "__rpow__"
  end.

Definition number_op (op : binop) (x y : R) : result R :=
  match op with
  | OpAdd => Ok (x + y)
  | OpSub => Ok (x - y)
  | OpMul => Ok (x * y)
  | OpTrueDiv => py_truediv x y
  | OpPow => py_pow x y
  end.

(** [x op y].  With a node on the left, the method of the class is called
    if the class has it; the reflected method of the right operand is tried
    only for an operand of another type, a number, and no number type has a
    reflected method that accepts a node.  With a number on the left and a
    node on the right, the number's method does not accept the node, and
    the reflected method of the class is called if the class has it. *)
Definition binary (so : SetOrder) (op : binop) (h : heap) (x y : operand) :
    result (heap * operand) :=
  match x, y with
  | Num c1, Num c2 => v <- number_op op c1 c2 ;; Ok (h, Num v)
  | Node self, _ =>
      match lookup (dunder op) Scalar_binary_methods with
      | Some m => '(h', res) <- m so h self y ;; Ok (h', Node res)
      | None => TypeError
      end
  | Num c, Node self =>
      match lookup (reflected op) Scalar_binary_methods with
      | Some m => '(h', res) <- m so h self (Num c) ;; Ok (h', Node res)
      | None => TypeError
      end
  end.

(** ** The neuron of [nn.py] *)

Record Neuron : Type := mkNeuron
  { weights : list ref;
    bias : ref;
    activation : string }.

(** The number an operand stands for. *)
Definition operand_value (h : heap) (o : operand) : R :=
  match o with
  | Num c => c
  | Node r => value (deref h r)
  end.

(** An operand that refers to the heap [h]: any number, or a node of [h]. *)
Definition operand_ok (h : heap) (o : operand) : Prop :=
  match o with
  | Num _ => True
  | Node r => (r < length h)%nat
  end.

(** [[wi * xi for wi, xi in zip(self.weights, x)]]: the products, allocated
    in order. *)
Fixpoint products (so : SetOrder) (h : heap) (pairs : list (ref * operand)) :
    heap * list ref :=
  match pairs with
  | [] => (h, [])
  | (wi, xi) :: t =>
      let (h1, p) := Scalar_mul so h wi xi in
      let (h2, ps) := products so h1 t in
      (h2, p :: ps)
  end.

(** [sum(items, start)]: [start + items[0] + items[1] + ...], from the left. *)
Fixpoint py_sum (so : SetOrder) (h : heap) (items : list ref) (start : ref) :
    heap * ref :=
  match items with
  | [] => (h, start)
  | p :: t => let (h1, acc) := Scalar_add so h start (Node p) in py_sum so h1 t acc
  end.

(** The first statement of [Neuron.__call__]:
    [y = sum([wi * xi for wi, xi in zip(self.weights, x)], self.bias)]. *)
Definition Neuron_preactivation (so : SetOrder) (h : heap) (self : Neuron)
    (x : list operand) : heap * ref :=
  let (h1, ps) := products so h (combine (weights self) x) in
  py_sum so h1 ps (bias self).

(** [Neuron.__call__(self, x)].  The result is [None] when the function
    falls off its end. *)
Definition Neuron_call (so : SetOrder) (h : heap) (self : Neuron) (x : list operand) :
    result (heap * option ref) :=
  let (h2, y) := Neuron_preactivation so h self x in
  if String.eqb (activation self) "linear" then Ok (h2, Some y)
  else if String.eqb (activation self) "tanh" then
    '(h3, r) <- Scalar_tanh so h2 y ;; Ok (h3, Some r)
  else if String.eqb (activation self) "relu" then
    let (h3, r) := Scalar_relu so h2 y in Ok (h3, Some r)
  else if String.eqb (activation self) "gelu" then
    '(h3, r) <- Scalar_gelu so h2 y ;; Ok (h3, Some r)
  else Ok (h2, None).

(** [bias + w0 * x0 + w1 * x1 + ...] over a list of pairs, from the left. *)
Definition weighted_sum (h : heap) (start : R) (pairs : list (ref * operand)) : R :=
  fold_left (fun acc p => acc + value (deref h (fst p)) * operand_value h (snd p))
    pairs start.

(** [Neuron.parameters]: [self.weights + [self.bias]]. *)
Definition Neuron_parameters (self : Neuron) : list ref :=
  weights self ++ [bias self].

(** A layer holds the list of its neurons, a network the list of its
    layers. *)
Record Layer : Type := mkLayer { neurons : list Neuron }.

Record MLP : Type := mkMLP { layers : list Layer }.

(** [[p for neuron in self.neurons for p in neuron.parameters()]] *)
Definition Layer_parameters (self : Layer) : list ref :=
  flat_map Neuron_parameters (neurons self).

(** [[p for layer in self.layers for p in layer.parameters()]] *)
Definition MLP_parameters (self : MLP) : list ref :=
  flat_map Layer_parameters (layers self).

(** [Module.zero_grad], on the list that [self.parameters()] returns:
    [for p in self.parameters(): p.grad = 0]. *)
Definition zero_grad (h : heap) (parameters : list ref) : heap :=
  fold_left (fun h' p => set_grad h' p 0) parameters h.

(** ** Calling a layer and a network *)

(** The values that flow between layers: an element is [None], a number or
    a node; a value is one element or a list of elements. *)
Inductive item : Type :=
| INone
| INum (c : R)
| INode (r : ref).

Inductive pyvalue : Type :=
| Single (i : item)
| Sequence (items : list item).

(** [wi * xi] promotes a number and takes a node as it is; for [None] it
    computes [wi.value * None], which raises [TypeError]. *)
Definition item_operand (i : item) : result operand :=
  match i with
  | INone => TypeError
  | INum c => Ok (Num c)
  | INode r => Ok (Node r)
  end.

(** The inputs that [zip(self.weights, x)] pairs with a weight, as
    operands of the products. *)
Fixpoint zip_operands (ws : list ref) (xs : list item) : result (list operand) :=
  match ws, xs with
  | _ :: ws', i :: xs' =>
      o <- item_operand i ;;
      os <- zip_operands ws' xs' ;;
      Ok (o :: os)
  | _, _ => Ok []
  end.

(** [neuron(x)] for any value [x]: [zip] raises [TypeError] for an [x]
    that is not a sequence. *)
Definition Neuron_apply (so : SetOrder) (h : heap) (self : Neuron) (x : pyvalue) :
    result (heap * item) :=
  match x with
  | Single _ => TypeError
  | Sequence xs =>
      os <- zip_operands (weights self) xs ;;
      '(h', y) <- Neuron_call so h self os ;;
      Ok (h', match y with Some r => INode r | None => INone end)
  end.

(** [[neuron(x) for neuron in self.neurons]] *)
Fixpoint Layer_outputs (so : SetOrder) (h : heap) (ns : list Neuron) (x : pyvalue) :
    result (heap * list item) :=
  match ns with
  | [] => Ok (h, [])
  | n :: t =>
      '(h1, y) <- Neuron_apply so h n x ;;
      '(h2, ys) <- Layer_outputs so h1 t x ;;
      Ok (h2, y :: ys)
  end.

(** [Layer.__call__]: [outputs[0] if len(outputs) == 1 else outputs]. *)
Definition Layer_call (so : SetOrder) (h : heap) (self : Layer) (x : pyvalue) :
    result (heap * pyvalue) :=
  '(h', outputs) <- Layer_outputs so h (neurons self) x ;;
  Ok (h', match outputs with
          | [y] => Single y
          | _ => Sequence outputs
          end).

(** The loop of [MLP.__call__]: [for layer in self.layers: y = layer(y)]. *)
Fixpoint MLP_run (so : SetOrder) (h : heap) (ls : list Layer) (y : pyvalue) :
    result (heap * pyvalue) :=
  match ls with
  | [] => Ok (h, y)
  | l :: t => '(h1, y1) <- Layer_call so h l y ;; MLP_run so h1 t y1
  end.

Definition MLP_call (so : SetOrder) (h : heap) (self : MLP) (x : pyvalue) :
    result (heap * pyvalue) :=
  MLP_run so h (layers self) x.

(** ** Heaps, graphs and traversals *)

(** Two heaps with the same graph: they differ in gradients only. *)
Definition same_graph (h h' : heap) : Prop :=
  length h' = length h /\
  forall m, value (deref h' m) = value (deref h m) /\
            _backward (deref h' m) = _backward (deref h m) /\
            _ancestors (deref h' m) = _ancestors (deref h m).

(** The heaps a program can reach with the constructors of the class: the
    other operators ([-], unary [-], the methods [__div__] and [__rdiv__])
    are compositions of these. *)
Inductive built (so : SetOrder) : heap -> Prop :=
| built_empty : built so []
| built_leaf : forall h v, built so h -> built so (fst (Scalar_init so h v []))
| built_add : forall h a o,
    built so h -> (a < length h)%nat -> operand_ok h o ->
    built so (fst (Scalar_add so h a o))
| built_mul : forall h a o,
    built so h -> (a < length h)%nat -> operand_ok h o ->
    built so (fst (Scalar_mul so h a o))
| built_pow : forall h a p h' r,
    built so h -> (a < length h)%nat -> Scalar_pow so h a p = Ok (h', r) ->
    built so h'
| built_tanh : forall h a h' r,
    built so h -> (a < length h)%nat -> Scalar_tanh so h a = Ok (h', r) ->
    built so h'
| built_relu : forall h a,
    built so h -> (a < length h)%nat -> built so (fst (Scalar_relu so h a))
| built_gelu : forall h a h' r,
    built so h -> (a < length h)%nat -> Scalar_gelu so h a = Ok (h', r) ->
    built so h'.

(** A list is in post-order when every node comes after all its ancestors. *)
Inductive post_ordered (h : heap) : list ref -> Prop :=
| po_nil : post_ordered h []
| po_snoc : forall l x,
    post_ordered h l ->
    (forall a, In a (_ancestors (deref h x)) -> In a l) ->
    post_ordered h (l ++ [x]).

(** The invariant of the two lists of [backward] when [dfs] is entered on a
    node below [b]: the finished nodes are visited, listed once and in
    post-order, and every visited node below [b] is finished (the nodes whose
    [dfs] is still running are the callers, which are not below [b]). *)
Record dfs_inv (h : heap) (b : nat) (s : dfs_state) : Prop := mk_dfs_inv
  { inv_sub : forall x, In x (snd s) -> In x (fst s);
    inv_done : forall x, In x (fst s) -> (x < b)%nat -> In x (snd s);
    inv_nodup : NoDup (snd s);
    inv_post : post_ordered h (snd s) }.

(** What a traversal from the nodes [srcs] adds to the two lists. *)
Definition dfs_adds (h : heap) (srcs : list ref) (s s' : dfs_state) : Prop :=
  exists new,
    snd s' = snd s ++ new /\
    (forall x, In x (fst s') <-> In x (fst s) \/ In x new) /\
    (forall x, In x new -> ~ In x (fst s) /\ exists v, In v srcs /\ reachable h v x) /\
    (forall v, In v srcs -> In v (snd s')).

(** ** What the loop of [backward] does, closure by closure *)

(** The heap that calling the closure of [n] leaves, whether the closure
    returns or raises. *)
Definition heap_after (h : heap) (n : ref) : heap := fst (local_backward h n).

(** The heap left by calling the closures of all the nodes of a list. *)
Definition run_all (order : list ref) (h : heap) : heap :=
  fold_left heap_after order h.

(** The nodes whose closures the loop of [backward] calls: those of [order]
    up to and including the first whose closure does not return. *)
Fixpoint calls (order : list ref) (h : heap) : list ref :=
  match order with
  | [] => []
  | node :: rest =>
      node :: match snd (local_backward h node) with
              | Ok _ => calls rest (heap_after h node)
              | _ => []
              end
  end.

(** The additions [target.grad += amount] that a list of statements makes
    when its right-hand sides are computed in [h]: pairs (target, amount),
    up to the first right-hand side that does not return a number. *)
Fixpoint amounts (stmts : list statement) (h : heap) : list (ref * R) :=
  match stmts with
  | [] => []
  | (target, rhs) :: rest =>
      match rhs h with
      | Ok amount => (target, amount) :: amounts rest h
      | _ => []
      end
  end.

(** The additions made by the closure of [res], called in the heap [h]. *)
Definition increments (h : heap) (res : ref) : list (ref * R) :=
  amounts (body (_backward (deref h res)) res) h.

Definition apply_increments (l : list (ref * R)) (h : heap) : heap :=
  fold_left (fun h' e => add_grad h' (fst e) (snd e)) l h.

(** All the additions made by the closures of [order], called in that
    order from the heap [h]. *)
Fixpoint trace (order : list ref) (h : heap) : list (ref * R) :=
  match order with
  | [] => []
  | n :: t => increments h n ++ trace t (heap_after h n)
  end.

(** The sum of the amounts that a list of additions adds to [m]. *)
Fixpoint received (m : ref) (l : list (ref * R)) : R :=
  match l with
  | [] => 0
  | e :: t => (if Nat.eqb (fst e) m then snd e else 0) + received m t
  end.

(** The local derivative: what the closure of [d] adds to [n.grad] when
    [d.grad] is 1. *)
Definition coefficient (h : heap) (d n : ref) : R :=
  received n (increments (set_grad h d 1) d).

(** When a closure returns, read off its body: the numbers its right-hand
    side needs are defined and are floats. *)
Definition closure_safe (h : heap) (c : closure) : Prop :=
  match c with
  | PowBackward self power =>
      exists v, py_pow (value (deref h self)) (power - 1) = Ok v
  | TanhBackward _ y => exists v, py_pow y 2 = Ok v
  | GeluBackward _ _ inner => exp inner <= float_max /\ exp (- inner) <= float_max
  | _ => True
  end.

(** The outcomes that a call has in Python when it computes with floats
    only: it returns, or it raises one of the two arithmetic exceptions. *)
Definition arithmetic_outcome {A : Type} (r : result A) : Prop :=
  match r with
  | Ok _ | ZeroDivisionError | OverflowError => True
  | TypeError | Complex => False
  end.

(** The sum of [f] over the nodes of a list. *)
Definition sum_over (f : ref -> R) (l : list ref) : R :=
  fold_right (fun d acc => f d + acc) 0 l.

(** ** GELU as the specification writes it *)

(** The tanh approximation of GELU, as the specification writes it:
    [0.5 x (1 + tanh (sqrt (2 / pi) (x + 0.044715 x^3)))], and the
    derivative it gives for it, with [sech = 1 / cosh]. *)
Definition sech (x : R) : R := 1 / cosh x.

Definition gelu_approx (x : R) : R :=
  5 / 10 * x * (1 + tanh (sqrt (2 / PI) * (x + 44715 / 1000000 * x ^ 3))).

Definition gelu_approx_derivative (x : R) : R :=
  let inner := sqrt (2 / PI) * (x + 44715 / 1000000 * x ^ 3) in
  5 / 10 * (1 + tanh inner)
  + 5 / 10 * x * (sech inner) ^ 2 * sqrt (2 / PI)
    * (1 + 3 * (44715 / 1000000) * x ^ 2).

(** ** Programs used as examples *)

(** [Scalar(v)] for each number of a list, allocated in order on the empty
    heap, with sets iterated in insertion order. *)
Definition leaves (vs : list R) : heap :=
  fold_left (fun h v => fst (Scalar_init insertion_order h v [])) vs [].

(** The heap after [a = Scalar(2); b = Scalar(3)]. *)
Definition two_leaves : heap := leaves [2; 3].

(** The heap after [a = Scalar(2); b = Scalar(3); c = Scalar(5)]. *)
Definition three_leaves : heap := leaves [2; 3; 5].

(** The heap after [a = Scalar(0)]. *)
Definition zero_leaf : heap := leaves [0].


(** The heap after [w = Scalar(0.5); b = Scalar(0)] and the neuron with
    weight [w], bias [b] and an activation kind the class does not know. *)
Definition neuron_heap : heap := leaves [5 / 10; 0].

Definition odd_neuron : Neuron := mkNeuron [0%nat] 1%nat "sigmoid".

(** The heap after [w0 = Scalar(0.5); w1 = Scalar(-0.5); b = Scalar(0)] and
    the linear neuron with these two weights and this bias. *)
Definition linear_heap : heap := leaves [5 / 10; - (5 / 10); 0].

Definition linear_neuron : Neuron := mkNeuron [0%nat; 1%nat] 2%nat "linear".

(** The heap after [a = Scalar(2); a.grad = 7; b = Scalar(3)]: [a] holds a
    gradient left over from an earlier pass. *)
Definition stale_leaves : heap := set_grad two_leaves 0 7.

(** [a = Scalar(2); b = a * a; root = a + b] *)
Definition dependent_sum : heap * ref :=
  let (h1, b) := Scalar_mul insertion_order (leaves [2]) 0 (Node 0) in
  Scalar_add insertion_order h1 0 (Node b).

(** [root = a * b] on the heap in which [a] holds a stale gradient. *)
Definition stale_product : heap * ref :=
  Scalar_mul insertion_order stale_leaves 0 (Node 1).

(** The heap after [z = Scalar(0); r = z ** 0.5]. *)
Definition sqrt_zero : heap :=
  [mkScalar 0 0 NoOp []; mkScalar 0 0 (PowBackward 0 (5 / 10)) [0%nat]].

(** The neuron with weight [w = Scalar(0.5)], bias [b = Scalar(0)] and the
    default activation, on the heap [neuron_heap]. *)
Definition gelu_neuron : Neuron := mkNeuron [0%nat] 1%nat "gelu".

(** The heaps after [a = Scalar(1)] and after [a = Scalar(100)]. *)
Definition one_leaf : heap := leaves [1].

Definition hundred_leaf : heap := leaves [100].

(** [y = n([3, 4])] for the linear neuron [n] above: the heap and the
    output node. *)
Definition linear_output : heap * ref :=
  match Neuron_call insertion_order linear_heap linear_neuron [Num 3; Num 4] with
  | Ok (h, Some y) => (h, y)
  | _ => (linear_heap, 0%nat)
  end.

(** The heap after [y.backward()] on that output. *)
Definition linear_trained : heap :=
  match backward 10 (fst linear_output) (snd linear_output) with
  | Some (hf, _) => hf
  | None => fst linear_output
  end.

(** The network with one layer that holds the linear neuron. *)
Definition linear_net : MLP := mkMLP [mkLayer [linear_neuron]].

(** Three linear neurons on the leaves [w0 = Scalar(0.5)],
    [w1 = Scalar(-0.5)], [b = Scalar(0)] of [linear_heap]: two with one
    weight each, one with both weights. *)
Definition neuron_w0 : Neuron := mkNeuron [0%nat] 2%nat "linear".

Definition neuron_w1 : Neuron := mkNeuron [1%nat] 2%nat "linear".

(** The network with a layer of one neuron followed by a layer of one
    neuron, and the network with a layer of two neurons followed by a
    layer of one neuron. *)
Definition narrow_net : MLP := mkMLP [mkLayer [neuron_w0]; mkLayer [neuron_w1]].

Definition wide_net : MLP :=
  mkMLP [mkLayer [neuron_w0; neuron_w1]; mkLayer [linear_neuron]].

(** [root = a * b] beside a third leaf [c], on [three_leaves]. *)
Definition product_beside : heap * ref :=
  Scalar_mul insertion_order three_leaves 0 (Node 1).

(** * Properties *)

(** ** The heap *)

Lemma update_length h r f : length (update h r f) = length h.
Proof.
  revert r; induction h as [|s t IH]; intros [|r]; simpl; auto.
Qed.

Lemma deref_update_same h r f :
  (r < length h)%nat -> deref (update h r f) r = f (deref h r).
Proof.
  unfold deref; revert r; induction h as [|s t IH]; intros [|r] Hr; simpl in *;
    try lia; auto.
  apply IH; lia.
Qed.

Lemma deref_update_other h r f m :
  m <> r -> deref (update h r f) m = deref h m.
Proof.
  unfold deref; revert r m; induction h as [|s t IH]; intros [|r] [|m] Hm;
    simpl; auto; try congruence.
Qed.

Lemma update_out_of_range h r f :
  (length h <= r)%nat -> update h r f = h.
Proof.
  revert r; induction h as [|s t IH]; intros [|r] Hr; simpl in *; auto; try lia.
  f_equal; apply IH; lia.
Qed.

Lemma deref_out_of_range h r : (length h <= r)%nat -> deref h r = null.
Proof. intros Hr; unfold deref; apply nth_overflow; exact Hr. Qed.

Lemma deref_app_old h t r : (r < length h)%nat -> deref (h ++ t) r = deref h r.
Proof. intros Hr; unfold deref; apply app_nth1; exact Hr. Qed.

Lemma deref_app_new h s : deref (h ++ [s]) (length h) = s.
Proof. unfold deref; rewrite app_nth2, Nat.sub_diag; auto. Qed.

Lemma same_graph_refl h : same_graph h h.
Proof. split; auto. Qed.

Lemma same_graph_trans h1 h2 h3 :
  same_graph h1 h2 -> same_graph h2 h3 -> same_graph h1 h3.
Proof.
  intros [L1 E1] [L2 E2]; split; [congruence|].
  intros m; destruct (E1 m) as (?&?&?), (E2 m) as (?&?&?); repeat split; congruence.
Qed.

Lemma update_grad_same_graph h r (k : R -> R) :
  same_graph h
    (update h r (fun s => mkScalar (value s) (k (grad s)) (_backward s) (_ancestors s))).
Proof.
  split; [apply update_length|].
  intros m; destruct (Nat.eq_dec m r) as [->|Hm].
  - destruct (Nat.lt_ge_cases r (length h)) as [Hr|Hr].
    + rewrite deref_update_same by exact Hr; simpl; auto.
    + rewrite update_out_of_range by exact Hr; auto.
  - rewrite deref_update_other by exact Hm; auto.
Qed.

Lemma add_grad_same_graph h r d : same_graph h (add_grad h r d).
Proof. exact (update_grad_same_graph h r (fun g => g + d)). Qed.

Lemma set_grad_same_graph h r g : same_graph h (set_grad h r g).
Proof. exact (update_grad_same_graph h r (fun _ => g)). Qed.

Lemma grad_add_grad_same h r d :
  (r < length h)%nat -> grad (deref (add_grad h r d) r) = grad (deref h r) + d.
Proof. intros Hr; unfold add_grad; rewrite deref_update_same by exact Hr; auto. Qed.

Lemma grad_add_grad_other h r d m :
  m <> r -> grad (deref (add_grad h r d) m) = grad (deref h m).
Proof. intros Hm; unfold add_grad; rewrite deref_update_other by exact Hm; auto. Qed.

Lemma grad_set_grad_same h r g :
  (r < length h)%nat -> grad (deref (set_grad h r g) r) = g.
Proof. intros Hr; unfold set_grad; rewrite deref_update_same by exact Hr; auto. Qed.

Lemma grad_set_grad_other h r g m :
  m <> r -> grad (deref (set_grad h r g) m) = grad (deref h m).
Proof. intros Hm; unfold set_grad; rewrite deref_update_other by exact Hm; auto. Qed.

Lemma exec_same_graph stmts : forall h, same_graph h (fst (exec stmts h)).
Proof.
  induction stmts as [|[target rhs] rest IH]; intros h; simpl.
  - apply same_graph_refl.
  - destruct (rhs h); try apply same_graph_refl.
    eapply same_graph_trans; [apply add_grad_same_graph|apply IH].
Qed.

Lemma heap_after_same_graph h res : same_graph h (heap_after h res).
Proof. apply exec_same_graph. Qed.

Lemma run_all_same_graph order h : same_graph h (run_all order h).
Proof.
  revert h; induction order as [|n t IH]; intros h; simpl.
  - apply same_graph_refl.
  - eapply same_graph_trans; [apply heap_after_same_graph|apply IH].
Qed.

Lemma same_graph_wf h h' : same_graph h h' -> wf h -> wf h'.
Proof.
  intros [L E] W r Hr; rewrite L in Hr; destruct (W r Hr) as [A B C].
  destruct (E r) as (_ & Eb & Ea); split; rewrite ?Eb, ?Ea; auto.
Qed.

(** ** The traversal *)

Lemma mem_In u l : mem u l = true <-> In u l.
Proof.
  unfold mem; rewrite existsb_exists; split.
  - intros (x & Hx & E); apply Nat.eqb_eq in E; subst; auto.
  - intros H; exists u; split; auto; apply Nat.eqb_refl.
Qed.

Lemma mem_not_In u l : mem u l = false <-> ~ In u l.
Proof.
  rewrite <- mem_In; destruct (mem u l); split; congruence.
Qed.

Lemma dfs_unfold fuel h u s :
  dfs (S fuel) h u s =
  if mem u (fst s) then Some s
  else
    match for_each (fun s' v => dfs fuel h v s') (_ancestors (deref h u))
            (u :: fst s, snd s) with
    | Some s' => Some (fst s', snd s' ++ [u])
    | None => None
    end.
Proof. reflexivity. Qed.

Lemma dfs_inv_weaken h b b' s : (b' <= b)%nat -> dfs_inv h b s -> dfs_inv h b' s.
Proof.
  intros Hb [A B C D]; split; auto.
  intros x Hx Hlt; apply B; auto; lia.
Qed.

Lemma dfs_adds_inv h b srcs s s' :
  dfs_inv h b s -> dfs_adds h srcs s s' ->
  NoDup (snd s') -> post_ordered h (snd s') -> dfs_inv h b s'.
Proof.
  intros [A B C D] (new & E & V & N & _) ND PO; split; auto.
  - intros x Hx; rewrite E in Hx; apply in_app_or in Hx; apply V.
    destruct Hx; auto.
  - intros x Hx Hlt; rewrite E; apply in_or_app; apply V in Hx.
    destruct Hx; auto.
Qed.

Section Traversal.

Variable h : heap.
Hypothesis h_wf : wf h.

Lemma reachable_le u v : (u < length h)%nat -> reachable h u v -> (v <= u)%nat.
Proof.
  intros Hu R; induction R as [|v w R IH Hw]; [lia|].
  assert (Hv : (v < length h)%nat) by lia.
  pose proof (anc_lt _ _ (h_wf v Hv) w Hw); lia.
Qed.

Lemma reachable_trans u v w : reachable h u v -> reachable h v w -> reachable h u w.
Proof.
  intros R1 R2; induction R2; auto.
  eapply reach_step; eauto.
Qed.

(** The loop [for v in u._ancestors: dfs(v)], for a body that behaves as a
    traversal on every node below [b]. *)
Lemma for_each_spec (b : nat) (body : dfs_state -> ref -> option dfs_state) :
  (forall v s, (v < b)%nat -> (v < length h)%nat -> dfs_inv h (S v) s ->
     exists s', body s v = Some s' /\ dfs_adds h [v] s s' /\
                NoDup (snd s') /\ post_ordered h (snd s')) ->
  forall l s,
    (forall v, In v l -> (v < b)%nat /\ (v < length h)%nat) ->
    dfs_inv h b s ->
    exists s', for_each body l s = Some s' /\ dfs_adds h l s s' /\ dfs_inv h b s'.
Proof.
  intros Hbody l; induction l as [|v t IH]; intros s Hl Hinv; simpl.
  - exists s; split; [reflexivity|split; [|assumption]].
    exists []; rewrite app_nil_r; repeat split; simpl; tauto.
  - destruct (Hl v (or_introl eq_refl)) as [Hvb Hvh].
    destruct (Hbody v s Hvb Hvh (dfs_inv_weaken _ _ _ _ Hvb Hinv))
      as (s1 & E1 & A1 & ND1 & PO1).
    rewrite E1.
    pose proof (dfs_adds_inv _ _ _ _ _ Hinv A1 ND1 PO1) as Hinv1.
    destruct (IH s1 (fun x Hx => Hl x (or_intror Hx)) Hinv1) as (s2 & E2 & A2 & Hinv2).
    exists s2; split; [exact E2|split; [|exact Hinv2]].
    destruct A1 as (n1 & T1 & V1 & N1 & S1), A2 as (n2 & T2 & V2 & N2 & S2).
    exists (n1 ++ n2); split; [|split; [|split]].
    + rewrite T2, T1, app_assoc; reflexivity.
    + intros x; rewrite V2, V1, in_app_iff; tauto.
    + intros x Hx; apply in_app_or in Hx; destruct Hx as [Hx|Hx].
      * destruct (N1 x Hx) as (Hn & w & [<-|[]] & R); split; [exact Hn|].
        exists v; simpl; auto.
      * destruct (N2 x Hx) as (Hn & w & Hw & R); split.
        -- intros Hx'; apply Hn; apply V1; auto.
        -- exists w; simpl; auto.
    + intros w [<-|Hw]; [|apply S2; exact Hw].
      rewrite T2; apply in_or_app; left; apply S1; simpl; auto.
Qed.

(** [dfs(u)] returns within depth [u + 1], and extends the two lists by the
    nodes reachable from [u] that were not visited yet, [u] last. *)
Lemma dfs_spec fuel :
  forall u s, (u < fuel)%nat -> (u < length h)%nat -> dfs_inv h (S u) s ->
    exists s', dfs fuel h u s = Some s' /\ dfs_adds h [u] s s' /\
               NoDup (snd s') /\ post_ordered h (snd s') /\
               (~ In u (fst s) -> exists l, snd s' = l ++ [u]).
Proof.
  induction fuel as [|fuel IH]; intros u s Hf Hu Hinv; [lia|].
  rewrite dfs_unfold; destruct (mem u (fst s)) eqn:Hm.
  - apply mem_In in Hm.
    exists s; split; [reflexivity|]; destruct Hinv as [A B C D].
    split; [|split; [exact C|split; [exact D|tauto]]].
    exists []; rewrite app_nil_r; repeat split; simpl; try tauto.
    intros v [<-|[]]; apply B; auto.
  - apply mem_not_In in Hm.
    pose proof (h_wf u Hu) as Wu.
    assert (Hinv1 : dfs_inv h u (u :: fst s, snd s)).
    { destruct Hinv as [A B C D]; split; simpl; auto.
      intros x [<-|Hx] Hlt; [lia|apply B; auto]. }
    destruct (for_each_spec u (fun s' v => dfs fuel h v s')) with
      (l := _ancestors (deref h u)) (s := (u :: fst s, snd s))
      as (s1 & E1 & A1 & Hinv2); auto.
    { intros v s0 Hv Hvh Hi.
      destruct (IH v s0 ltac:(lia) Hvh Hi) as (s' & E & A & ND & PO & _).
      exists s'; auto. }
    { intros v Hv; pose proof (anc_lt _ _ Wu v Hv); lia. }
    eexists; rewrite E1; split; [reflexivity|].
    destruct A1 as (n1 & T1 & V1 & N1 & S1); simpl in *.
    assert (Hu1 : ~ In u (snd s1)).
    { rewrite T1; intros Hx; apply in_app_or in Hx; destruct Hx as [Hx|Hx].
      - apply Hm; apply (inv_sub _ _ _ Hinv); exact Hx.
      - apply (proj1 (N1 u Hx)); auto. }
    split; [|split; [|split; [|intros _; eexists; reflexivity]]].
    + exists (n1 ++ [u]); simpl; split; [|split; [|split]].
      * rewrite T1, app_assoc; reflexivity.
      * intros x; rewrite V1, in_app_iff; simpl; intuition.
      * intros x Hx; apply in_app_or in Hx; destruct Hx as [Hx|[<-|[]]].
        -- destruct (N1 x Hx) as (Hn & w & Hw & R); split; [tauto|].
           exists u; split; [auto|].
           apply reachable_trans with w; auto.
           eapply reach_step; [apply reach_refl|exact Hw].
        -- split; [exact Hm|]; exists u; split; [auto|apply reach_refl].
      * intros v [<-|[]]; apply in_or_app; right; simpl; auto.
    + apply NoDup_app; [exact (inv_nodup _ _ _ Hinv2)|repeat constructor; simpl; tauto|].
      intros x Hx [<-|[]]; auto.
    + apply po_snoc; [exact (inv_post _ _ _ Hinv2)|exact S1].
Qed.

End Traversal.

Lemma post_ordered_closed h l :
  post_ordered h l ->
  forall x a, In x l -> In a (_ancestors (deref h x)) -> In a l.
Proof.
  induction 1 as [|l y PO IH Hy]; intros x a Hx Ha; [destruct Hx|].
  apply in_or_app; left; apply in_app_or in Hx; destruct Hx as [Hx|[<-|[]]].
  - eapply IH; eauto.
  - apply Hy; exact Ha.
Qed.

Lemma post_ordered_split h l :
  post_ordered h l ->
  forall l1 x l2, l = l1 ++ x :: l2 ->
  forall a, In a (_ancestors (deref h x)) -> In a l1.
Proof.
  induction 1 as [|l y PO IH Hy]; intros l1 x l2 E a Ha.
  - destruct l1; discriminate.
  - destruct (rev l2) as [|z r] eqn:Er.
    + apply (f_equal (@rev _)) in Er; rewrite rev_involutive in Er; simpl in Er.
      subst l2; apply app_inj_tail in E; destruct E as [-> ->]; auto.
    + apply (f_equal (@rev _)) in Er; rewrite rev_involutive in Er; simpl in Er.
      subst l2; change (x :: rev r ++ [z]) with ((x :: rev r) ++ [z]) in E.
      rewrite app_assoc in E; apply app_inj_tail in E; destruct E as [-> ->].
      eapply IH; eauto.
Qed.

Lemma reachable_in_closed h l root :
  (forall x a, In x l -> In a (_ancestors (deref h x)) -> In a l) ->
  In root l -> forall x, reachable h root x -> In x l.
Proof.
  intros Hc Hr x R; induction R; eauto.
Qed.

(** The traversal started by [backward]. *)
Lemma dfs_root h fuel root :
  wf h -> (root < length h)%nat -> (root < fuel)%nat ->
  exists vis l,
    dfs fuel h root ([], []) = Some (vis, l ++ [root]) /\
    NoDup (l ++ [root]) /\
    post_ordered h (l ++ [root]) /\
    (forall x, In x (l ++ [root]) <-> reachable h root x).
Proof.
  intros W Hr Hf.
  destruct (dfs_spec h W fuel root ([], []) Hf Hr) as (s' & E & A & ND & PO & L).
  { split; simpl; try tauto; constructor. }
  destruct (L (fun x => x)) as (l & El).
  destruct s' as [vis topo]; simpl in *; subst topo.
  exists vis, l; repeat split; auto.
  - destruct A as (new & T & _ & N & _); simpl in T; subst new.
    intros Hx; destruct (N x Hx) as (_ & v & [<-|[]] & R); exact R.
  - apply reachable_in_closed.
    + apply post_ordered_closed; exact PO.
    + apply in_or_app; right; simpl; auto.
Qed.

(** In the order in which [backward] calls the closures (the reverse of a
    duplicate-free post-order), a node comes after every node of the list
    that has it among its ancestors. *)
Lemma dependents_first h l :
  NoDup l -> post_ordered h l ->
  forall p1 x p2, rev l = p1 ++ x :: p2 ->
  forall d, In d l -> In x (_ancestors (deref h d)) -> In d p1.
Proof.
  intros ND PO p1 x p2 E d Hd Hx.
  assert (El : l = rev p2 ++ x :: rev p1).
  { rewrite <- (rev_involutive l), E, rev_app_distr; simpl.
    rewrite <- app_assoc; reflexivity. }
  apply in_split in Hd; destruct Hd as (m1 & m2 & Em).
  pose proof (post_ordered_split h l PO m1 d m2 Em x Hx) as Hm1.
  apply in_split in Hm1; destruct Hm1 as (a1 & a2 & ->).
  rewrite Em in El; rewrite <- app_assoc in El; simpl in El.
  assert (Ex : a1 = rev p2 /\ a2 ++ d :: m2 = rev p1).
  { rewrite Em, <- app_assoc in ND; simpl in ND.
    clear - El ND; revert p2 El; generalize (rev p1) as q; intros q p2.
    generalize (rev p2) as r; clear p2; intros r; revert r.
    induction a1 as [|y a1 IH]; intros [|z r] El; simpl in *.
    - injection El; auto.
    - injection El as <- El; exfalso.
      apply NoDup_cons_iff in ND; apply (proj1 ND).
      rewrite El; apply in_or_app; right; simpl; auto.
    - injection El as -> E'; exfalso.
      apply NoDup_cons_iff in ND; apply (proj1 ND).
      apply in_or_app; right; simpl; auto.
    - injection El as <- El.
      apply NoDup_cons_iff in ND; destruct (IH (proj2 ND) r El) as [-> ?]; auto. }
  destruct Ex as [_ Ex]; apply in_rev; rewrite <- Ex.
  apply in_or_app; right; simpl; auto.
Qed.

(** ** Increments *)

Lemma received_app m l1 l2 : received m (l1 ++ l2) = received m l1 + received m l2.
Proof. induction l1 as [|e t IH]; simpl; [|rewrite IH]; lra. Qed.

Lemma received_none m l : (forall e, In e l -> fst e <> m) -> received m l = 0.
Proof.
  induction l as [|e t IH]; intros H; simpl; auto.
  rewrite IH by (intros; apply H; simpl; auto).
  destruct (Nat.eqb_spec (fst e) m) as [E|_]; [|lra].
  exfalso; apply (H e); simpl; auto.
Qed.

Lemma apply_increments_same_graph l h : same_graph h (apply_increments l h).
Proof.
  revert h; induction l as [|e t IH]; intros h; simpl.
  - apply same_graph_refl.
  - eapply same_graph_trans; [apply add_grad_same_graph|apply IH].
Qed.

Lemma grad_add_grad h r d m :
  (r < length h)%nat ->
  grad (deref (add_grad h r d) m) = grad (deref h m) + (if Nat.eqb r m then d else 0).
Proof.
  intros Hr; destruct (Nat.eqb_spec r m) as [<-|Hm].
  - apply grad_add_grad_same; exact Hr.
  - rewrite grad_add_grad_other by auto; lra.
Qed.

Lemma grad_apply_increments l : forall h m,
  (forall e, In e l -> (fst e < length h)%nat) ->
  grad (deref (apply_increments l h) m) = grad (deref h m) + received m l.
Proof.
  induction l as [|e t IH]; intros h m Hl; simpl; [lra|].
  unfold apply_increments in IH; rewrite IH.
  - rewrite grad_add_grad by (apply Hl; simpl; auto); lra.
  - intros e' He'; rewrite (proj1 (add_grad_same_graph h (fst e) (snd e))).
    apply Hl; simpl; auto.
Qed.

(** The right-hand sides of a closure read the gradient of the node that
    holds it and values: they are the same in two heaps with the same graph
    in which that node has the same gradient. *)
Lemma rhs_same c res h h' :
  same_graph h h' -> grad (deref h' res) = grad (deref h res) ->
  forall s, In s (body c res) -> snd s h' = snd s h.
Proof.
  intros [_ E] G s Hs.
  destruct c; simpl in Hs;
    repeat match goal with
           | H : _ \/ _ |- _ => destruct H
           | H : False |- _ => destruct H
           end; subst s; simpl; rewrite ?G, ?(proj1 (E _)); reflexivity.
Qed.

(** The statements of a body whose targets are not the node that holds
    the closure: each right-hand side has the amount it has beforehand. *)
Lemma exec_amounts res : forall stmts h0 h,
  (forall s, In s stmts -> fst s <> res) ->
  (forall s h1 h2, In s stmts -> same_graph h1 h2 ->
     grad (deref h2 res) = grad (deref h1 res) -> snd s h2 = snd s h1) ->
  same_graph h0 h -> grad (deref h res) = grad (deref h0 res) ->
  fst (exec stmts h) = apply_increments (amounts stmts h0) h.
Proof.
  induction stmts as [|[target rhs] rest IH]; intros h0 h Ht Hr SG G; simpl; auto.
  pose proof (Hr (target, rhs) h0 h (or_introl eq_refl) SG G) as E; simpl in E.
  rewrite E; clear E; destruct (rhs h0); simpl; auto.
  apply IH.
  - intros s Hs; apply Ht; simpl; auto.
  - intros s h1 h2 Hs; apply Hr; simpl; auto.
  - eapply same_graph_trans; [exact SG|apply add_grad_same_graph].
  - rewrite grad_add_grad_other; [exact G|].
    intros E; apply (Ht (target, rhs)); simpl; auto.
Qed.

Lemma body_targets c res s : In s (body c res) -> In (fst s) (operands c).
Proof.
  destruct c; simpl; intuition (subst; simpl; auto).
Qed.

(** A closure that does not write to the node that holds it performs its
    additions with the amounts it would compute beforehand. *)
Lemma heap_after_increments h res :
  ~ In res (operands (_backward (deref h res))) ->
  heap_after h res = apply_increments (increments h res) h.
Proof.
  intros Hres; unfold heap_after, local_backward, increments.
  apply (exec_amounts res).
  - intros s Hs E; apply Hres; apply body_targets in Hs; rewrite E in Hs; exact Hs.
  - intros s h1 h2 Hs SG G; eapply rhs_same; eauto.
  - apply same_graph_refl.
  - reflexivity.
Qed.

Lemma wf_not_self h res :
  wf h -> ~ In res (operands (_backward (deref h res))).
Proof.
  intros W Hres; destruct (Nat.lt_ge_cases res (length h)) as [Hr|Hr].
  - destruct (W res Hr) as [A _ C]; apply C in Hres; apply A in Hres; lia.
  - rewrite deref_out_of_range in Hres by exact Hr; exact Hres.
Qed.

Lemma amounts_targets stmts h e :
  In e (amounts stmts h) -> exists s, In s stmts /\ fst s = fst e.
Proof.
  induction stmts as [|[target rhs] rest IH]; simpl; [tauto|].
  destruct (rhs h); simpl; try tauto.
  intros [<-|He].
  - exists (target, rhs); simpl; auto.
  - destruct (IH He) as (s & Hs & E); exists s; auto.
Qed.

Lemma increments_targets h res e :
  In e (increments h res) -> In (fst e) (operands (_backward (deref h res))).
Proof.
  intros He; destruct (amounts_targets _ _ _ He) as (s & Hs & <-).
  eapply body_targets; exact Hs.
Qed.

Lemma wf_operands_in_range h res a :
  wf h -> In a (operands (_backward (deref h res))) ->
  In a (_ancestors (deref h res)) /\ (a < res)%nat /\ (res < length h)%nat.
Proof.
  intros W Ha; destruct (Nat.lt_ge_cases res (length h)) as [Hr|Hr].
  - destruct (W res Hr) as [A _ C]; apply C in Ha; auto.
  - rewrite deref_out_of_range in Ha by exact Hr; destruct Ha.
Qed.

Lemma trace_targets order : forall h e,
  wf h -> In e (trace order h) ->
  exists n, In n order /\ In (fst e) (_ancestors (deref h n)) /\
            (fst e < n)%nat /\ (n < length h)%nat.
Proof.
  induction order as [|n t IH]; intros h e W He; simpl in *; [destruct He|].
  apply in_app_or in He; destruct He as [He|He].
  - apply increments_targets in He.
    destruct (wf_operands_in_range h n _ W He) as (? & ? & ?); exists n; auto.
  - pose proof (heap_after_same_graph h n) as SG.
    destruct (IH _ e (same_graph_wf _ _ SG W) He) as (k & Hk & Ha & Hlt & Hlen).
    exists k; rewrite (proj2 (proj2 (proj2 SG k))) in Ha; rewrite (proj1 SG) in Hlen.
    auto.
Qed.

(** The closures of a list of nodes, called one after the other, make the
    list of their additions. *)
Lemma run_all_trace order : forall h,
  wf h -> run_all order h = apply_increments (trace order h) h.
Proof.
  induction order as [|n t IH]; intros h W; simpl; auto.
  unfold apply_increments; rewrite fold_left_app.
  fold (apply_increments (increments h n) h).
  rewrite <- heap_after_increments by (apply wf_not_self; exact W).
  apply IH; eapply same_graph_wf; [apply heap_after_same_graph|exact W].
Qed.

Lemma grad_run_all order h m :
  wf h ->
  grad (deref (run_all order h) m) = grad (deref h m) + received m (trace order h).
Proof.
  intros W; rewrite run_all_trace by exact W.
  apply grad_apply_increments.
  intros e He; destruct (trace_targets order h e W He) as (n & _ & _ & ? & ?); lia.
Qed.

(** A node keeps its gradient through the closures of nodes it is not an
    ancestor of. *)
Lemma grad_run_all_untouched order h m :
  wf h -> (forall n, In n order -> ~ In m (_ancestors (deref h n))) ->
  grad (deref (run_all order h) m) = grad (deref h m).
Proof.
  intros W Hm; rewrite grad_run_all by exact W.
  rewrite received_none; [lra|].
  intros e He <-; destruct (trace_targets order h e W He) as (n & Hn & Ha & _).
  exact (Hm n Hn Ha).
Qed.

(** ** The loop of [backward] and the closures it calls *)

Lemma run_closures_fst order : forall h,
  fst (run_closures order h) = run_all (calls order h) h.
Proof.
  induction order as [|n t IH]; intros h; simpl; auto.
  unfold heap_after; destruct (local_backward h n) as [h1 r]; simpl.
  destruct r; simpl; auto.
Qed.

Lemma calls_prefix order : forall h, exists rest, order = calls order h ++ rest.
Proof.
  induction order as [|n t IH]; intros h; simpl; [exists []; reflexivity|].
  destruct (snd (local_backward h n));
    try (exists t; reflexivity).
  destruct (IH (heap_after h n)) as (rest & E); exists rest; simpl; congruence.
Qed.

Lemma calls_In order h n : In n (calls order h) -> In n order.
Proof.
  destruct (calls_prefix order h) as (rest & E); intros Hn.
  rewrite E; apply in_or_app; auto.
Qed.

(** When the loop returns, it has called every closure. *)
Lemma calls_all order : forall h,
  snd (run_closures order h) = Ok tt -> calls order h = order.
Proof.
  induction order as [|n t IH]; intros h; simpl; auto.
  unfold heap_after; destruct (local_backward h n) as [h1 r]; simpl.
  destruct r; simpl; try discriminate.
  intros E; rewrite IH by exact E; reflexivity.
Qed.

(** Whether a closure returns depends on the graph only. *)
Lemma exec_snd_same : forall stmts h h',
  (forall s h1 h2, In s stmts -> same_graph h1 h2 ->
     discard (snd s h2) = discard (snd s h1)) ->
  same_graph h h' ->
  snd (exec stmts h') = snd (exec stmts h).
Proof.
  induction stmts as [|[target rhs] rest IH]; intros h h' Hr SG; simpl; auto.
  pose proof (Hr (target, rhs) h h' (or_introl eq_refl) SG) as E; simpl in E.
  destruct (rhs h) eqn:E1, (rhs h') eqn:E2; simpl in *; try discriminate; auto.
  apply IH.
  - intros s h1 h2 Hs; apply Hr; simpl; auto.
  - eapply same_graph_trans; [apply same_graph_trans with h|].
    + destruct (add_grad_same_graph h target a) as [L G]; split; [lia|].
      intros m; destruct (G m) as (?&?&?); repeat split; congruence.
    + exact SG.
    + apply add_grad_same_graph.
Qed.

Lemma rhs_returns_same c res h h' :
  same_graph h h' ->
  forall s, In s (body c res) -> discard (snd s h') = discard (snd s h).
Proof.
  intros [_ E] s Hs.
  destruct c; simpl in Hs;
    repeat match goal with
           | H : _ \/ _ |- _ => destruct H
           | H : False |- _ => destruct H
           end; subst s; simpl; rewrite ?(proj1 (E _)); try reflexivity.
  - destruct (py_pow (value (deref h self)) (power - 1)); reflexivity.
  - destruct (py_pow y 2); reflexivity.
  - destruct (math_exp inner); simpl; try reflexivity.
    destruct (math_exp (- inner)); simpl; try reflexivity.
    destruct (py_truediv 2 (a + a0)); reflexivity.
Qed.

Lemma safe_same_graph h h' n : same_graph h h' -> safe h n -> safe h' n.
Proof.
  intros SG S; unfold safe, local_backward in *.
  rewrite (proj1 (proj2 (proj2 SG n))).
  rewrite (exec_snd_same _ h h'); auto.
  intros s h1 h2 Hs SG'; eapply rhs_returns_same; eauto.
Qed.

(** When no closure of the list raises, the loop calls them all and
    returns. *)
Lemma run_closures_safe order : forall h,
  (forall n, In n order -> safe h n) ->
  run_closures order h = (run_all order h, Ok tt).
Proof.
  induction order as [|n t IH]; intros h Hs; simpl; auto.
  pose proof (Hs n (or_introl eq_refl)) as Sn; unfold safe in Sn.
  unfold heap_after; destruct (local_backward h n) as [h1 r] eqn:E; simpl in *.
  subst r; apply IH.
  intros m Hm; apply (safe_same_graph h); [|apply Hs; auto].
  replace h1 with (heap_after h n) by (unfold heap_after; rewrite E; reflexivity).
  apply heap_after_same_graph.
Qed.

(** A closure that does not return leaves the heap as it found it. *)
Lemma raise_keeps_heap h n :
  snd (local_backward h n) <> Ok tt -> heap_after h n = h.
Proof.
  unfold heap_after, local_backward.
  destruct (_backward (deref h n)); simpl; try congruence.
  - destruct (py_pow (value (deref h self)) (power - 1)); simpl; congruence.
  - destruct (py_pow y 2); simpl; congruence.
  - destruct (math_exp inner); simpl; try congruence.
    destruct (math_exp (- inner)); simpl; try congruence.
    destruct (py_truediv 2 (a + a0)); simpl; congruence.
Qed.

(** ** Numbers *)

Lemma float_max_bounds : 1 <= float_max < 2 ^ 1024.
Proof.
  unfold float_max.
  change (2 ^ 1024) with (2 * 2 ^ 1023).
  assert (A : 1 <= 2 ^ 52) by (apply pow_R1_Rle; lra).
  assert (B : 1 <= 2 ^ 1023) by (apply pow_R1_Rle; lra).
  generalize dependent (2 ^ 1023); generalize dependent (2 ^ 52).
  intros a A b B.
  assert (Ia : 0 < / a <= 1).
  { split; [apply Rinv_0_lt_compat; lra|].
    rewrite <- Rinv_1; apply Rinv_le_contravar; lra. }
  split; nra.
Qed.

Lemma in_range_ok v : Rabs v <= float_max -> in_range v = Ok v.
Proof. intros H; unfold in_range; destruct (Rle_dec (Rabs v) float_max); tauto. Qed.

Lemma in_range_overflow v : float_max < Rabs v -> in_range v = OverflowError.
Proof.
  intros H; unfold in_range; destruct (Rle_dec (Rabs v) float_max); [lra|reflexivity].
Qed.

Lemma in_range_inv v w : in_range v = Ok w -> w = v /\ Rabs v <= float_max.
Proof.
  unfold in_range; destruct (Rle_dec (Rabs v) float_max); [|discriminate].
  intros E; injection E as <-; auto.
Qed.

Lemma math_exp_ok x : exp x <= float_max -> math_exp x = Ok (exp x).
Proof.
  intros H; apply in_range_ok; rewrite Rabs_pos_eq; [exact H|].
  left; apply exp_pos.
Qed.

Lemma math_exp_overflow x : float_max < exp x -> math_exp x = OverflowError.
Proof.
  intros H; apply in_range_overflow; rewrite Rabs_pos_eq; [exact H|].
  left; apply exp_pos.
Qed.

Lemma math_exp_inv x v : math_exp x = Ok v -> v = exp x /\ exp x <= float_max.
Proof.
  intros E; apply in_range_inv in E; destruct E as [-> H]; split; auto.
  rewrite Rabs_pos_eq in H; [exact H|left; apply exp_pos].
Qed.

Lemma exp_le x y : x <= y -> exp x <= exp y.
Proof.
  intros [H| ->]; [left; apply exp_increasing; exact H|right; reflexivity].
Qed.

(** [math.exp] returns on every argument that is not positive. *)
Lemma math_exp_nonpos x : x <= 0 -> math_exp x = Ok (exp x).
Proof.
  intros H; apply math_exp_ok.
  apply Rle_trans with 1; [|apply float_max_bounds].
  rewrite <- exp_0; apply exp_le; exact H.
Qed.

Lemma exp_nat n : 2 ^ n <= exp (INR n).
Proof.
  induction n as [|n IH]; [simpl; rewrite exp_0; lra|].
  rewrite S_INR, exp_plus; simpl.
  pose proof (exp_ineq1_le 1); pose proof (exp_pos (INR n)).
  assert (0 < 2 ^ n) by (apply pow_lt; lra).
  nra.
Qed.

(** [exp] exceeds the largest float from 1024 on (the exact bound is the
    logarithm of the largest float, about 709.78). *)
Lemma exp_overflows x : 1024 <= x -> float_max < exp x.
Proof.
  intros H.
  apply Rlt_le_trans with (2 ^ 1024); [apply float_max_bounds|].
  apply Rle_trans with (exp (INR 1024)); [apply exp_nat|].
  apply exp_le; rewrite INR_IZR_INZ; exact H.
Qed.

Lemma math_exp_large x : 1024 <= x -> math_exp x = OverflowError.
Proof. intros H; apply math_exp_overflow, exp_overflows, H. Qed.

Lemma sqrt_2_PI_bounds : 1 / 2 <= sqrt (2 / PI) <= 1.
Proof.
  pose proof PI_RGT_0 as P0; pose proof PI_4 as P4; pose proof PI2_1 as P1.
  unfold PI2 in P1.
  assert (T : 0 < / PI) by (apply Rinv_0_lt_compat; exact P0).
  assert (E : PI * / PI = 1) by (apply Rinv_r; lra).
  assert (A : 1 / 4 <= 2 / PI) by (unfold Rdiv; nra).
  assert (B : 2 / PI <= 1) by (unfold Rdiv; nra).
  split.
  - replace (1 / 2) with (sqrt (1 / 4)); [apply sqrt_le_1_alt; exact A|].
    replace (1 / 4) with ((1 / 2) * (1 / 2)) by lra.
    apply sqrt_square; lra.
  - rewrite <- sqrt_1; apply sqrt_le_1_alt; exact B.
Qed.

Lemma py_truediv_ok x y : y <> 0 -> py_truediv x y = Ok (x / y).
Proof. intros H; unfold py_truediv; destruct (Req_dec_T y 0); tauto. Qed.

Lemma py_pow_zero_exponent x : py_pow x 0 = Ok 1.
Proof. unfold py_pow; destruct (Req_dec_T 0 0); tauto. Qed.

(** [0 ** p] raises for a negative [p] and is 0 for a positive [p]. *)
Lemma py_pow_zero_negative p : p < 0 -> py_pow 0 p = ZeroDivisionError.
Proof.
  intros H; unfold py_pow.
  destruct (Req_dec_T p 0); [lra|].
  destruct (Req_dec_T 0 0); [|tauto].
  destruct (Rlt_dec p 0); tauto.
Qed.

Lemma py_pow_zero_positive p : 0 < p -> py_pow 0 p = Ok 0.
Proof.
  intros H; unfold py_pow.
  destruct (Req_dec_T p 0); [lra|].
  destruct (Req_dec_T 0 0); [|tauto].
  destruct (Rlt_dec p 0); [lra|reflexivity].
Qed.

Lemma py_pow_integer x z :
  x <> 0 -> z <> 0%Z -> py_pow x (IZR z) = in_range (powerRZ x z).
Proof.
  intros Hx Hz.
  assert (E : z = Int_part (IZR z)) by (apply Int_part_spec; lra).
  unfold py_pow; rewrite <- E.
  destruct (Req_dec_T (IZR z) 0) as [Z0|_]; [apply eq_IZR in Z0; contradiction|].
  destruct (Req_dec_T x 0); [contradiction|].
  destruct (Req_dec_T (IZR z) (IZR z)) as [_|N]; [reflexivity|contradiction].
Qed.

(** [x ** n] for a natural number [n] is the [n]-th power, when that is a
    float. *)
Lemma py_pow_natural x n : py_pow x (INR n) = in_range (x ^ n).
Proof.
  destruct n as [|n].
  - simpl; rewrite py_pow_zero_exponent; symmetry; apply in_range_ok.
    rewrite Rabs_R1; apply float_max_bounds.
  - destruct (Req_dec_T x 0) as [->|Hx].
    + rewrite py_pow_zero_positive by (apply lt_0_INR; lia).
      rewrite pow_ne_zero by lia; symmetry; apply in_range_ok.
      rewrite Rabs_R0; pose proof float_max_bounds; lra.
    + rewrite INR_IZR_INZ, py_pow_integer by (auto; lia).
      rewrite <- pow_powerRZ; reflexivity.
Qed.

(** [x ** -1] is the inverse, when [x] is not 0 and the inverse is a float. *)
Lemma py_pow_inverse x : x <> 0 -> py_pow x (-1) = in_range (/ x).
Proof.
  intros Hx; rewrite (py_pow_integer x (-1)) by (auto; lia).
  simpl; rewrite Rmult_1_r; reflexivity.
Qed.

Lemma py_pow_square y : Rabs y <= 1 -> py_pow y 2 = Ok (y ^ 2).
Proof.
  intros Hy.
  assert (E : py_pow y 2 = py_pow y (INR 2)) by (f_equal; simpl; lra).
  rewrite E, py_pow_natural; apply in_range_ok.
  rewrite <- RPow_abs; pose proof (Rabs_pos y); pose proof float_max_bounds.
  simpl; nra.
Qed.

Lemma exp_nat_upper n : exp (INR n) <= 4 ^ n.
Proof.
  induction n as [|n IH]; [simpl; rewrite exp_0; lra|].
  rewrite S_INR, exp_plus; simpl.
  pose proof exp_le_3; pose proof (exp_pos (INR n)); pose proof (exp_pos 1).
  nra.
Qed.

(** [exp] is a float up to 511 (the exact bound is about 709.78). *)
Lemma exp_in_range x : x <= 511 -> exp x <= float_max.
Proof.
  intros H.
  apply Rle_trans with (exp (INR 511)); [apply exp_le; rewrite INR_IZR_INZ; exact H|].
  apply Rle_trans with (4 ^ 511); [apply exp_nat_upper|].
  apply Rle_trans with (2 ^ 1023).
  - replace 4 with (2 ^ 2) by (simpl; lra).
    rewrite <- pow_mult; apply Rle_pow; [lra|lia].
  - unfold float_max.
    assert (A : 1 <= 2 ^ 52) by (apply pow_R1_Rle; lra).
    assert (B : 0 < 2 ^ 1023) by (apply pow_lt; lra).
    generalize dependent (2 ^ 1023); generalize dependent (2 ^ 52).
    intros a A b B.
    assert (Ia : 0 < / a <= 1).
    { split; [apply Rinv_0_lt_compat; lra|].
      rewrite <- Rinv_1; apply Rinv_le_contravar; lra. }
    nra.
Qed.

Lemma float_max_large : 1024 <= float_max.
Proof.
  apply Rle_trans with (2 ^ 1023).
  - replace 1024 with (2 ^ 10) by (simpl; lra).
    apply Rle_pow; [lra|lia].
  - unfold float_max.
    assert (A : 1 <= 2 ^ 52) by (apply pow_R1_Rle; lra).
    assert (B : 0 < 2 ^ 1023) by (apply pow_lt; lra).
    generalize dependent (2 ^ 1023); generalize dependent (2 ^ 52).
    intros a A b B.
    assert (Ia : 0 < / a <= 1).
    { split; [apply Rinv_0_lt_compat; lra|].
      rewrite <- Rinv_1; apply Rinv_le_contravar; lra. }
    nra.
Qed.

(** ** Allocation *)

Lemma iter_of_In so l x : In x (iter_of so l) <-> In x l.
Proof.
  split; intros H.
  - apply (nodup_In Nat.eq_dec).
    eapply Permutation_in; [apply iter_perm|exact H].
  - eapply Permutation_in; [apply Permutation_sym, iter_perm|].
    apply nodup_In; exact H.
Qed.

Lemma iter_of_NoDup so l : NoDup (iter_of so l).
Proof.
  eapply Permutation_NoDup; [apply Permutation_sym, iter_perm|apply NoDup_nodup].
Qed.

Lemma update_app_new h s f : update (h ++ [s]) (length h) f = h ++ [f s].
Proof. induction h as [|x t IH]; simpl; [|rewrite IH]; reflexivity. Qed.

Lemma wf_nil : wf [].
Proof. intros r Hr; simpl in Hr; lia. Qed.

Lemma wf_snoc so h v g c anc :
  wf h -> (forall a, In a anc -> (a < length h)%nat) ->
  (forall a, In a (operands c) <-> In a anc) ->
  wf (h ++ [mkScalar v g c (iter_of so anc)]).
Proof.
  intros W Ha Hc r Hr; rewrite length_app in Hr; simpl in Hr.
  destruct (Nat.eq_dec r (length h)) as [->|Hne].
  - rewrite deref_app_new; split; simpl.
    + intros a H; apply Ha; apply (iter_of_In so); exact H.
    + apply iter_of_NoDup.
    + intros a; rewrite iter_of_In; apply Hc.
  - rewrite deref_app_old by lia; apply W; lia.
Qed.

Section Allocation.

Context (so : SetOrder).

Lemma Scalar_add_node h a b :
  Scalar_add so h a (Node b) =
  (h ++ [mkScalar (value (deref h a) + value (deref h b)) 0 (AddBackward a b)
           (iter_of so [a; b])], length h).
Proof.
  unfold Scalar_add, promote, Scalar_init, set_backward.
  rewrite update_app_new; reflexivity.
Qed.

Lemma Scalar_mul_node h a b :
  Scalar_mul so h a (Node b) =
  (h ++ [mkScalar (value (deref h a) * value (deref h b)) 0 (MulBackward a b)
           (iter_of so [a; b])], length h).
Proof.
  unfold Scalar_mul, promote, Scalar_init, set_backward.
  rewrite update_app_new; reflexivity.
Qed.

Lemma Scalar_pow_node h a p v :
  py_pow (value (deref h a)) p = Ok v ->
  Scalar_pow so h a p =
  Ok (h ++ [mkScalar v 0 (PowBackward a p) (iter_of so [a])], length h).
Proof.
  intros E; unfold Scalar_pow, Scalar_init, set_backward; rewrite E; simpl.
  rewrite update_app_new; reflexivity.
Qed.

(** When the power of the numbers raises, [__pow__] raises and builds no
    node. *)
Lemma Scalar_pow_zero_division h a p :
  py_pow (value (deref h a)) p = ZeroDivisionError ->
  Scalar_pow so h a p = ZeroDivisionError.
Proof. intros E; unfold Scalar_pow; rewrite E; reflexivity. Qed.

Lemma Scalar_relu_node h a :
  Scalar_relu so h a =
  (h ++ [mkScalar (if py_lt (value (deref h a)) 0 then 0 else value (deref h a)) 0
           (ReluBackward a) (iter_of so [a])], length h).
Proof.
  unfold Scalar_relu, Scalar_init, set_backward.
  rewrite update_app_new; reflexivity.
Qed.

Lemma Scalar_tanh_node h a :
  exp (2 * value (deref h a)) <= float_max ->
  Scalar_tanh so h a =
  (let y := (exp (2 * value (deref h a)) - 1) / (exp (2 * value (deref h a)) + 1) in
   Ok (h ++ [mkScalar y 0 (TanhBackward a y) (iter_of so [a])], length h)).
Proof.
  intros E; unfold Scalar_tanh, Scalar_init, set_backward.
  rewrite (math_exp_ok _ E); simpl.
  rewrite py_truediv_ok by (pose proof (exp_pos (2 * value (deref h a))); lra).
  simpl; rewrite update_app_new; reflexivity.
Qed.

Lemma Scalar_tanh_overflow h a :
  float_max < exp (2 * value (deref h a)) -> Scalar_tanh so h a = OverflowError.
Proof.
  intros E; unfold Scalar_tanh; rewrite (math_exp_overflow _ E); reflexivity.
Qed.

Lemma Scalar_gelu_node h a :
  exp (2 * gelu_inner (value (deref h a))) <= float_max ->
  Scalar_gelu so h a =
  (let x := value (deref h a) in
   let e := exp (2 * gelu_inner x) in
   Ok (h ++ [mkScalar (5 / 10 * x * (1 + (e - 1) / (e + 1))) 0
               (GeluBackward a x (gelu_inner x)) (iter_of so [a])], length h)).
Proof.
  intros E; unfold Scalar_gelu, Scalar_init, set_backward.
  rewrite (math_exp_ok _ E); simpl.
  rewrite py_truediv_ok
    by (pose proof (exp_pos (2 * gelu_inner (value (deref h a)))); lra).
  simpl; rewrite update_app_new; reflexivity.
Qed.

Lemma Scalar_gelu_overflow h a :
  float_max < exp (2 * gelu_inner (value (deref h a))) ->
  Scalar_gelu so h a = OverflowError.
Proof.
  intros E; unfold Scalar_gelu; rewrite (math_exp_overflow _ E); reflexivity.
Qed.

(** A constant leaf. *)
Lemma wf_leaf h v : wf h -> wf (fst (Scalar_init so h v [])).
Proof.
  intros W; simpl; apply wf_snoc; auto; simpl; tauto.
Qed.

Lemma wf_binary h v g c a b :
  wf h -> (a < length h)%nat -> (b < length h)%nat ->
  operands c = [a; b] ->
  wf (h ++ [mkScalar v g c (iter_of so [a; b])]).
Proof.
  intros W Ha Hb Hc; apply wf_snoc; auto.
  - intros x [<-|[<-|[]]]; auto.
  - rewrite Hc; tauto.
Qed.

Lemma wf_unary h v g c a :
  wf h -> (a < length h)%nat -> operands c = [a] ->
  wf (h ++ [mkScalar v g c (iter_of so [a])]).
Proof.
  intros W Ha Hc; apply wf_snoc; auto.
  - intros x [<-|[]]; auto.
  - rewrite Hc; tauto.
Qed.

End Allocation.

(** ** [backward] on a well-formed heap *)

Lemma reachable_head h root x :
  reachable h root x ->
  x = root \/ exists c, In c (_ancestors (deref h root)) /\ reachable h c x.
Proof.
  induction 1 as [|v w R IH Hw]; [left; reflexivity|right].
  destruct IH as [->|(c & Hc & Rc)].
  - exists w; split; [exact Hw|apply reach_refl].
  - exists c; split; [exact Hc|eapply reach_step; eauto].
Qed.

Lemma depends_lt h u v :
  wf h -> (u < length h)%nat -> depends h u v -> (v < u)%nat.
Proof.
  intros W Hu (n & R & Hv).
  pose proof (reachable_le h W u n Hu R) as Hn.
  assert (Hn' : (n < length h)%nat) by lia.
  pose proof (anc_lt _ _ (W n Hn') v Hv); lia.
Qed.

(** Reachability from an old node is not changed by later allocations. *)
Lemma reachable_app_old h t u v :
  wf (h ++ t) -> (u < length h)%nat -> reachable (h ++ t) u v -> reachable h u v.
Proof.
  intros W Hu R; induction R as [|v w R IH Hw]; [apply reach_refl|].
  assert (Hv : (v <= u)%nat).
  { apply (reachable_le (h ++ t) W u v); [rewrite length_app; lia|exact R]. }
  rewrite deref_app_old in Hw by lia.
  eapply reach_step; eauto.
Qed.

Lemma depends_app_old h t u v :
  wf (h ++ t) -> (u < length h)%nat -> depends (h ++ t) u v -> depends h u v.
Proof.
  intros W Hu (n & R & Hv).
  assert (Hn : (n <= u)%nat).
  { apply (reachable_le (h ++ t) W u n); [rewrite length_app; lia|exact R]. }
  exists n; split; [eapply reachable_app_old; eauto|].
  rewrite deref_app_old in Hv by lia; exact Hv.
Qed.

(** [backward] seeds the root and calls the closure of the root, then the
    closures of the other reachable nodes, every node after the nodes that
    have it among their ancestors, until one of them does not return.
    [l ++ [root]] is [toposort]; [called] lists the nodes other than the
    root whose closures are called. *)
Lemma backward_root h fuel root :
  wf h -> (root < length h)%nat -> (root < fuel)%nat ->
  exists l called r,
    backward fuel h root =
      Some (run_all called (heap_after (set_grad h root 1) root), r) /\
    NoDup (l ++ [root]) /\
    post_ordered h (l ++ [root]) /\
    (forall x, In x (l ++ [root]) <-> reachable h root x) /\
    (forall n, In n l -> reachable h root n /\ n <> root) /\
    (forall n, In n called -> reachable h root n /\ n <> root) /\
    (exists rest, rev l = called ++ rest) /\
    (r = Ok tt -> called = rev l) /\
    (no_raise h root -> r = Ok tt).
Proof.
  intros W Hr Hf.
  destruct (dfs_root h fuel root W Hr Hf) as (vis & l & E & ND & PO & RE).
  assert (Hl : forall n, In n l -> reachable h root n /\ n <> root).
  { intros n Hn; split.
    - apply RE; apply in_or_app; left; exact Hn.
    - intros ->; apply NoDup_remove_2 in ND; apply ND.
      rewrite app_nil_r; exact Hn. }
  set (s := set_grad h root 1).
  assert (B : backward fuel h root = Some (run_closures (root :: rev l) s)).
  { unfold backward; rewrite E; simpl; rewrite rev_app_distr; reflexivity. }
  destruct (calls_prefix (root :: rev l) s) as (rest & P).
  pose proof (run_closures_fst (root :: rev l) s) as F.
  pose proof (calls_all (root :: rev l) s) as A.
  assert (S : no_raise h root -> snd (run_closures (root :: rev l) s) = Ok tt).
  { intros NR; rewrite run_closures_safe; [reflexivity|].
    intros n Hn; apply (safe_same_graph h); [apply set_grad_same_graph|].
    apply NR; destruct Hn as [<-|Hn]; [apply reach_refl|].
    apply in_rev in Hn; apply Hl; exact Hn. }
  destruct (run_closures (root :: rev l) s) as [hf r]; simpl fst in F; simpl snd in *.
  destruct (calls (root :: rev l) s) as [|c called] eqn:Ec; [discriminate|].
  simpl in P; injection P as Er P; subst c; simpl in F.
  exists l, called, r; rewrite B, F.
  assert (Hc : forall n, In n called -> In n l).
  { intros n Hn; apply in_rev; rewrite P; apply in_or_app; auto. }
  split; [reflexivity|].
  split; [exact ND|].
  split; [exact PO|].
  split; [exact RE|].
  split; [exact Hl|].
  split; [intros n Hn; apply Hl, Hc, Hn|].
  split; [exists rest; exact P|].
  split; [|exact S].
  intros Er'; specialize (A Er'); congruence.
Qed.

(** After the closure of the root, the gradient of [m] is final when [m] is
    not a proper ancestor of an ancestor of the root. *)
Lemma grad_kept_after_root h root p X m :
  wf h -> same_graph h X ->
  (forall n, In n p -> reachable h root n /\ n <> root) ->
  (forall c, In c (_ancestors (deref h root)) -> ~ depends h c m) ->
  grad (deref (run_all p X) m) = grad (deref X m).
Proof.
  intros W SG Hl Hm; apply grad_run_all_untouched.
  - eapply same_graph_wf; eauto.
  - intros n Hn Ha; destruct (Hl n Hn) as [R Hne].
    rewrite (proj2 (proj2 (proj2 SG n))) in Ha.
    destruct (reachable_head _ _ _ R) as [|(c & Hc & Rc)]; [contradiction|].
    apply (Hm c Hc); exists n; auto.
Qed.

(** The closure of a root whose gradient was just seeded. *)
Lemma seeded_grad h root :
  (root < length h)%nat -> grad (deref (set_grad h root 1) root) = 1.
Proof. apply grad_set_grad_same. Qed.

Lemma seeded_graph h root m :
  value (deref (set_grad h root 1) m) = value (deref h m) /\
  _backward (deref (set_grad h root 1) m) = _backward (deref h m) /\
  _ancestors (deref (set_grad h root 1) m) = _ancestors (deref h m).
Proof. apply (proj2 (set_grad_same_graph h root 1)). Qed.

Lemma local_backward_seeded_add h root a b :
  (root < length h)%nat -> _backward (deref h root) = AddBackward a b -> a <> root ->
  local_backward (set_grad h root 1) root =
  (add_grad (add_grad (set_grad h root 1) a 1) b 1, Ok tt).
Proof.
  intros Hr Hc Ha; unfold local_backward.
  rewrite (proj1 (proj2 (seeded_graph h root root))), Hc; simpl.
  rewrite grad_add_grad_other by auto.
  rewrite seeded_grad by exact Hr; reflexivity.
Qed.

Lemma local_backward_seeded_mul h root a b :
  (root < length h)%nat -> _backward (deref h root) = MulBackward a b -> a <> root ->
  local_backward (set_grad h root 1) root =
  (add_grad (add_grad (set_grad h root 1) a (value (deref h b) * 1)) b
     (value (deref h a) * 1), Ok tt).
Proof.
  intros Hr Hc Ha; unfold local_backward.
  rewrite (proj1 (proj2 (seeded_graph h root root))), Hc; simpl.
  rewrite grad_add_grad_other by auto.
  rewrite (proj1 (proj2 (add_grad_same_graph _ a _) a)).
  rewrite !(proj1 (seeded_graph h root _)).
  rewrite seeded_grad by exact Hr; reflexivity.
Qed.

Lemma increments_seeded_add h root a b :
  (root < length h)%nat -> _backward (deref h root) = AddBackward a b ->
  increments (set_grad h root 1) root = [(a, 1); (b, 1)].
Proof.
  intros Hr Hc; unfold increments.
  rewrite (proj1 (proj2 (seeded_graph h root root))), Hc; simpl.
  rewrite seeded_grad by exact Hr; reflexivity.
Qed.

Lemma increments_seeded_mul h root a b :
  (root < length h)%nat -> _backward (deref h root) = MulBackward a b ->
  increments (set_grad h root 1) root =
  [(a, value (deref h b) * 1); (b, value (deref h a) * 1)].
Proof.
  intros Hr Hc; unfold increments.
  rewrite (proj1 (proj2 (seeded_graph h root root))), Hc; simpl.
  rewrite !(proj1 (seeded_graph h root _)).
  rewrite seeded_grad by exact Hr; reflexivity.
Qed.

(** The gradient of an old node after the two increments of a binary
    closure called on a fresh, seeded root. *)
Lemma grad_two_increments h s a b da db m :
  (a < length h)%nat -> (b < length h)%nat -> (m < length h)%nat ->
  grad (deref (add_grad (add_grad (set_grad (h ++ [s]) (length h) 1) a da) b db) m) =
  grad (deref h m) + (if Nat.eqb a m then da else 0) + (if Nat.eqb b m then db else 0).
Proof.
  intros Ha Hb Hm.
  assert (L : length (set_grad (h ++ [s]) (length h) 1) = S (length h)).
  { rewrite (proj1 (set_grad_same_graph _ _ _)), length_app; simpl; lia. }
  rewrite grad_add_grad
    by (rewrite (proj1 (add_grad_same_graph _ _ _)), L; lia).
  rewrite grad_add_grad by (rewrite L; lia).
  rewrite grad_set_grad_other by lia.
  rewrite deref_app_old by exact Hm; reflexivity.
Qed.

Section BinaryRoot.

Context (so : SetOrder).
Variables (h : heap) (a b : ref) (v : R) (c : closure).
Hypothesis h_wf : wf h.
Hypothesis a_in : (a < length h)%nat.
Hypothesis b_in : (b < length h)%nat.
Hypothesis c_ops : operands c = [a; b].

Let h1 : heap := h ++ [mkScalar v 0 c (iter_of so [a; b])].

Lemma binary_root_wf : wf h1.
Proof. apply wf_binary; auto. Qed.

(** The gradient an operand holds after the root's closure is final unless
    the operand is a proper ancestor of the other operand. *)
Lemma binary_root_grad_kept p X m :
  same_graph h1 X ->
  (forall n, In n p -> reachable h1 (length h) n /\ n <> length h) ->
  (m < length h)%nat ->
  (forall o, o = a \/ o = b -> ~ depends h o m) ->
  grad (deref (run_all p X) m) = grad (deref X m).
Proof.
  intros SG Hl Hm Hd.
  apply (grad_kept_after_root h1 (length h)); auto using binary_root_wf.
  unfold h1 at 1; rewrite deref_app_new; simpl.
  intros o Ho D; apply iter_of_In in Ho.
  assert (Ho' : o = a \/ o = b) by (destruct Ho as [<-|[<-|[]]]; auto).
  apply (Hd o Ho'); apply (depends_app_old h _ o m binary_root_wf); auto.
  destruct Ho' as [->| ->]; auto.
Qed.

End BinaryRoot.

(** ** Closures that return *)

Lemma safe_iff h n : safe h n <-> closure_safe h (_backward (deref h n)).
Proof.
  unfold safe, local_backward.
  destruct (_backward (deref h n)) as [|a b|a b|a p|a y|a|a x inner]; simpl;
    try tauto.
  - destruct (py_pow (value (deref h a)) (p - 1)) as [v| | | |]; simpl;
      split; intros H; try discriminate; eauto;
      destruct H as (w & H); discriminate.
  - destruct (py_pow y 2) as [v| | | |]; simpl;
      split; intros H; try discriminate; eauto;
      destruct H as (w & H); discriminate.
  - unfold math_exp, in_range.
    rewrite !(Rabs_pos_eq (exp _)) by (left; apply exp_pos).
    destruct (Rle_dec (exp inner) float_max) as [A|A]; simpl;
      [|split; [discriminate|tauto]].
    destruct (Rle_dec (exp (- inner)) float_max) as [B|B]; simpl;
      [|split; [discriminate|tauto]].
    rewrite py_truediv_ok
      by (pose proof (exp_pos inner); pose proof (exp_pos (- inner)); lra).
    simpl; tauto.
Qed.

(** A closure without a power, a [tanh] or a [gelu] always returns. *)
Lemma safe_add h n a b : _backward (deref h n) = AddBackward a b -> safe h n.
Proof. intros E; apply safe_iff; rewrite E; exact I. Qed.

Lemma safe_mul h n a b : _backward (deref h n) = MulBackward a b -> safe h n.
Proof. intros E; apply safe_iff; rewrite E; exact I. Qed.

Lemma safe_leaf h n : _backward (deref h n) = NoOp -> safe h n.
Proof. intros E; apply safe_iff; rewrite E; exact I. Qed.

Lemma safe_relu h n a : _backward (deref h n) = ReluBackward a -> safe h n.
Proof. intros E; apply safe_iff; rewrite E; exact I. Qed.

Lemma closure_safe_agree h h' c :
  (forall a, In a (operands c) -> value (deref h' a) = value (deref h a)) ->
  closure_safe h c -> closure_safe h' c.
Proof.
  intros E; destruct c; simpl in *; auto.
  rewrite E by auto; auto.
Qed.

Lemma safe_app_old h t n :
  wf (h ++ t) -> (n < length h)%nat -> safe h n -> safe (h ++ t) n.
Proof.
  intros W Hn S; apply safe_iff; apply safe_iff in S.
  rewrite deref_app_old by exact Hn.
  apply (closure_safe_agree h); [|exact S].
  intros a Ha; rewrite deref_app_old; [reflexivity|].
  assert (Ha' : In a (operands (_backward (deref (h ++ t) n))))
    by (rewrite deref_app_old by exact Hn; exact Ha).
  destruct (wf_operands_in_range _ _ _ W Ha') as (_ & ? & _); lia.
Qed.

Lemma no_raise_app_old h t u :
  wf (h ++ t) -> (u < length h)%nat -> no_raise h u -> no_raise (h ++ t) u.
Proof.
  intros W Hu NR n R.
  assert (Hn : (n <= u)%nat).
  { apply (reachable_le (h ++ t) W u n); [rewrite length_app; lia|exact R]. }
  apply safe_app_old; [exact W|lia|].
  apply NR; eapply reachable_app_old; eauto.
Qed.

Lemma no_raise_same_graph h h' u : same_graph h h' -> no_raise h u -> no_raise h' u.
Proof.
  intros SG NR n R; apply (safe_same_graph h); [exact SG|apply NR].
  clear NR; induction R as [|v w R IH Hw]; [apply reach_refl|].
  rewrite (proj2 (proj2 (proj2 SG v))) in Hw; eapply reach_step; eauto.
Qed.

(** From a node, [backward] can call the closure of the node and those it
    can call from the node's ancestors. *)
Lemma no_raise_node h u :
  safe h u -> (forall a, In a (_ancestors (deref h u)) -> no_raise h a) ->
  no_raise h u.
Proof.
  intros S Ha n R; destruct (reachable_head _ _ _ R) as [->|(c & Hc & Rc)]; auto.
  apply (Ha c Hc); exact Rc.
Qed.

Lemma leaf_reachable h u n :
  _ancestors (deref h u) = [] -> reachable h u n -> n = u.
Proof.
  intros L R; induction R as [|v w R IH Hw]; auto.
  subst v; rewrite L in Hw; destruct Hw.
Qed.

Lemma leaf_not_depends h u v : _ancestors (deref h u) = [] -> ~ depends h u v.
Proof.
  intros L (n & R & Hv); apply (leaf_reachable h u n L) in R; subst n.
  rewrite L in Hv; destruct Hv.
Qed.

Lemma leaf_no_raise h u :
  _backward (deref h u) = NoOp -> _ancestors (deref h u) = [] -> no_raise h u.
Proof.
  intros C A; apply no_raise_node; [apply safe_leaf; exact C|].
  rewrite A; intros a [].
Qed.

Section NewRoot.

Context (so : SetOrder).
Variables (h : heap) (v : R) (c : closure) (anc : list ref).
Hypothesis h_wf : wf h.
Hypothesis anc_in : forall a, In a anc -> (a < length h)%nat.
Hypothesis c_ops : forall a, In a (operands c) <-> In a anc.

Let h1 : heap := h ++ [mkScalar v 0 c (iter_of so anc)].

Lemma new_root_wf : wf h1.
Proof. apply wf_snoc; auto. Qed.

(** [backward] on a fresh node raises only if the closure of the node, or
    one that [backward] can call from its operands, does. *)
Lemma new_root_no_raise :
  closure_safe h c -> (forall a, In a anc -> no_raise h a) ->
  no_raise h1 (length h).
Proof.
  intros S NR; apply no_raise_node.
  - apply safe_iff; unfold h1; rewrite deref_app_new; simpl.
    apply (closure_safe_agree h); [|exact S].
    intros a Ha; rewrite deref_app_old; [reflexivity|apply anc_in, c_ops, Ha].
  - unfold h1 at 1; rewrite deref_app_new; simpl.
    intros a Ha; apply iter_of_In in Ha.
    apply no_raise_app_old; auto using new_root_wf.
Qed.

End NewRoot.

(** * The specification, statement by statement *)

Lemma leaves_wf_from vs : forall h,
  wf h -> wf (fold_left (fun h' v => fst (Scalar_init insertion_order h' v [])) vs h).
Proof.
  induction vs as [|v t IH]; intros h W; simpl; auto.
  apply IH; apply (wf_leaf insertion_order); exact W.
Qed.

Lemma leaves_wf vs : wf (leaves vs).
Proof. apply leaves_wf_from, wf_nil. Qed.

Lemma not_depends_self h m : wf h -> (m < length h)%nat -> ~ depends h m m.
Proof. intros W Hm D; apply (depends_lt h m m W Hm) in D; lia. Qed.

Section BinaryBackward.

Context (so : SetOrder).
Variables (h : heap) (a b : ref) (fuel : nat).
Hypothesis h_wf : wf h.
Hypothesis a_in : (a < length h)%nat.
Hypothesis b_in : (b < length h)%nat.
Hypothesis enough : (length h < fuel)%nat.

Lemma binary_no_raise v c :
  operands c = [a; b] -> closure_safe h c ->
  no_raise h a -> no_raise h b ->
  no_raise (h ++ [mkScalar v 0 c (iter_of so [a; b])]) (length h).
Proof.
  intros Hc S Na Nb; apply new_root_no_raise; auto.
  - intros x [<-|[<-|[]]]; auto.
  - rewrite Hc; tauto.
  - intros x [<-|[<-|[]]]; auto.
Qed.

(** [root = a + b; root.backward()] *)
Lemma backward_add_node :
  let sum := Scalar_add so h a (Node b) in
  value (deref (fst sum) (snd sum)) = value (deref h a) + value (deref h b) /\
  exists called hf r,
    backward fuel (fst sum) (snd sum) = Some (hf, r) /\
    increments (set_grad (fst sum) (snd sum) 1) (snd sum) = [(a, 1); (b, 1)] /\
    hf = run_all called
           (add_grad (add_grad (set_grad (fst sum) (snd sum) 1) a 1) b 1) /\
    (no_raise h a -> no_raise h b -> r = Ok tt) /\
    (~ depends h b a ->
     grad (deref hf a) =
     grad (deref h a) + 1 + (if Nat.eqb b a then 1 else 0)) /\
    (~ depends h a b ->
     grad (deref hf b) =
     grad (deref h b) + (if Nat.eqb a b then 1 else 0) + 1).
Proof.
  intros sum; subst sum; rewrite Scalar_add_node; simpl fst; simpl snd.
  set (s := mkScalar (value (deref h a) + value (deref h b)) 0 (AddBackward a b)
              (iter_of so [a; b])).
  assert (W1 : wf (h ++ [s])) by (apply binary_root_wf; auto).
  assert (L1 : length (h ++ [s]) = S (length h)) by (rewrite length_app; simpl; lia).
  rewrite deref_app_new; split; [reflexivity|].
  destruct (backward_root (h ++ [s]) fuel (length h) W1)
    as (l & called & r & E & _ & _ & _ & _ & Hc & _ & _ & NR); try lia.
  unfold heap_after in E; rewrite (local_backward_seeded_add _ _ a b) in E
    by (rewrite ?deref_app_new; simpl; auto; lia).
  simpl fst in E.
  exists called; eexists; exists r; split; [exact E|].
  split; [apply increments_seeded_add; rewrite ?deref_app_new; simpl; auto; lia|].
  split; [reflexivity|].
  split; [intros Na Nb; apply NR, binary_no_raise; simpl; auto|].
  assert (SG : same_graph (h ++ [s])
                 (add_grad (add_grad (set_grad (h ++ [s]) (length h) 1) a 1) b 1)).
  { eapply same_graph_trans; [apply set_grad_same_graph|].
    eapply same_graph_trans; apply add_grad_same_graph. }
  split; intros Hd.
  - rewrite (binary_root_grad_kept so h a b _ (AddBackward a b) h_wf a_in b_in
               eq_refl called _ a SG Hc a_in).
    + rewrite grad_two_increments by auto; rewrite Nat.eqb_refl; reflexivity.
    + intros o [->| ->]; auto using not_depends_self.
  - rewrite (binary_root_grad_kept so h a b _ (AddBackward a b) h_wf a_in b_in
               eq_refl called _ b SG Hc b_in).
    + rewrite grad_two_increments by auto; rewrite Nat.eqb_refl; reflexivity.
    + intros o [->| ->]; auto using not_depends_self.
Qed.

(** [root = a * b; root.backward()] *)
Lemma backward_mul_node :
  let prod := Scalar_mul so h a (Node b) in
  value (deref (fst prod) (snd prod)) = value (deref h a) * value (deref h b) /\
  exists called hf r,
    backward fuel (fst prod) (snd prod) = Some (hf, r) /\
    increments (set_grad (fst prod) (snd prod) 1) (snd prod) =
      [(a, value (deref h b) * 1); (b, value (deref h a) * 1)] /\
    hf = run_all called
           (add_grad
              (add_grad (set_grad (fst prod) (snd prod) 1) a
                 (value (deref h b) * 1))
              b (value (deref h a) * 1)) /\
    (no_raise h a -> no_raise h b -> r = Ok tt) /\
    (~ depends h b a ->
     grad (deref hf a) =
     grad (deref h a) + value (deref h b) * 1
     + (if Nat.eqb b a then value (deref h a) * 1 else 0)) /\
    (~ depends h a b ->
     grad (deref hf b) =
     grad (deref h b) + (if Nat.eqb a b then value (deref h b) * 1 else 0)
     + value (deref h a) * 1).
Proof.
  intros prod; subst prod; rewrite Scalar_mul_node; simpl fst; simpl snd.
  set (s := mkScalar (value (deref h a) * value (deref h b)) 0 (MulBackward a b)
              (iter_of so [a; b])).
  assert (W1 : wf (h ++ [s])) by (apply binary_root_wf; auto).
  assert (L1 : length (h ++ [s]) = S (length h)) by (rewrite length_app; simpl; lia).
  rewrite deref_app_new; split; [reflexivity|].
  destruct (backward_root (h ++ [s]) fuel (length h) W1)
    as (l & called & r & E & _ & _ & _ & _ & Hc & _ & _ & NR); try lia.
  unfold heap_after in E; rewrite (local_backward_seeded_mul _ _ a b) in E
    by (rewrite ?deref_app_new; simpl; auto; lia).
  simpl fst in E; rewrite !deref_app_old in E by auto.
  exists called; eexists; exists r; split; [exact E|].
  split.
  { rewrite (increments_seeded_mul _ _ a b)
      by (rewrite ?deref_app_new; simpl; auto; lia).
    rewrite !deref_app_old by auto; reflexivity. }
  split; [reflexivity|].
  split; [intros Na Nb; apply NR, binary_no_raise; simpl; auto|].
  assert (SG : same_graph (h ++ [s])
                 (add_grad
                    (add_grad (set_grad (h ++ [s]) (length h) 1) a
                       (value (deref h b) * 1))
                    b (value (deref h a) * 1))).
  { eapply same_graph_trans; [apply set_grad_same_graph|].
    eapply same_graph_trans; apply add_grad_same_graph. }
  split; intros Hd.
  - rewrite (binary_root_grad_kept so h a b _ (MulBackward a b) h_wf a_in b_in
               eq_refl called _ a SG Hc a_in).
    + rewrite grad_two_increments by auto; rewrite Nat.eqb_refl; reflexivity.
    + intros o [->| ->]; auto using not_depends_self.
  - rewrite (binary_root_grad_kept so h a b _ (MulBackward a b) h_wf a_in b_in
               eq_refl called _ b SG Hc b_in).
    + rewrite grad_two_increments by auto; rewrite Nat.eqb_refl; reflexivity.
    + intros o [->| ->]; auto using not_depends_self.
Qed.

End BinaryBackward.

Lemma leaves_no_raise vs n : no_raise (leaves vs) n.
Proof.
  assert (L : forall ws h m,
             (forall k, _backward (deref h k) = NoOp /\ _ancestors (deref h k) = []) ->
             _backward
               (deref (fold_left (fun h' v => fst (Scalar_init insertion_order h' v []))
                         ws h) m) = NoOp /\
             _ancestors
               (deref (fold_left (fun h' v => fst (Scalar_init insertion_order h' v []))
                         ws h) m) = []).
  { induction ws as [|w ws IH]; intros h m Hh; simpl; [apply Hh|].
    apply IH; intros k.
    destruct (Nat.lt_ge_cases k (length h)) as [Hk|Hk].
    - rewrite deref_app_old by exact Hk; apply Hh.
    - destruct (Nat.eq_dec k (length h)) as [->|Hne].
      + rewrite deref_app_new; simpl; auto.
      + rewrite deref_out_of_range by (rewrite length_app; simpl; lia); auto. }
  apply leaf_no_raise; apply L; intros k; destruct k; simpl; auto.
Qed.

(** C1, as the code has it.  For nodes [a] and [b] of a well-formed heap,
    [root = a + b] has value [a.value + b.value] and [root = a * b] has
    value [a.value * b.value].  [root.backward()] first runs the rule of
    the root with [root.grad = 1]: it adds [root.grad] to [a.grad] and to
    [b.grad] (for the product: [b.value * root.grad] to [a.grad] and
    [a.value * root.grad] to [b.grad]); then it runs the rules of the nodes
    below, and returns unless one of those raises.  Whether it returns or
    not, an operand that is not a proper ancestor of the other operand ends
    with the gradient it had before plus exactly the additions of the root,
    one for each of its occurrences as an operand: the partial derivatives
    of the sum, resp. the product.  (An operand that is an ancestor of the
    other one also receives what the rules between them pass down.) *)
Theorem add_mul_backward (so : SetOrder) (h : heap) (a b : ref) (fuel : nat) :
  wf h -> (a < length h)%nat -> (b < length h)%nat -> (length h < fuel)%nat ->
  let sum := Scalar_add so h a (Node b) in
  let prod := Scalar_mul so h a (Node b) in
  (value (deref (fst sum) (snd sum)) = value (deref h a) + value (deref h b) /\
   exists called hf r,
     backward fuel (fst sum) (snd sum) = Some (hf, r) /\
     increments (set_grad (fst sum) (snd sum) 1) (snd sum) = [(a, 1); (b, 1)] /\
     hf = run_all called
            (add_grad (add_grad (set_grad (fst sum) (snd sum) 1) a 1) b 1) /\
     (no_raise h a -> no_raise h b -> r = Ok tt) /\
     (~ depends h b a ->
      grad (deref hf a) =
      grad (deref h a) + 1 + (if Nat.eqb b a then 1 else 0)) /\
     (~ depends h a b ->
      grad (deref hf b) =
      grad (deref h b) + (if Nat.eqb a b then 1 else 0) + 1)) /\
  (value (deref (fst prod) (snd prod)) = value (deref h a) * value (deref h b) /\
   exists called hf r,
     backward fuel (fst prod) (snd prod) = Some (hf, r) /\
     increments (set_grad (fst prod) (snd prod) 1) (snd prod) =
       [(a, value (deref h b) * 1); (b, value (deref h a) * 1)] /\
     hf = run_all called
            (add_grad
               (add_grad (set_grad (fst prod) (snd prod) 1) a
                  (value (deref h b) * 1))
               b (value (deref h a) * 1)) /\
     (no_raise h a -> no_raise h b -> r = Ok tt) /\
     (~ depends h b a ->
      grad (deref hf a) =
      grad (deref h a) + value (deref h b) * 1
      + (if Nat.eqb b a then value (deref h a) * 1 else 0)) /\
     (~ depends h a b ->
      grad (deref hf b) =
      grad (deref h b) + (if Nat.eqb a b then value (deref h b) * 1 else 0)
      + value (deref h a) * 1)).
Proof.
  intros W Ha Hb Hf; split.
  - apply backward_add_node; assumption.
  - apply backward_mul_node; assumption.
Qed.

Lemma add_mul_backward_witness :
  wf two_leaves /\
  (0 < length two_leaves)%nat /\ (1 < length two_leaves)%nat /\
  (length two_leaves < 3)%nat /\
  exists hf,
    backward 3 (fst (Scalar_mul insertion_order two_leaves 0 (Node 1)))
      (snd (Scalar_mul insertion_order two_leaves 0 (Node 1))) = Some (hf, Ok tt) /\
    grad (deref hf 0) = 0 + 3 * 1 + 0 /\
    grad (deref hf 1) = 0 + 0 + 2 * 1.
Proof.
  assert (W : wf two_leaves) by apply leaves_wf.
  assert (A : (0 < length two_leaves)%nat) by (simpl; lia).
  assert (B : (1 < length two_leaves)%nat) by (simpl; lia).
  assert (F : (length two_leaves < 3)%nat) by (simpl; lia).
  repeat (split; [assumption|]).
  destruct (add_mul_backward insertion_order two_leaves 0 1 3 W A B F)
    as (_ & _ & called & hf & r & E & _ & _ & R & Ga & Gb).
  exists hf; rewrite <- (R (leaves_no_raise _ 0) (leaves_no_raise _ 1)).
  split; [exact E|split].
  - apply Ga, leaf_not_depends; reflexivity.
  - apply Gb, leaf_not_depends; reflexivity.
Defined.

(** C1, as it is written, fails: [a = Scalar(2); b = a * a; root = a + b].
    After [root.backward()], which returns, [a.grad] is 5, the derivative
    of [a + a * a] in [a], and not 1, the partial derivative of the sum
    [a + b] in its first operand. *)
Lemma add_mul_backward_counterexample :
  exists hf,
    backward 3 (fst dependent_sum) (snd dependent_sum) = Some (hf, Ok tt) /\
    grad (deref hf 0) = 5 /\
    grad (deref hf 0) <> grad (deref (fst dependent_sum) 0) + 1.
Proof.
  eexists; split; [vm_compute; reflexivity|].
  simpl; split; lra.
Qed.

Lemma iter_of_twice so x : iter_of so [x; x] = [x].
Proof.
  pose proof (iter_perm so [x; x]) as P; simpl in P.
  destruct (Nat.eq_dec x x) as [_|N]; [|congruence].
  apply Permutation_sym, Permutation_length_1_inv in P; exact P.
Qed.

(** C4.  For a node [x] of a well-formed heap whose [grad] is 0,
    [y = x + x] records [x] once in its ancestor set.  [y.backward()] runs
    the rule of [y], then the rules of [x] and of the nodes below it, and
    returns unless one of these raises; whether it returns or not, [x.grad]
    is 2 in the heap it leaves: the sum of the two additions of
    [y.grad = 1], one for each use of [x]. *)
Theorem grad_accumulates (so : SetOrder) (h : heap) (x : ref) (fuel : nat) :
  wf h -> (x < length h)%nat -> (length h < fuel)%nat ->
  grad (deref h x) = 0 ->
  let y := Scalar_add so h x (Node x) in
  _ancestors (deref (fst y) (snd y)) = [x] /\
  exists hf r,
    backward fuel (fst y) (snd y) = Some (hf, r) /\
    grad (deref hf x) = 2 /\
    (no_raise h x -> r = Ok tt).
Proof.
  intros W Hx Hf G y.
  destruct (backward_add_node so h x x fuel W Hx Hx Hf)
    as (_ & called & hf & r & E & _ & _ & NR & Ga & _).
  split.
  - subst y; rewrite Scalar_add_node; simpl; rewrite deref_app_new; simpl.
    apply iter_of_twice.
  - exists hf, r; split; [exact E|split; [|auto]].
    rewrite Ga by (apply not_depends_self; auto).
    rewrite G, Nat.eqb_refl; lra.
Qed.

Lemma grad_accumulates_witness :
  wf two_leaves /\ (0 < length two_leaves)%nat /\ (length two_leaves < 3)%nat /\
  grad (deref two_leaves 0) = 0 /\
  exists hf,
    backward 3 (fst (Scalar_add insertion_order two_leaves 0 (Node 0)))
      (snd (Scalar_add insertion_order two_leaves 0 (Node 0))) = Some (hf, Ok tt) /\
    grad (deref hf 0) = 2.
Proof.
  assert (W : wf two_leaves) by apply leaves_wf.
  assert (A : (0 < length two_leaves)%nat) by (simpl; lia).
  assert (F : (length two_leaves < 3)%nat) by (simpl; lia).
  assert (G : grad (deref two_leaves 0) = 0) by reflexivity.
  repeat (split; [assumption|]).
  destruct (grad_accumulates insertion_order two_leaves 0 3 W A F G)
    as (_ & hf & r & E & Gx & R).
  exists hf; rewrite <- (R (leaves_no_raise _ 0)); auto.
Defined.

(** C7.  On a well-formed heap, [backward] writes 1 into the root's [grad]
    and leaves every other [grad] as it was; everything it does afterwards,
    until it returns or a rule raises, is a list of additions
    [target.grad += amount] made by the rules of nodes reachable from the
    root.  In the heap it leaves, every node other than the root has the
    gradient it held when [backward] started plus the amounts added to it,
    and the root, to which nothing is added, has 1. *)
Theorem backward_only_adds (h : heap) (root : ref) (fuel : nat) :
  wf h -> (root < length h)%nat -> (root < fuel)%nat ->
  exists order hf r,
    backward fuel h root = Some (hf, r) /\
    grad (deref (set_grad h root 1) root) = 1 /\
    (forall m, m <> root ->
       grad (deref (set_grad h root 1) m) = grad (deref h m)) /\
    (forall n, In n order -> reachable h root n) /\
    hf = apply_increments (trace order (set_grad h root 1)) (set_grad h root 1) /\
    (forall m, m <> root ->
       grad (deref hf m) =
       grad (deref h m) + received m (trace order (set_grad h root 1))) /\
    grad (deref hf root) = 1.
Proof.
  intros W Hr Hf.
  destruct (backward_root h fuel root W Hr Hf)
    as (l & called & r & E & _ & _ & _ & _ & Hc & _).
  pose proof (same_graph_wf _ _ (set_grad_same_graph h root 1) W) as Ws.
  exists (root :: called), (run_all (root :: called) (set_grad h root 1)), r.
  split; [exact E|].
  split; [apply seeded_grad; exact Hr|].
  split; [intros m Hm; apply grad_set_grad_other; exact Hm|].
  split; [intros n [<-|Hn]; [apply reach_refl|apply Hc, Hn]|].
  split; [apply run_all_trace; exact Ws|].
  split.
  - intros m Hm; rewrite grad_run_all by exact Ws.
    rewrite grad_set_grad_other by exact Hm; reflexivity.
  - rewrite grad_run_all by exact Ws.
    rewrite seeded_grad by exact Hr.
    rewrite received_none; [lra|].
    intros e He Ee.
    destruct (trace_targets _ _ e Ws He) as (n & Hn & Ha & Hlt & _).
    assert (Hle : (n <= root)%nat).
    { destruct Hn as [<-|Hn]; [lia|].
      apply (reachable_le h W root n Hr), Hc, Hn. }
    lia.
Qed.

Lemma stale_product_wf : wf (fst stale_product).
Proof.
  unfold stale_product; rewrite Scalar_mul_node; cbv beta iota delta [fst].
  apply binary_root_wf; try (simpl; lia); [|reflexivity].
  apply (same_graph_wf two_leaves); [apply set_grad_same_graph|apply leaves_wf].
Qed.

(** The witness: [a = Scalar(2)] with a gradient of 7 left over,
    [b = Scalar(3)], [root = a * b]. *)
Lemma backward_only_adds_witness :
  wf (fst stale_product) /\
  (snd stale_product < length (fst stale_product))%nat /\
  (snd stale_product < 3)%nat /\
  exists order hf r,
    backward 3 (fst stale_product) (snd stale_product) = Some (hf, r) /\
    grad (deref hf 0) =
      7 + received 0 (trace order (set_grad (fst stale_product) 2 1)) /\
    grad (deref hf 1) =
      0 + received 1 (trace order (set_grad (fst stale_product) 2 1)) /\
    grad (deref hf 2) = 1.
Proof.
  assert (W : wf (fst stale_product)) by apply stale_product_wf.
  assert (A : (snd stale_product < length (fst stale_product))%nat) by (simpl; lia).
  assert (F : (snd stale_product < 3)%nat) by (simpl; lia).
  repeat (split; [assumption|]).
  destruct (backward_only_adds (fst stale_product) (snd stale_product) 3 W A F)
    as (order & hf & r & E & _ & _ & _ & _ & G & Gr).
  exists order, hf, r; split; [exact E|].
  split; [exact (G 0%nat ltac:(simpl; lia))|].
  split; [exact (G 1%nat ltac:(simpl; lia))|exact Gr].
Defined.

(** On that heap [backward] returns, and the stale 7 is still in [a.grad],
    which ends as [7 + 3]. *)
Example stale_gradient_scenario :
  exists hf,
    backward 3 (fst stale_product) (snd stale_product) = Some (hf, Ok tt) /\
    grad (deref hf 0) = 10 /\ grad (deref hf 1) = 2 /\ grad (deref hf 2) = 1.
Proof.
  eexists; split; [vm_compute; reflexivity|].
  simpl; repeat split; lra.
Qed.

(** ** Contributions of single closures *)

Lemma run_all_app p q s :
  run_all (p ++ q) s = run_all q (run_all p s).
Proof. apply fold_left_app. Qed.





(** ** The diamond [d = (a * b) + (a * c)] *)

Section Diamond.

Context (so : SetOrder).
Variables (h : heap) (a b c : ref).
Hypothesis h_wf : wf h.
Hypothesis a_in : (a < length h)%nat.
Hypothesis b_in : (b < length h)%nat.
Hypothesis c_in : (c < length h)%nat.

Let va : R := value (deref h a).
Let vb : R := value (deref h b).
Let vc : R := value (deref h c).
Let m1 : nat := length h.
Let m2 : nat := S (length h).
Let d : nat := S (S (length h)).
Let n1 : Scalar := mkScalar (va * vb) 0 (MulBackward a b) (iter_of so [a; b]).
Let n2 : Scalar := mkScalar (va * vc) 0 (MulBackward a c) (iter_of so [a; c]).
Let n3 : Scalar :=
  mkScalar (va * vb + va * vc) 0 (AddBackward m1 m2) (iter_of so [m1; m2]).
Let H : heap := ((h ++ [n1]) ++ [n2]) ++ [n3].










Hypothesis a_not_b : a <> b.
Hypothesis a_not_c : a <> c.
Hypothesis b_indep : ~ depends h b a.
Hypothesis c_indep : ~ depends h c a.






End Diamond.




Lemma sqrt_zero_built :
  Scalar_pow insertion_order zero_leaf 0 (5 / 10) = Ok (sqrt_zero, 1%nat).
Proof.
  rewrite (Scalar_pow_node insertion_order zero_leaf 0 (5 / 10) 0); [reflexivity|].
  apply py_pow_zero_positive; lra.
Qed.



(** ** Operators *)

Lemma iter_of_nil so : iter_of so [] = [].
Proof.
  pose proof (iter_perm so []) as P; simpl in P.
  apply Permutation_sym, Permutation_nil in P; exact P.
Qed.

Lemma Scalar_add_num so h x c :
  Scalar_add so h x (Num c) =
  Scalar_add so (fst (Scalar_init so h c [])) x (Node (length h)).
Proof. reflexivity. Qed.

Lemma Scalar_mul_num so h x c :
  Scalar_mul so h x (Num c) =
  Scalar_mul so (fst (Scalar_init so h c [])) x (Node (length h)).
Proof. reflexivity. Qed.

Section Promotion.

Context (so : SetOrder).
Variables (h : heap) (x : ref) (c : R) (fuel : nat).
Hypothesis h_wf : wf h.
Hypothesis x_in : (x < length h)%nat.
Hypothesis enough : (S (length h) < fuel)%nat.

Let h1 : heap := fst (Scalar_init so h c []).

Lemma promoted_length : length h1 = S (length h).
Proof. unfold h1; simpl; rewrite length_app; simpl; lia. Qed.

Lemma promoted_constant :
  value (deref h1 (length h)) = c /\ ~ depends h1 (length h) x.
Proof.
  unfold h1; simpl; rewrite deref_app_new; split; [reflexivity|].
  apply leaf_not_depends; rewrite deref_app_new; simpl; apply iter_of_nil.
Qed.

Lemma promoted_old : deref h1 x = deref h x.
Proof. unfold h1; simpl; apply deref_app_old; exact x_in. Qed.

Lemma promoted_no_raise :
  no_raise h1 (length h) /\ (no_raise h x -> no_raise h1 x).
Proof.
  split.
  - apply leaf_no_raise; unfold h1; simpl; rewrite deref_app_new; simpl; auto.
    apply iter_of_nil.
  - intros NR; unfold h1; simpl; apply no_raise_app_old; auto.
    apply (wf_leaf so h c h_wf).
Qed.

(** [root = x + c; root.backward()] for a number [c]. *)
Lemma backward_add_num :
  let sum := Scalar_add so h x (Num c) in
  value (deref (fst sum) (snd sum)) = value (deref h x) + c /\
  exists hf r,
    backward fuel (fst sum) (snd sum) = Some (hf, r) /\
    grad (deref hf x) = grad (deref h x) + 1 /\
    (no_raise h x -> r = Ok tt).
Proof.
  intros sum; subst sum; rewrite Scalar_add_num; fold h1.
  destruct (backward_add_node so h1 x (length h) fuel)
    as (V & called & hf & r & E & _ & _ & NR & G & _).
  - apply wf_leaf; exact h_wf.
  - rewrite promoted_length; lia.
  - rewrite promoted_length; lia.
  - rewrite promoted_length; exact enough.
  - rewrite promoted_old, (proj1 promoted_constant) in V.
    split; [exact V|exists hf, r; split; [exact E|split]].
    + rewrite G by apply promoted_constant.
      rewrite promoted_old.
      destruct (Nat.eqb_spec (length h) x); [lia|lra].
    + intros Nx; apply NR; apply promoted_no_raise; exact Nx.
Qed.

(** [root = x * c; root.backward()] for a number [c]. *)
Lemma backward_mul_num :
  let prod := Scalar_mul so h x (Num c) in
  value (deref (fst prod) (snd prod)) = value (deref h x) * c /\
  exists hf r,
    backward fuel (fst prod) (snd prod) = Some (hf, r) /\
    grad (deref hf x) = grad (deref h x) + c * 1 /\
    (no_raise h x -> r = Ok tt).
Proof.
  intros prod; subst prod; rewrite Scalar_mul_num; fold h1.
  destruct (backward_mul_node so h1 x (length h) fuel)
    as (V & called & hf & r & E & _ & _ & NR & G & _).
  - apply wf_leaf; exact h_wf.
  - rewrite promoted_length; lia.
  - rewrite promoted_length; lia.
  - rewrite promoted_length; exact enough.
  - rewrite promoted_old, (proj1 promoted_constant) in V.
    split; [exact V|exists hf, r; split; [exact E|split]].
    + rewrite G by apply promoted_constant.
      rewrite promoted_old, (proj1 promoted_constant).
      destruct (Nat.eqb_spec (length h) x); [lia|lra].
    + intros Nx; apply NR; apply promoted_no_raise; exact Nx.
Qed.

End Promotion.

(** C8.  For a node [x] and a number [c], [c + x] and [x + c] are resolved
    to the same call [Scalar.__add__(x, c)], which promotes [c] to a leaf,
    and likewise [c * x] and [x * c] to [Scalar.__mul__(x, c)]: the two
    spellings produce the same heap and the same result node, of value
    [x.value + c], resp. [x.value * c].  [backward()] on that node returns
    unless the rule of [x] or of a node below it raises, and, whether it
    returns or not, [x.grad] has grown by 1, resp. by [c], in the heap it
    leaves. *)
Theorem promotion_symmetric (so : SetOrder) (h : heap) (x : ref) (c : R)
    (fuel : nat) :
  wf h -> (x < length h)%nat -> (S (length h) < fuel)%nat ->
  binary so OpAdd h (Num c) (Node x) = binary so OpAdd h (Node x) (Num c) /\
  binary so OpMul h (Num c) (Node x) = binary so OpMul h (Node x) (Num c) /\
  (exists h' r hf res,
     binary so OpAdd h (Node x) (Num c) = Ok (h', Node r) /\
     value (deref h' r) = value (deref h x) + c /\
     backward fuel h' r = Some (hf, res) /\
     grad (deref hf x) = grad (deref h x) + 1 /\
     (no_raise h x -> res = Ok tt)) /\
  (exists h' r hf res,
     binary so OpMul h (Node x) (Num c) = Ok (h', Node r) /\
     value (deref h' r) = value (deref h x) * c /\
     backward fuel h' r = Some (hf, res) /\
     grad (deref hf x) = grad (deref h x) + c * 1 /\
     (no_raise h x -> res = Ok tt)).
Proof.
  intros W Hx Hf; split; [reflexivity|split; [reflexivity|split]].
  - destruct (backward_add_num so h x c fuel W Hx Hf) as (V & hf & r & E & G & NR).
    exists (fst (Scalar_add so h x (Num c))), (snd (Scalar_add so h x (Num c))), hf, r.
    split; [reflexivity|auto].
  - destruct (backward_mul_num so h x c fuel W Hx Hf) as (V & hf & r & E & G & NR).
    exists (fst (Scalar_mul so h x (Num c))), (snd (Scalar_mul so h x (Num c))), hf, r.
    split; [reflexivity|auto].
Qed.

Lemma promotion_symmetric_witness :
  wf two_leaves /\ (0 < length two_leaves)%nat /\ (S (length two_leaves) < 4)%nat /\
  binary insertion_order OpAdd two_leaves (Num 3) (Node 0) =
  binary insertion_order OpAdd two_leaves (Node 0) (Num 3) /\
  exists h' r hf,
    binary insertion_order OpMul two_leaves (Num 3) (Node 0) = Ok (h', Node r) /\
    value (deref h' r) = 2 * 3 /\
    backward 4 h' r = Some (hf, Ok tt) /\
    grad (deref hf 0) = 0 + 3 * 1.
Proof.
  assert (W : wf two_leaves) by apply leaves_wf.
  assert (A : (0 < length two_leaves)%nat) by (simpl; lia).
  assert (F : (S (length two_leaves) < 4)%nat) by (simpl; lia).
  repeat (split; [assumption|]).
  destruct (promotion_symmetric insertion_order two_leaves 0 3 4 W A F)
    as (Ea & Em & _ & h' & r & hf & res & B & V & E & G & NR).
  split; [exact Ea|].
  exists h', r, hf; rewrite Em, <- (NR (leaves_no_raise _ 0)); auto.
Defined.

(** C3, on the code.  The class defines [__div__] and [__rdiv__], the names
    Python 2 looked up for [/]; Python 3, the language of the module, looks
    up [__truediv__] and [__rtruediv__], which the class does not define:
    [a / b] on two nodes, or on a node and a number in either order, raises
    [TypeError] and produces no node. *)
Theorem true_div_raises (so : SetOrder) (h : heap) (a b : ref) (c : R) :
  binary so OpTrueDiv h (Node a) (Node b) = TypeError /\
  binary so OpTrueDiv h (Node a) (Num c) = TypeError /\
  binary so OpTrueDiv h (Num c) (Node a) = TypeError.
Proof. repeat split. Qed.

(** ** The neuron *)

(** C9.  A neuron whose activation kind is none of ['linear'], ['tanh'],
    ['relu'], ['gelu'] computes its pre-activation and then returns [None]:
    no node, and no exception. *)
Theorem unknown_activation_returns_none (so : SetOrder) (h : heap) (self : Neuron)
    (x : list operand) :
  activation self <> "linear"%string -> activation self <> "tanh"%string ->
  activation self <> "relu"%string -> activation self <> "gelu"%string ->
  Neuron_call so h self x = Ok (fst (Neuron_preactivation so h self x), None).
Proof.
  intros Hl Ht Hr Hg; unfold Neuron_call.
  destruct (Neuron_preactivation so h self x) as [h2 y].
  apply String.eqb_neq in Hl, Ht, Hr, Hg.
  rewrite Hl, Ht, Hr, Hg; reflexivity.
Qed.

Lemma unknown_activation_returns_none_witness :
  activation odd_neuron <> "linear"%string /\
  activation odd_neuron <> "tanh"%string /\
  activation odd_neuron <> "relu"%string /\
  activation odd_neuron <> "gelu"%string /\
  exists h', Neuron_call insertion_order neuron_heap odd_neuron [Num 1] = Ok (h', None).
Proof.
  assert (Hl : activation odd_neuron <> "linear"%string) by discriminate.
  assert (Ht : activation odd_neuron <> "tanh"%string) by discriminate.
  assert (Hr : activation odd_neuron <> "relu"%string) by discriminate.
  assert (Hg : activation odd_neuron <> "gelu"%string) by discriminate.
  repeat (split; [assumption|]).
  eexists.
  exact (unknown_activation_returns_none insertion_order neuron_heap odd_neuron
           [Num 1] Hl Ht Hr Hg).
Defined.

(** ** The values computed by a neuron *)

Lemma operand_ok_app h t o : operand_ok h o -> operand_ok (h ++ t) o.
Proof. destruct o; simpl; auto; rewrite length_app; lia. Qed.

Lemma operand_value_app h t o :
  operand_ok h o -> operand_value (h ++ t) o = operand_value h o.
Proof. destruct o; simpl; auto; intros; rewrite deref_app_old; auto. Qed.

Lemma Scalar_mul_ext so h w x :
  (w < length h)%nat -> operand_ok h x ->
  exists t,
    fst (Scalar_mul so h w x) = h ++ t /\
    (snd (Scalar_mul so h w x) < length (h ++ t))%nat /\
    value (deref (h ++ t) (snd (Scalar_mul so h w x))) =
    value (deref h w) * operand_value h x.
Proof.
  intros Hw Hx; destruct x as [c|r].
  - rewrite Scalar_mul_num, Scalar_mul_node; simpl fst; simpl snd.
    match goal with
    | |- context [(h ++ [?leaf]) ++ [?n]] => exists ([leaf] ++ [n])
    end.
    rewrite !app_assoc; split; [reflexivity|].
    rewrite !deref_app_new, !length_app; simpl; split; [lia|].
    rewrite deref_app_old by exact Hw; reflexivity.
  - rewrite Scalar_mul_node; simpl fst; simpl snd.
    eexists; split; [reflexivity|].
    rewrite deref_app_new, length_app; simpl; split; [lia|reflexivity].
Qed.

Lemma Scalar_add_ext so h a b :
  exists t,
    fst (Scalar_add so h a (Node b)) = h ++ t /\
    (snd (Scalar_add so h a (Node b)) < length (h ++ t))%nat /\
    value (deref (h ++ t) (snd (Scalar_add so h a (Node b)))) =
    value (deref h a) + value (deref h b).
Proof.
  rewrite Scalar_add_node; simpl fst; simpl snd.
  eexists; split; [reflexivity|].
  rewrite deref_app_new, length_app; simpl; split; [lia|reflexivity].
Qed.

Lemma products_spec so pairs : forall h,
  (forall p, In p pairs -> (fst p < length h)%nat /\ operand_ok h (snd p)) ->
  exists t,
    fst (products so h pairs) = h ++ t /\
    Forall (fun p => (p < length (h ++ t))%nat) (snd (products so h pairs)) /\
    map (fun p => value (deref (h ++ t) p)) (snd (products so h pairs)) =
    map (fun p => value (deref h (fst p)) * operand_value h (snd p)) pairs.
Proof.
  induction pairs as [|[w x] rest IH]; intros h Hp; cbn [products map fst snd].
  - exists []; rewrite app_nil_r; auto.
  - destruct (Hp (w, x) (or_introl eq_refl)) as [Hw Hx]; simpl in Hw, Hx.
    destruct (Scalar_mul_ext so h w x Hw Hx) as (t1 & E1 & L1 & V1).
    destruct (Scalar_mul so h w x) as [h1 p]; simpl in E1, L1, V1; subst h1.
    destruct (IH (h ++ t1)) as (t2 & E2 & L2 & V2).
    { intros q Hq; destruct (Hp q (or_intror Hq)) as [A B].
      split; [rewrite length_app; lia|apply operand_ok_app; exact B]. }
    destruct (products so (h ++ t1) rest) as [h2 ps]; simpl in E2, L2, V2; subst h2.
    exists (t1 ++ t2); simpl; rewrite app_assoc; split; [reflexivity|split].
    + constructor; [rewrite length_app; lia|exact L2].
    + f_equal; [rewrite deref_app_old by exact L1; exact V1|].
      rewrite V2; apply map_ext_in; intros q Hq.
      destruct (Hp q (or_intror Hq)) as [A B].
      rewrite deref_app_old, operand_value_app; auto.
Qed.

Lemma py_sum_spec so items : forall h start,
  (start < length h)%nat -> Forall (fun p => (p < length h)%nat) items ->
  exists t,
    fst (py_sum so h items start) = h ++ t /\
    (snd (py_sum so h items start) < length (h ++ t))%nat /\
    value (deref (h ++ t) (snd (py_sum so h items start))) =
    fold_left Rplus (map (fun p => value (deref h p)) items) (value (deref h start)).
Proof.
  induction items as [|p rest IH]; intros h start Hs Hi; cbn [py_sum map fold_left].
  - exists []; rewrite app_nil_r; auto.
  - inversion Hi as [|? ? Hp Hrest]; subst.
    destruct (Scalar_add_ext so h start p) as (t1 & E1 & L1 & V1).
    destruct (Scalar_add so h start (Node p)) as [h1 acc]; simpl in E1, L1, V1; subst h1.
    destruct (IH (h ++ t1) acc L1) as (t2 & E2 & L2 & V2).
    { eapply Forall_impl; [|exact Hrest]; simpl; intros; rewrite length_app; lia. }
    exists (t1 ++ t2); rewrite app_assoc; split; [exact E2|split; [exact L2|]].
    rewrite V2, V1; f_equal.
    apply map_ext_in; intros q Hq; rewrite Forall_forall in Hrest.
    rewrite deref_app_old; auto.
Qed.

Lemma weighted_sum_fold h start pairs :
  weighted_sum h start pairs =
  fold_left Rplus
    (map (fun p => value (deref h (fst p)) * operand_value h (snd p)) pairs) start.
Proof.
  unfold weighted_sum; revert start; induction pairs as [|p t IH]; intros s; simpl; auto.
Qed.

Lemma Neuron_preactivation_value so h self x :
  (bias self < length h)%nat ->
  (forall p, In p (combine (weights self) x) ->
     (fst p < length h)%nat /\ operand_ok h (snd p)) ->
  value (deref (fst (Neuron_preactivation so h self x))
           (snd (Neuron_preactivation so h self x))) =
  weighted_sum h (value (deref h (bias self))) (combine (weights self) x).
Proof.
  intros Hb Hp; unfold Neuron_preactivation.
  destruct (products_spec so _ h Hp) as (t1 & E1 & L1 & V1).
  destruct (products so h (combine (weights self) x)) as [h1 ps].
  simpl in E1, L1, V1; subst h1.
  destruct (py_sum_spec so ps (h ++ t1) (bias self)) as (t2 & E2 & L2 & V2); auto.
  { rewrite length_app; lia. }
  rewrite E2, V2, V1, deref_app_old by exact Hb.
  symmetry; apply weighted_sum_fold.
Qed.

Lemma combine_truncates (A B : Type) (l : list A) (l' : list B) :
  combine l l' =
  combine (firstn (Nat.min (length l) (length l')) l)
          (firstn (Nat.min (length l) (length l')) l').
Proof.
  rewrite <- combine_firstn, <- length_combine; symmetry; apply firstn_all.
Qed.

(** What a neuron returns: its activation applied to its pre-activation,
    for each of the four kinds. *)
Lemma Neuron_call_spec so h self x :
  (bias self < length h)%nat ->
  (forall p, In p (combine (weights self) x) ->
     (fst p < length h)%nat /\ operand_ok h (snd p)) ->
  let s := weighted_sum h (value (deref h (bias self))) (combine (weights self) x) in
  (activation self = "linear"%string ->
   exists h' y,
     Neuron_call so h self x = Ok (h', Some y) /\ value (deref h' y) = s) /\
  (activation self = "relu"%string ->
   exists h' y,
     Neuron_call so h self x = Ok (h', Some y) /\
     value (deref h' y) = if py_lt s 0 then 0 else s) /\
  (activation self = "tanh"%string ->
   (exp (2 * s) <= float_max ->
    exists h' y,
      Neuron_call so h self x = Ok (h', Some y) /\
      value (deref h' y) = (exp (2 * s) - 1) / (exp (2 * s) + 1)) /\
   (float_max < exp (2 * s) -> Neuron_call so h self x = OverflowError)) /\
  (activation self = "gelu"%string ->
   (exp (2 * gelu_inner s) <= float_max ->
    exists h' y,
      Neuron_call so h self x = Ok (h', Some y) /\
      value (deref h' y) =
        5 / 10 * s
        * (1 + (exp (2 * gelu_inner s) - 1) / (exp (2 * gelu_inner s) + 1))) /\
   (float_max < exp (2 * gelu_inner s) ->
    Neuron_call so h self x = OverflowError)).
Proof.
  intros Hb Hp s.
  pose proof (Neuron_preactivation_value so h self x Hb Hp) as V; fold s in V.
  unfold Neuron_call.
  destruct (Neuron_preactivation so h self x) as [h2 y]; simpl in V.
  split; [|split; [|split]]; intros ->; cbn [String.eqb Ascii.eqb Bool.eqb].
  - exists h2, y; auto.
  - rewrite Scalar_relu_node; eexists; eexists; split; [reflexivity|].
    rewrite deref_app_new; simpl; rewrite V; reflexivity.
  - split; intros He.
    + rewrite Scalar_tanh_node by (rewrite V; exact He); simpl.
      eexists; eexists; split; [reflexivity|].
      rewrite deref_app_new; simpl; rewrite V; reflexivity.
    + rewrite Scalar_tanh_overflow by (rewrite V; exact He); reflexivity.
  - split; intros He.
    + rewrite Scalar_gelu_node by (rewrite V; exact He); simpl.
      eexists; eexists; split; [reflexivity|].
      rewrite deref_app_new; simpl; rewrite V; reflexivity.
    + rewrite Scalar_gelu_overflow by (rewrite V; exact He); reflexivity.
Qed.

(** C10, as the code has it.  A neuron called on an input whose length
    differs from the number of its weights does what it does on the first
    [min(len(weights), len(x))] weights and inputs: [zip] drops the surplus,
    and the length never makes it raise.  For weights, bias and node inputs
    of the heap, the pre-activation [s] is the bias plus the products of
    these first pairs, summed from the left; a ['linear'] neuron returns a
    node of value [s] and a ['relu'] neuron one of value [max(0, s)]; a
    ['tanh'] or ['gelu'] neuron returns a node with the value of its
    activation at [s] when the exponential the activation computes is a
    float, and raises [OverflowError] otherwise. *)
Theorem neuron_length_mismatch (so : SetOrder) (h : heap) (self : Neuron)
    (x : list operand) :
  (bias self < length h)%nat ->
  (forall p, In p (combine (weights self) x) ->
     (fst p < length h)%nat /\ operand_ok h (snd p)) ->
  let m := Nat.min (length (weights self)) (length x) in
  let used := mkNeuron (firstn m (weights self)) (bias self) (activation self) in
  let s := weighted_sum h (value (deref h (bias self)))
             (combine (firstn m (weights self)) (firstn m x)) in
  Neuron_call so h self x = Neuron_call so h used (firstn m x) /\
  (activation self = "linear"%string ->
   exists h' y,
     Neuron_call so h self x = Ok (h', Some y) /\ value (deref h' y) = s) /\
  (activation self = "relu"%string ->
   exists h' y,
     Neuron_call so h self x = Ok (h', Some y) /\
     value (deref h' y) = if py_lt s 0 then 0 else s) /\
  (activation self = "tanh"%string ->
   (exp (2 * s) <= float_max ->
    exists h' y,
      Neuron_call so h self x = Ok (h', Some y) /\
      value (deref h' y) = (exp (2 * s) - 1) / (exp (2 * s) + 1)) /\
   (float_max < exp (2 * s) -> Neuron_call so h self x = OverflowError)) /\
  (activation self = "gelu"%string ->
   (exp (2 * gelu_inner s) <= float_max ->
    exists h' y,
      Neuron_call so h self x = Ok (h', Some y) /\
      value (deref h' y) =
        5 / 10 * s
        * (1 + (exp (2 * gelu_inner s) - 1) / (exp (2 * gelu_inner s) + 1))) /\
   (float_max < exp (2 * gelu_inner s) ->
    Neuron_call so h self x = OverflowError)).
Proof.
  intros Hb Hp m used s; split.
  - unfold Neuron_call, Neuron_preactivation, used.
    simpl weights; simpl bias; simpl activation.
    unfold m; rewrite <- combine_truncates; reflexivity.
  - subst s m; rewrite <- combine_truncates.
    apply Neuron_call_spec; assumption.
Qed.

(** The witness: two weights and one input. *)
Lemma neuron_length_mismatch_witness :
  (bias linear_neuron < length linear_heap)%nat /\
  (forall p, In p (combine (weights linear_neuron) [Num 1]) ->
     (fst p < length linear_heap)%nat /\ operand_ok linear_heap (snd p)) /\
  exists h' y,
    Neuron_call insertion_order linear_heap linear_neuron [Num 1] = Ok (h', Some y) /\
    value (deref h' y) = 0 + 5 / 10 * 1.
Proof.
  assert (B : (bias linear_neuron < length linear_heap)%nat) by (simpl; lia).
  assert (P : forall p, In p (combine (weights linear_neuron) [Num 1]) ->
              (fst p < length linear_heap)%nat /\ operand_ok linear_heap (snd p)).
  { intros p [<-|[]]; simpl; split; [lia|exact I]. }
  repeat (split; [assumption|]).
  exact (proj1 (proj2 (neuron_length_mismatch insertion_order linear_heap
                         linear_neuron [Num 1] B P)) eq_refl).
Defined.

(** C10, as it is written, fails: the neuron with the single weight
    [Scalar(0.5)], bias [Scalar(0)] and the default activation ['gelu'],
    called on the two inputs [[200, 7]], raises [OverflowError]: its
    pre-activation is 100, and [math.exp] overflows in [gelu]. *)
Lemma neuron_length_mismatch_counterexample :
  length (weights gelu_neuron) <> length [Num 200; Num 7] /\
  Neuron_call insertion_order neuron_heap gelu_neuron [Num 200; Num 7] =
  OverflowError.
Proof.
  split; [simpl; lia|].
  assert (B : (bias gelu_neuron < length neuron_heap)%nat) by (simpl; lia).
  assert (P : forall p, In p (combine (weights gelu_neuron) [Num 200; Num 7]) ->
              (fst p < length neuron_heap)%nat /\ operand_ok neuron_heap (snd p)).
  { intros p [<-|[]]; simpl; split; [lia|exact I]. }
  apply (Neuron_call_spec insertion_order neuron_heap gelu_neuron _ B P); [reflexivity|].
  apply exp_overflows.
  change (weighted_sum neuron_heap (value (deref neuron_heap (bias gelu_neuron)))
            (combine (weights gelu_neuron) [Num 200; Num 7]))
    with (0 + 5 / 10 * 200).
  unfold gelu_inner; pose proof sqrt_2_PI_bounds; nra.
Qed.

(** ** [backward] on the result of a unary operation *)

(** When the closure of the root does not return, [backward] has only
    seeded the root. *)
Lemma backward_root_raises h fuel root :
  wf h -> (root < length h)%nat -> (root < fuel)%nat ->
  ~ safe h root ->
  backward fuel h root =
  Some (set_grad h root 1, snd (local_backward (set_grad h root 1) root)) /\
  snd (local_backward (set_grad h root 1) root) <> Ok tt.
Proof.
  intros W Hr Hf NS.
  assert (NS' : snd (local_backward (set_grad h root 1) root) <> Ok tt).
  { intros S; apply NS.
    apply (safe_same_graph (set_grad h root 1)); [|exact S].
    destruct (set_grad_same_graph h root 1) as [L G]; split; [lia|].
    intros m; destruct (G m) as (?&?&?); repeat split; congruence. }
  split; [|exact NS'].
  destruct (dfs_root h fuel root W Hr Hf) as (vis & l & E & _).
  unfold backward; rewrite E; simpl snd; rewrite rev_app_distr; simpl.
  pose proof (raise_keeps_heap _ _ NS') as K; unfold heap_after in K.
  destruct (local_backward (set_grad h root 1) root) as [h1 r]; simpl in *.
  subst h1; destruct r as [[]| | | |]; try reflexivity; congruence.
Qed.

Section UnaryRoot.

Context (so : SetOrder).
Variables (h : heap) (a : ref) (v : R) (c : closure) (fuel : nat).
Hypothesis h_wf : wf h.
Hypothesis a_in : (a < length h)%nat.
Hypothesis enough : (length h < fuel)%nat.
Hypothesis c_ops : operands c = [a].

Let s : Scalar := mkScalar v 0 c (iter_of so [a]).

Lemma unary_root_wf : wf (h ++ [s]).
Proof. apply wf_unary; auto. Qed.

Lemma unary_no_raise :
  closure_safe h c -> no_raise h a -> no_raise (h ++ [s]) (length h).
Proof.
  intros S Na; apply new_root_no_raise; auto.
  - intros x [<-|[]]; auto.
  - rewrite c_ops; tauto.
  - intros x [<-|[]]; auto.
Qed.

Lemma unary_safe_iff :
  safe (h ++ [s]) (length h) <-> closure_safe h c.
Proof.
  rewrite safe_iff, deref_app_new; simpl.
  split; apply closure_safe_agree; intros x Hx; rewrite c_ops in Hx;
    destruct Hx as [<-|[]]; rewrite deref_app_old; auto.
Qed.

(** [root = op(a); root.backward()] for a unary operation: whether
    [backward] returns or not, [a.grad] has grown by what the closure of
    the root adds to it for [root.grad = 1]. *)
Lemma backward_unary_root :
  exists hf r,
    backward fuel (h ++ [s]) (length h) = Some (hf, r) /\
    grad (deref hf a) = grad (deref h a) + coefficient (h ++ [s]) (length h) a /\
    (closure_safe h c -> no_raise h a -> r = Ok tt) /\
    (~ closure_safe h c ->
     hf = set_grad (h ++ [s]) (length h) 1 /\ r <> Ok tt /\
     r = snd (local_backward (set_grad (h ++ [s]) (length h) 1) (length h))).
Proof.
  pose proof unary_root_wf as W1.
  assert (L1 : length (h ++ [s]) = S (length h)) by (rewrite length_app; simpl; lia).
  destruct (backward_root (h ++ [s]) fuel (length h) W1)
    as (l & called & r & E & _ & _ & _ & _ & Hc & _ & _ & NR); try lia.
  eexists; exists r; split; [exact E|].
  set (H0 := set_grad (h ++ [s]) (length h) 1).
  pose proof (set_grad_same_graph (h ++ [s]) (length h) 1) as SG0; fold H0 in SG0.
  pose proof (same_graph_wf _ _ SG0 W1) as W0.
  split; [|split].
  - rewrite (grad_kept_after_root (h ++ [s]) (length h) called); auto.
    + rewrite heap_after_increments by (apply wf_not_self; exact W0).
      rewrite grad_apply_increments.
      * unfold H0 at 1; rewrite grad_set_grad_other by lia.
        rewrite deref_app_old by exact a_in; reflexivity.
      * intros e He; apply increments_targets in He.
        destruct (wf_operands_in_range _ _ _ W0 He) as (_ & ? & ?); lia.
    + eapply same_graph_trans; [exact SG0|apply heap_after_same_graph].
    + rewrite deref_app_new; unfold s; simpl.
      intros o Ho; apply iter_of_In in Ho; destruct Ho as [<-|[]].
      apply not_depends_self; [exact W1|rewrite length_app; simpl; lia].
  - intros S Na; apply NR, unary_no_raise; assumption.
  - intros NS.
    destruct (backward_root_raises (h ++ [s]) fuel (length h) W1) as [E' N'];
      try lia.
    { rewrite unary_safe_iff; exact NS. }
    rewrite E in E'; injection E' as E1 E2; fold H0 in E1, E2, N'.
    rewrite <- E2 in N'; auto.
Qed.

End UnaryRoot.

(** ** ReLU *)

Lemma py_gt_irrefl x : py_gt x x = false.
Proof. unfold py_gt, py_lt; destruct (Rlt_dec x x); [lra|reflexivity]. Qed.

(** C6.  For a node [a] with [a.value = 0], [relu(a)] has value 0;
    whenever its rule runs during a backward pass (in any heap that differs
    from the one after the construction in gradients only) it returns and
    adds [False * res.grad = 0] to [a.grad]; and [relu(a).backward()],
    which returns unless the rule of [a] or of a node below it raises,
    leaves [a.grad] as it was. *)
Theorem relu_at_zero (so : SetOrder) (h : heap) (a : ref) (fuel : nat) :
  wf h -> (a < length h)%nat -> (length h < fuel)%nat ->
  value (deref h a) = 0 ->
  let r := Scalar_relu so h a in
  value (deref (fst r) (snd r)) = 0 /\
  (forall X, same_graph (fst r) X ->
     increments X (snd r) = [(a, bool_num false * grad (deref X (snd r)))] /\
     local_backward X (snd r) =
       (add_grad X a (bool_num false * grad (deref X (snd r))), Ok tt) /\
     grad (deref (heap_after X (snd r)) a) = grad (deref X a) + 0) /\
  exists hf res,
    backward fuel (fst r) (snd r) = Some (hf, res) /\
    grad (deref hf a) = grad (deref h a) /\
    (no_raise h a -> res = Ok tt).
Proof.
  intros W Ha Hf V r; subst r; rewrite Scalar_relu_node; simpl fst; simpl snd.
  rewrite V.
  set (s := mkScalar (if py_lt 0 0 then 0 else 0) 0 (ReluBackward a) (iter_of so [a])).
  assert (Vs : value s = 0) by (unfold s; simpl; destruct (py_lt 0 0); reflexivity).
  assert (L1 : length (h ++ [s]) = S (length h)) by (rewrite length_app; simpl; lia).
  assert (Step : forall X, same_graph (h ++ [s]) X ->
            increments X (length h) =
              [(a, bool_num false * grad (deref X (length h)))] /\
            local_backward X (length h) =
              (add_grad X a (bool_num false * grad (deref X (length h))), Ok tt)).
  { intros X SG; unfold increments, local_backward.
    destruct (proj2 SG (length h)) as (Ev & Ec & _).
    rewrite deref_app_new in Ev, Ec.
    rewrite Ec; unfold s; simpl; fold s; rewrite Ev, Vs.
    rewrite py_gt_irrefl; auto. }
  rewrite deref_app_new; split; [exact Vs|split].
  - intros X SG; destruct (Step X SG) as [I LB]; split; [exact I|split; [exact LB|]].
    unfold heap_after; rewrite LB; simpl fst.
    rewrite grad_add_grad by (rewrite (proj1 SG), L1; lia).
    rewrite Nat.eqb_refl; simpl; ring.
  - destruct (backward_unary_root so h a (value s) (ReluBackward a) fuel W Ha Hf eq_refl)
      as (hf & res & E & G & NR & _).
    exists hf, res; split; [exact E|split; [|intros Na; apply NR; simpl; auto]].
    rewrite G; unfold coefficient.
    rewrite (proj1 (Step _ (set_grad_same_graph _ _ _))); simpl.
    rewrite Nat.eqb_refl; ring.
Qed.

Lemma relu_at_zero_witness :
  wf zero_leaf /\ (0 < length zero_leaf)%nat /\ (length zero_leaf < 2)%nat /\
  value (deref zero_leaf 0) = 0 /\
  value (deref (fst (Scalar_relu insertion_order zero_leaf 0))
           (snd (Scalar_relu insertion_order zero_leaf 0))) = 0 /\
  exists hf,
    backward 2 (fst (Scalar_relu insertion_order zero_leaf 0))
      (snd (Scalar_relu insertion_order zero_leaf 0)) = Some (hf, Ok tt) /\
    grad (deref hf 0) = 0.
Proof.
  assert (W : wf zero_leaf) by apply leaves_wf.
  assert (A : (0 < length zero_leaf)%nat) by (simpl; lia).
  assert (F : (length zero_leaf < 2)%nat) by (simpl; lia).
  assert (V : value (deref zero_leaf 0) = 0) by reflexivity.
  repeat (split; [assumption|]).
  destruct (relu_at_zero insertion_order zero_leaf 0 2 W A F V)
    as (V0 & _ & hf & res & E & G & NR).
  split; [exact V0|].
  exists hf; rewrite <- (NR (leaves_no_raise _ 0)); auto.
Defined.

(** ** GELU *)

Lemma cosh_positive y : 0 < cosh y.
Proof.
  unfold cosh; pose proof (exp_pos y); pose proof (exp_pos (- y)); lra.
Qed.

Lemma exp_double y : exp (2 * y) = exp y * exp y.
Proof. replace (2 * y) with (y + y) by ring; apply exp_plus. Qed.

(** The quotient the code computes is the hyperbolic tangent. *)
Lemma tanh_as_quotient y : (exp (2 * y) - 1) / (exp (2 * y) + 1) = tanh y.
Proof.
  unfold tanh, sinh, cosh; rewrite exp_double, exp_Ropp.
  pose proof (exp_pos y) as P.
  assert (exp y * exp y + 1 <> 0) by nra.
  assert (exp y + / exp y <> 0).
  { pose proof (Rinv_0_lt_compat _ P); lra. }
  field; repeat split; lra.
Qed.

(** The quotient the closure computes is the hyperbolic secant. *)
Lemma sech_as_quotient y : 2 / (exp y + exp (- y)) = sech y.
Proof.
  unfold sech, cosh; pose proof (exp_pos y); pose proof (exp_pos (- y)).
  field; lra.
Qed.

Lemma cosh2_minus_sinh2 y : cosh y * cosh y - sinh y * sinh y = 1.
Proof.
  unfold cosh, sinh; rewrite exp_Ropp; pose proof (exp_pos y).
  field; lra.
Qed.

Lemma derivable_pt_lim_tanh y : derivable_pt_lim tanh y ((sech y) ^ 2).
Proof.
  pose proof (cosh_positive y) as P.
  replace ((sech y) ^ 2) with ((cosh y * cosh y - sinh y * sinh y) / Rsqr (cosh y)).
  - apply (derivable_pt_lim_div sinh cosh).
    + apply derivable_pt_lim_sinh.
    + apply derivable_pt_lim_cosh.
    + lra.
  - rewrite cosh2_minus_sinh2; unfold sech, Rsqr; field; lra.
Qed.

Lemma derivable_pt_lim_gelu_inner x :
  derivable_pt_lim (fun z => sqrt (2 / PI) * (z + 44715 / 1000000 * z ^ 3)) x
    (sqrt (2 / PI) * (1 + 44715 / 1000000 * (3 * x ^ 2))).
Proof.
  apply (derivable_pt_lim_ext
           (mult_real_fct (sqrt (2 / PI))
              (plus_fct id (mult_real_fct (44715 / 1000000) (fun z => z ^ 3))))).
  - intros z; reflexivity.
  - apply derivable_pt_lim_scal, derivable_pt_lim_plus.
    + apply derivable_pt_lim_id.
    + apply derivable_pt_lim_scal.
      replace (3 * x ^ 2) with (INR 3 * x ^ pred 3) by (simpl; ring).
      apply derivable_pt_lim_pow.
Qed.

(** The derivative the specification gives is the derivative of the
    approximation. *)
Lemma derivable_pt_lim_gelu_approx x :
  derivable_pt_lim gelu_approx x (gelu_approx_derivative x).
Proof.
  set (inner := fun z => sqrt (2 / PI) * (z + 44715 / 1000000 * z ^ 3)).
  apply (derivable_pt_lim_ext
           (mult_fct (mult_real_fct (5 / 10) id)
              (plus_fct (fct_cte 1) (comp tanh inner)))).
  - intros z; unfold gelu_approx, mult_fct, mult_real_fct, plus_fct, fct_cte, comp, id.
    reflexivity.
  - replace (gelu_approx_derivative x) with
      (5 / 10 * 1 * plus_fct (fct_cte 1) (comp tanh inner) x
       + mult_real_fct (5 / 10) id x
         * (0 + (sech (inner x)) ^ 2
                * (sqrt (2 / PI) * (1 + 44715 / 1000000 * (3 * x ^ 2))))).
    + apply derivable_pt_lim_mult.
      * apply derivable_pt_lim_scal, derivable_pt_lim_id.
      * apply derivable_pt_lim_plus; [apply derivable_pt_lim_const|].
        apply derivable_pt_lim_comp.
        -- apply derivable_pt_lim_gelu_inner.
        -- apply derivable_pt_lim_tanh.
    + unfold gelu_approx_derivative, plus_fct, fct_cte, comp, mult_real_fct, id, inner.
      ring.
Qed.

Lemma gelu_inner_cube x :
  gelu_inner x = sqrt (2 / PI) * (x + 44715 / 1000000 * x ^ 3).
Proof. unfold gelu_inner; ring. Qed.

(** The value [gelu] computes is the approximation of the specification. *)
Lemma gelu_forward_value x :
  5 / 10 * x * (1 + (exp (2 * gelu_inner x) - 1) / (exp (2 * gelu_inner x) + 1)) =
  gelu_approx x.
Proof.
  rewrite tanh_as_quotient, gelu_inner_cube; reflexivity.
Qed.

(** The factor the closure of [gelu] computes is the derivative of the
    specification. *)
Lemma gelu_factor x :
  5 / 10 * (1 + tanh (gelu_inner x))
  + 5 / 10 * x * (2 / (exp (gelu_inner x) + exp (- gelu_inner x)))
    * (2 / (exp (gelu_inner x) + exp (- gelu_inner x)))
    * sqrt (2 / PI) * (1 + 3 * (44715 / 1000000) * x * x)
  = gelu_approx_derivative x.
Proof.
  rewrite sech_as_quotient; unfold gelu_approx_derivative; cbv zeta.
  rewrite <- gelu_inner_cube; ring.
Qed.

(** When the forward pass did not overflow, [exp inner] is a float. *)
Lemma exp_half_in_range y : exp (2 * y) <= float_max -> exp y <= float_max.
Proof.
  intros H; destruct (Rle_dec y 0) as [N|P].
  - apply Rle_trans with 1; [|apply float_max_bounds].
    rewrite <- exp_0; apply exp_le; exact N.
  - apply Rle_trans with (exp (2 * y)); [apply exp_le; lra|exact H].
Qed.

Section GeluRule.

Variables (X : heap) (r a : ref) (x : R).
Hypothesis closure_of_r : _backward (deref X r) = GeluBackward a x (gelu_inner x).
Hypothesis exp_ok : exp (gelu_inner x) <= float_max.

(** The rule of [gelu], called in the heap [X]. *)
Lemma gelu_rule :
  exp (- gelu_inner x) <= float_max ->
  local_backward X r =
    (add_grad X a (gelu_approx_derivative x * grad (deref X r)), Ok tt) /\
  increments X r = [(a, gelu_approx_derivative x * grad (deref X r))].
Proof.
  intros N; unfold local_backward, increments; rewrite closure_of_r; simpl.
  rewrite (math_exp_ok _ exp_ok), (math_exp_ok _ N); simpl.
  rewrite py_truediv_ok
    by (pose proof (exp_pos (gelu_inner x)); pose proof (exp_pos (- gelu_inner x)); lra).
  simpl; rewrite gelu_factor; split; reflexivity.
Qed.

Lemma gelu_rule_raises :
  float_max < exp (- gelu_inner x) ->
  local_backward X r = (X, OverflowError) /\ increments X r = [].
Proof.
  intros N; unfold local_backward, increments; rewrite closure_of_r; simpl.
  rewrite (math_exp_ok _ exp_ok), (math_exp_overflow _ N); simpl.
  split; reflexivity.
Qed.

End GeluRule.

Section Gelu.

Context (so : SetOrder).
Variables (h : heap) (a : ref) (fuel : nat).
Hypothesis h_wf : wf h.
Hypothesis a_in : (a < length h)%nat.
Hypothesis enough : (length h < fuel)%nat.

Let x : R := value (deref h a).
Let s : Scalar :=
  mkScalar (5 / 10 * x * (1 + (exp (2 * gelu_inner x) - 1) / (exp (2 * gelu_inner x) + 1)))
    0 (GeluBackward a x (gelu_inner x)) (iter_of so [a]).

Hypothesis forward_ok : exp (2 * gelu_inner x) <= float_max.

Lemma gelu_built : Scalar_gelu so h a = Ok (h ++ [s], length h).
Proof. rewrite Scalar_gelu_node by exact forward_ok; reflexivity. Qed.

Lemma gelu_closure_safe_iff :
  closure_safe h (GeluBackward a x (gelu_inner x)) <->
  exp (- gelu_inner x) <= float_max.
Proof.
  simpl; split; [tauto|]; intros N; split; [|exact N].
  apply exp_half_in_range; exact forward_ok.
Qed.

(** [r = gelu(a); r.backward()] when the rule of [r] returns. *)
Lemma gelu_backward :
  exp (- gelu_inner x) <= float_max ->
  exists hf res,
    backward fuel (h ++ [s]) (length h) = Some (hf, res) /\
    grad (deref hf a) = grad (deref h a) + gelu_approx_derivative x /\
    (no_raise h a -> res = Ok tt).
Proof.
  intros N.
  destruct (backward_unary_root so h a (value s) (GeluBackward a x (gelu_inner x))
              fuel h_wf a_in enough eq_refl) as (hf & res & E & G & NR & _).
  change (mkScalar (value s) 0 (GeluBackward a x (gelu_inner x)) (iter_of so [a]))
    with s in E, G.
  exists hf, res; split; [exact E|split].
  - rewrite G; unfold coefficient; f_equal.
    set (H0 := set_grad (h ++ [s]) (length h) 1).
    assert (C : _backward (deref H0 (length h)) = GeluBackward a x (gelu_inner x)).
    { unfold H0; rewrite (proj1 (proj2 (seeded_graph _ _ _))), deref_app_new.
      reflexivity. }
    rewrite (proj2 (gelu_rule H0 (length h) a x C
                      (exp_half_in_range _ forward_ok) N)).
    unfold H0; rewrite seeded_grad by (rewrite length_app; simpl; lia).
    simpl; rewrite Nat.eqb_refl; ring.
  - intros Na; apply NR; [apply gelu_closure_safe_iff; exact N|exact Na].
Qed.

(** [r = gelu(a); r.backward()] when the rule of [r] overflows. *)
Lemma gelu_backward_raises :
  float_max < exp (- gelu_inner x) ->
  backward fuel (h ++ [s]) (length h) =
  Some (set_grad (h ++ [s]) (length h) 1, OverflowError).
Proof.
  intros N.
  destruct (backward_unary_root so h a (value s) (GeluBackward a x (gelu_inner x))
              fuel h_wf a_in enough eq_refl) as (hf & res & E & _ & _ & R).
  change (mkScalar (value s) 0 (GeluBackward a x (gelu_inner x)) (iter_of so [a]))
    with s in E, R.
  destruct R as (-> & _ & ->).
  { rewrite gelu_closure_safe_iff; lra. }
  rewrite E; f_equal; f_equal.
  set (H0 := set_grad (h ++ [s]) (length h) 1).
  assert (C : _backward (deref H0 (length h)) = GeluBackward a x (gelu_inner x)).
  { unfold H0; rewrite (proj1 (proj2 (seeded_graph _ _ _))), deref_app_new.
    reflexivity. }
  rewrite (proj1 (gelu_rule_raises H0 (length h) a x C
                    (exp_half_in_range _ forward_ok) N)).
  reflexivity.
Qed.

End Gelu.

(** C5, as the code has it.  The derivative the specification gives is the
    derivative of the tanh approximation.  [gelu(a)] computes
    [math.exp(2 * inner)], with [inner] the argument of the tanh: when that
    overflows ([a.value] from about 21.2 on), [gelu] raises [OverflowError]
    and builds no node.  Otherwise it builds a node whose value is the
    approximation at [a.value] and whose rule caches [a.value] and [inner].
    The rule computes [math.exp(-inner)]: when that is a float, the rule,
    whenever it runs, returns and adds the derivative times the gradient of
    the result to [a.grad], and after [gelu(a).backward()] the gradient of
    [a] has grown by the derivative; when it overflows ([a.value] below
    about -27), [gelu(a).backward()] raises [OverflowError] with only the
    root seeded. *)
Theorem gelu_correct (so : SetOrder) (h : heap) (a : ref) (fuel : nat) :
  wf h -> (a < length h)%nat -> (length h < fuel)%nat ->
  let x := value (deref h a) in
  derivable_pt_lim gelu_approx x (gelu_approx_derivative x) /\
  (float_max < exp (2 * gelu_inner x) -> Scalar_gelu so h a = OverflowError) /\
  (exp (2 * gelu_inner x) <= float_max ->
   exists h' r,
     Scalar_gelu so h a = Ok (h', r) /\
     value (deref h' r) = gelu_approx x /\
     _backward (deref h' r) =
       GeluBackward a x (sqrt (2 / PI) * (x + 44715 / 1000000 * x * x * x)) /\
     (exp (- gelu_inner x) <= float_max ->
      (forall X, same_graph h' X ->
         local_backward X r =
           (add_grad X a (gelu_approx_derivative x * grad (deref X r)), Ok tt) /\
         grad (deref (heap_after X r) a) =
           grad (deref X a) + gelu_approx_derivative x * grad (deref X r)) /\
      exists hf res,
        backward fuel h' r = Some (hf, res) /\
        grad (deref hf a) = grad (deref h a) + gelu_approx_derivative x /\
        (no_raise h a -> res = Ok tt)) /\
     (float_max < exp (- gelu_inner x) ->
      backward fuel h' r = Some (set_grad h' r 1, OverflowError))).
Proof.
  intros W Ha Hf x.
  split; [apply derivable_pt_lim_gelu_approx|].
  split; [apply Scalar_gelu_overflow|].
  intros F; eexists; eexists.
  split; [apply (gelu_built so h a F)|].
  rewrite deref_app_new; simpl value; simpl _backward.
  split; [apply gelu_forward_value|].
  split; [reflexivity|].
  split; intros N.
  - split; [|apply gelu_backward; assumption].
    intros X SG.
    assert (C : _backward (deref X (length h)) = GeluBackward a x (gelu_inner x)).
    { rewrite (proj1 (proj2 (proj2 SG _))), deref_app_new; reflexivity. }
    destruct (gelu_rule X (length h) a x C (exp_half_in_range _ F) N) as [LB _].
    split; [exact LB|].
    unfold heap_after; rewrite LB; simpl fst.
    rewrite grad_add_grad by (rewrite (proj1 SG), length_app; simpl; lia).
    rewrite Nat.eqb_refl; reflexivity.
  - apply gelu_backward_raises; assumption.
Qed.

Lemma gelu_inner_one : 0 <= gelu_inner 1 <= 2.
Proof. unfold gelu_inner; pose proof sqrt_2_PI_bounds; nra. Qed.

(** The witness: [a = Scalar(1)]. *)
Lemma gelu_correct_witness :
  wf one_leaf /\ (0 < length one_leaf)%nat /\ (length one_leaf < 2)%nat /\
  exists h' r hf,
    Scalar_gelu insertion_order one_leaf 0 = Ok (h', r) /\
    value (deref h' r) = gelu_approx 1 /\
    backward 2 h' r = Some (hf, Ok tt) /\
    grad (deref hf 0) = 0 + gelu_approx_derivative 1.
Proof.
  assert (W : wf one_leaf) by apply leaves_wf.
  assert (A : (0 < length one_leaf)%nat) by (simpl; lia).
  assert (F : (length one_leaf < 2)%nat) by (simpl; lia).
  repeat (split; [assumption|]).
  assert (Fw : exp (2 * gelu_inner 1) <= float_max)
    by (apply exp_in_range; pose proof gelu_inner_one; lra).
  assert (Bw : exp (- gelu_inner 1) <= float_max)
    by (apply exp_in_range; pose proof gelu_inner_one; lra).
  destruct (gelu_correct insertion_order one_leaf 0 2 W A F) as (_ & _ & G).
  destruct (G Fw) as (h' & r & E & V & _ & B & _).
  destruct (B Bw) as (_ & hf & res & Eb & Gb & NR).
  exists h', r, hf; rewrite <- (NR (leaves_no_raise _ 0)); auto.
Defined.

Lemma gelu_inner_hundred : 512 <= gelu_inner 100.
Proof. unfold gelu_inner; pose proof sqrt_2_PI_bounds; nra. Qed.

(** C5, as it is written, fails: [Scalar(100).gelu()] raises
    [OverflowError] in [math.exp(2 * inner)] and produces no node. *)
Lemma gelu_correct_counterexample :
  Scalar_gelu insertion_order hundred_leaf 0 = OverflowError.
Proof.
  apply Scalar_gelu_overflow, exp_overflows.
  change (value (deref hundred_leaf 0)) with 100.
  pose proof gelu_inner_hundred; lra.
Qed.

(** * Further properties of the engine *)

(** ** What [backward] computes *)

(** Every right-hand side of a closure is a factor times the gradient of
    the node that holds the closure: what the closure adds, and whether it
    returns, is what it adds for a gradient of 1, times that gradient. *)
Lemma amounts_linear c X X1 d n :
  same_graph X X1 -> grad (deref X1 d) = 1 ->
  received n (amounts (body c d) X) =
  received n (amounts (body c d) X1) * grad (deref X d).
Proof.
  intros [_ E] G1.
  destruct c as [|a b|a b|a p|a y|a|a x inner]; simpl;
    rewrite ?G1, ?(proj1 (E _)).
  - ring.
  - destruct (Nat.eqb a n), (Nat.eqb b n); ring.
  - destruct (Nat.eqb a n), (Nat.eqb b n); ring.
  - destruct (py_pow (value (deref X a)) (p - 1)); simpl; try ring.
    destruct (Nat.eqb a n); ring.
  - destruct (py_pow y 2); simpl; try ring.
    destruct (Nat.eqb a n); ring.
  - destruct (Nat.eqb a n); ring.
  - destruct (math_exp inner); simpl; try ring.
    destruct (math_exp (- inner)); simpl; try ring.
    destruct (py_truediv 2 (a0 + a1)); simpl; try ring.
    destruct (Nat.eqb a n); ring.
Qed.

Lemma received_increments X d n :
  (d < length X)%nat ->
  received n (increments X d) = coefficient X d n * grad (deref X d).
Proof.
  intros Hd; unfold coefficient, increments.
  rewrite (proj1 (proj2 (seeded_graph X d d))).
  apply amounts_linear; [apply set_grad_same_graph|apply seeded_grad; exact Hd].
Qed.

Lemma increments_out_of_range X d : (length X <= d)%nat -> increments X d = [].
Proof.
  intros Hd; unfold increments; rewrite deref_out_of_range by exact Hd; reflexivity.
Qed.

Lemma coefficient_out_of_range X d n : (length X <= d)%nat -> coefficient X d n = 0.
Proof.
  intros Hd; unfold coefficient; rewrite increments_out_of_range; [reflexivity|].
  rewrite (proj1 (set_grad_same_graph X d 1)); exact Hd.
Qed.

Lemma received_increments_any X d n :
  received n (increments X d) = coefficient X d n * grad (deref X d).
Proof.
  destruct (Nat.lt_ge_cases d (length X)) as [Hd|Hd].
  - apply received_increments; exact Hd.
  - rewrite increments_out_of_range, coefficient_out_of_range by exact Hd.
    simpl; ring.
Qed.

Lemma amounts_same c d X X' :
  same_graph X X' -> grad (deref X' d) = grad (deref X d) ->
  amounts (body c d) X' = amounts (body c d) X.
Proof.
  intros SG G.
  assert (A : forall stmts,
            (forall s, In s stmts -> snd s X' = snd s X) ->
            amounts stmts X' = amounts stmts X).
  { induction stmts as [|[t rhs] rest IH]; intros Hs; simpl; auto.
    pose proof (Hs (t, rhs) (or_introl eq_refl)) as E; simpl in E; rewrite E.
    destruct (rhs X); auto; f_equal; apply IH.
    intros s Hin; apply Hs; simpl; auto. }
  apply A; intros s Hs; eapply rhs_same; eauto.
Qed.

Lemma coefficient_same_graph h X d n :
  same_graph h X -> coefficient X d n = coefficient h d n.
Proof.
  intros SG; unfold coefficient, increments.
  rewrite !(proj1 (proj2 (seeded_graph _ d d))).
  rewrite (proj1 (proj2 (proj2 SG d))); f_equal.
  apply amounts_same.
  - destruct (set_grad_same_graph h d 1) as [L1 G1].
    destruct (set_grad_same_graph X d 1) as [L2 G2].
    destruct SG as [L G]; split; [congruence|].
    intros m; destruct (G1 m) as (?&?&?), (G2 m) as (?&?&?), (G m) as (?&?&?).
    repeat split; congruence.
  - destruct (Nat.lt_ge_cases d (length h)) as [Hd|Hd].
    + rewrite !seeded_grad; auto; rewrite (proj1 SG); exact Hd.
    + rewrite !deref_out_of_range; auto;
        rewrite (proj1 (set_grad_same_graph _ d 1)); auto.
      rewrite (proj1 SG); exact Hd.
Qed.

Lemma coefficient_operand h d n :
  coefficient h d n <> 0 -> In n (operands (_backward (deref h d))).
Proof.
  unfold coefficient; intros Hc.
  rewrite <- (proj1 (proj2 (seeded_graph h d d))).
  set (X := set_grad h d 1) in *.
  assert (A : forall l, received n l <> 0 -> exists e, In e l /\ fst e = n).
  { induction l as [|e t IH]; simpl; [intros H; exfalso; apply H; reflexivity|].
    destruct (Nat.eqb_spec (fst e) n) as [E|E]; [exists e; auto|].
    intros H; destruct IH as (e' & He' & Ee'); [intros Z; apply H; rewrite Z; ring|].
    exists e'; auto. }
  destruct (A _ Hc) as (e & He & <-).
  apply increments_targets; exact He.
Qed.

Lemma sum_over_app f l1 l2 : sum_over f (l1 ++ l2) = sum_over f l1 + sum_over f l2.
Proof. induction l1 as [|x t IH]; simpl; [|rewrite IH]; ring. Qed.

Lemma sum_over_rev f l : sum_over f (rev l) = sum_over f l.
Proof.
  induction l as [|x t IH]; simpl; auto.
  rewrite sum_over_app, IH; simpl; ring.
Qed.

Lemma sum_over_zero f l : (forall d, In d l -> f d = 0) -> sum_over f l = 0.
Proof.
  induction l as [|x t IH]; intros H; simpl; auto.
  rewrite H by (simpl; auto).
  rewrite IH by (intros; apply H; simpl; auto).
  ring.
Qed.

(** A sum with one non-zero term. *)
Lemma sum_over_single f l d :
  NoDup l -> In d l -> (forall e, In e l -> e <> d -> f e = 0) ->
  sum_over f l = f d.
Proof.
  induction l as [|x t IH]; intros ND Hd Hz; [destruct Hd|].
  inversion ND as [|? ? Hx ND']; subst; simpl.
  destruct Hd as [->|Hd].
  - rewrite sum_over_zero; [ring|].
    intros e He; apply Hz; [simpl; auto|intros ->; contradiction].
  - rewrite IH; auto.
    + rewrite Hz; [ring|simpl; auto|intros ->; contradiction].
    + intros e He; apply Hz; simpl; auto.
Qed.

Section Adjoint.

Variables (h : heap) (root : ref) (l order rest : list ref).
Hypothesis h_wf : wf h.
Hypothesis root_in : (root < length h)%nat.
Hypothesis l_nodup : NoDup (l ++ [root]).
Hypothesis l_post : post_ordered h (l ++ [root]).
Hypothesis order_prefix : rev (l ++ [root]) = order ++ rest.

Let s : heap := set_grad h root 1.
Let hf : heap := run_all order s.

Lemma adjoint_seeded_graph : same_graph h s.
Proof. apply set_grad_same_graph. Qed.

(** When the closure of [d] is called, [d] already holds its final
    gradient: the closures called later are not those of its dependents. *)
Lemma grad_final_at_call p1 d p2 :
  order = p1 ++ d :: p2 ->
  grad (deref (run_all p1 s) d) = grad (deref hf d).
Proof.
  intros E; unfold hf; rewrite E, run_all_app.
  pose proof (same_graph_trans _ _ _ adjoint_seeded_graph
                (run_all_same_graph p1 s)) as SG.
  symmetry; apply grad_run_all_untouched.
  - eapply same_graph_wf; eauto.
  - intros n Hn Ha; rewrite (proj2 (proj2 (proj2 SG n))) in Ha.
    assert (E' : rev (l ++ [root]) = p1 ++ d :: (p2 ++ rest)).
    { rewrite order_prefix, E, <- app_assoc; reflexivity. }
    assert (Hnl : In n (l ++ [root])).
    { apply in_rev; rewrite E'.
      apply in_or_app; right; simpl in *.
      destruct Hn as [->|Hn]; auto; right; apply in_or_app; auto. }
    pose proof (dependents_first h _ l_nodup l_post p1 d (p2 ++ rest) E' n Hnl Ha)
      as Hp1.
    assert (ND : NoDup (p1 ++ d :: p2 ++ rest)).
    { rewrite <- E'; apply NoDup_rev; exact l_nodup. }
    destruct Hn as [<-|Hn].
    + apply NoDup_remove_2 in ND; apply ND; apply in_or_app; auto.
    + apply in_split in Hn; destruct Hn as (q1 & q2 & ->).
      rewrite <- !app_assoc in ND; simpl in ND.
      change (p1 ++ d :: q1 ++ n :: q2 ++ rest)
        with (p1 ++ (d :: q1) ++ n :: q2 ++ rest) in ND.
      rewrite app_assoc in ND; apply NoDup_remove_2 in ND; apply ND.
      apply in_or_app; left; apply in_or_app; auto.
Qed.

Lemma received_adjoint n p2 : forall p1,
  order = p1 ++ p2 ->
  received n (trace p2 (run_all p1 s)) =
  sum_over (fun d => coefficient h d n * grad (deref hf d)) p2.
Proof.
  induction p2 as [|d t IH]; intros p1 E; simpl; auto.
  rewrite received_app, received_increments_any.
  rewrite (coefficient_same_graph h)
    by (eapply same_graph_trans; [apply adjoint_seeded_graph
                                 |apply run_all_same_graph]).
  rewrite (grad_final_at_call p1 d t E).
  f_equal.
  change (heap_after (run_all p1 s) d)
    with (run_all [d] (run_all p1 s)).
  rewrite <- run_all_app; apply IH.
  rewrite <- app_assoc; exact E.
Qed.

Lemma grad_adjoint n :
  grad (deref hf n) =
  grad (deref s n)
  + sum_over (fun d => coefficient h d n * grad (deref hf d)) order.
Proof.
  unfold hf at 1; rewrite grad_run_all
    by (eapply same_graph_wf; [apply adjoint_seeded_graph|exact h_wf]).
  f_equal.
  apply (received_adjoint n order []); reflexivity.
Qed.

End Adjoint.

Lemma coefficient_reachable h root d n :
  wf h -> reachable h root d -> coefficient h d n <> 0 -> reachable h root n.
Proof.
  intros W R Hc; apply coefficient_operand in Hc.
  destruct (wf_operands_in_range h d n W Hc) as (Ha & _).
  eapply reach_step; eauto.
Qed.

(** The equations of [backward]: [called] lists the nodes whose closures
    were called, the root first. *)
Lemma backward_equations h root fuel :
  wf h -> (root < length h)%nat -> (root < fuel)%nat ->
  exists vis l called hf r,
    dfs fuel h root ([], []) = Some (vis, l ++ [root]) /\
    backward fuel h root = Some (hf, r) /\
    NoDup (l ++ [root]) /\
    (forall x, In x (l ++ [root]) <-> reachable h root x) /\
    (exists rest, rev (l ++ [root]) = called ++ rest) /\
    In root called /\
    (no_raise h root -> r = Ok tt /\ called = rev (l ++ [root])) /\
    same_graph h hf /\
    grad (deref hf root) = 1 /\
    forall n, n <> root ->
      grad (deref hf n) =
      grad (deref h n)
      + sum_over (fun d => coefficient h d n * grad (deref hf d)) called.
Proof.
  intros W Hr Hf.
  destruct (dfs_root h fuel root W Hr Hf) as (vis & l & E & ND & PO & RE).
  set (s := set_grad h root 1).
  set (called := calls (rev (l ++ [root])) s).
  destruct (calls_prefix (rev (l ++ [root])) s) as (rest & P); fold called in P.
  exists vis, l, called, (run_all called s), (snd (run_closures (rev (l ++ [root])) s)).
  split; [exact E|].
  split.
  { unfold backward; rewrite E; simpl snd; fold s.
    pose proof (run_closures_fst (rev (l ++ [root])) s) as F; fold called in F.
    destruct (run_closures (rev (l ++ [root])) s); simpl in *; congruence. }
  split; [exact ND|].
  split; [exact RE|].
  split; [exists rest; exact P|].
  split; [unfold called; rewrite rev_app_distr; simpl; auto|].
  split.
  { intros NR.
    assert (S : run_closures (rev (l ++ [root])) s =
                (run_all (rev (l ++ [root])) s, Ok tt)).
    { apply run_closures_safe; intros n Hn.
      apply (safe_same_graph h); [apply set_grad_same_graph|].
      apply NR, RE, in_rev, Hn. }
    split; [rewrite S; reflexivity|apply calls_all; rewrite S; reflexivity]. }
  split.
  { eapply same_graph_trans; [apply set_grad_same_graph|apply run_all_same_graph]. }
  subst called; subst s; set (called := calls _ _) in *.
  split.
  - rewrite (grad_adjoint h root l called rest W ND PO P root).
    rewrite seeded_grad by exact Hr.
    rewrite sum_over_zero; [ring|].
    intros d Hd.
    assert (Rd : reachable h root d).
    { apply RE, in_rev; rewrite P; apply in_or_app; auto. }
    destruct (Req_dec (coefficient h d root) 0) as [Z|NZ]; [rewrite Z; ring|].
    exfalso; apply coefficient_operand in NZ.
    destruct (wf_operands_in_range h d root W NZ) as (_ & Hlt & _).
    pose proof (reachable_le h W root d Hr Rd); lia.
  - intros n Hn; rewrite (grad_adjoint h root l called rest W ND PO P n).
    rewrite grad_set_grad_other by exact Hn; reflexivity.
Qed.

(** X1.  What [backward] computes.  On a well-formed heap, in the heap
    that [backward] leaves the root has gradient 1 and every other node [n]
    has the gradient it held before plus, summed over the nodes [d] whose
    rules ran, the local derivative of [d] with respect to [n] times the
    final gradient of [d]: the adjoint equations of reverse-mode
    differentiation, with the gradients found in the heap as initial
    values.  The rules that ran are a prefix of the reverse of [toposort],
    and all of it, with [backward] returning, when no rule raises. *)
Theorem backward_adjoint (h : heap) (root : ref) (fuel : nat) :
  wf h -> (root < length h)%nat -> (root < fuel)%nat ->
  exists visited toposort called hf r,
    dfs fuel h root ([], []) = Some (visited, toposort) /\
    backward fuel h root = Some (hf, r) /\
    (exists rest, rev toposort = called ++ rest) /\
    (no_raise h root -> r = Ok tt /\ called = rev toposort) /\
    grad (deref hf root) = 1 /\
    forall n, n <> root ->
      grad (deref hf n) =
      grad (deref h n)
      + sum_over (fun d => coefficient h d n * grad (deref hf d)) called.
Proof.
  intros W Hr Hf.
  destruct (backward_equations h root fuel W Hr Hf)
    as (vis & l & called & hf & r & Ed & E & _ & _ & P & _ & NR & _ & G1 & G).
  exists vis, (l ++ [root]), called, hf, r; auto 10.
Qed.

Lemma stale_product_no_raise : no_raise (fst stale_product) (snd stale_product).
Proof.
  unfold stale_product; rewrite Scalar_mul_node; cbv beta iota delta [fst snd].
  assert (W : wf stale_leaves).
  { apply (same_graph_wf two_leaves); [apply set_grad_same_graph|apply leaves_wf]. }
  assert (N : forall n, no_raise stale_leaves n).
  { intros n; apply (no_raise_same_graph two_leaves);
      [apply set_grad_same_graph|apply leaves_no_raise]. }
  apply binary_no_raise; simpl; auto.
Qed.

(** The witness: [a = Scalar(2)] with a stale gradient of 7, [b = Scalar(3)],
    [root = a * b]; the equations give [a.grad = 7 + 3 * 1]. *)
Lemma backward_adjoint_witness :
  wf (fst stale_product) /\
  (snd stale_product < length (fst stale_product))%nat /\
  (snd stale_product < 3)%nat /\
  exists hf,
    backward 3 (fst stale_product) (snd stale_product) = Some (hf, Ok tt) /\
    grad (deref hf 2) = 1 /\
    grad (deref hf 0) = 7 + 3 * 1 /\
    grad (deref hf 1) = 0 + 2 * 1.
Proof.
  assert (W : wf (fst stale_product)) by apply stale_product_wf.
  assert (A : (snd stale_product < length (fst stale_product))%nat) by (simpl; lia).
  assert (F : (snd stale_product < 3)%nat) by (simpl; lia).
  repeat (split; [assumption|]).
  destruct (backward_adjoint (fst stale_product) (snd stale_product) 3 W A F)
    as (vis & topo & called & hf & r & Ed & E & _ & NR & G1 & G).
  destruct (NR stale_product_no_raise) as [-> ->].
  vm_compute in Ed; injection Ed as _ <-.
  exists hf; split; [exact E|split; [exact G1|]].
  pose proof (G 0%nat ltac:(simpl; lia)) as G0.
  pose proof (G 1%nat ltac:(simpl; lia)) as G1'.
  simpl in G1, G0, G1'; rewrite G1 in G0, G1'.
  unfold coefficient in G0, G1'; simpl in G0, G1'.
  split; lra.
Defined.

Lemma Scalar_eq s1 s2 :
  value s1 = value s2 -> grad s1 = grad s2 ->
  _backward s1 = _backward s2 -> _ancestors s1 = _ancestors s2 -> s1 = s2.
Proof. destruct s1, s2; simpl; intros; subst; reflexivity. Qed.

(** X2.  The frame of [backward].  Whether it returns or a rule raises,
    [backward] never changes a value, a closure or an ancestor set,
    allocates nothing, and leaves every node that is not reachable from
    the root exactly as it was. *)
Theorem backward_frame (h : heap) (root : ref) (fuel : nat) :
  wf h -> (root < length h)%nat -> (root < fuel)%nat ->
  exists hf r,
    backward fuel h root = Some (hf, r) /\
    length hf = length h /\
    (forall m, value (deref hf m) = value (deref h m) /\
               _backward (deref hf m) = _backward (deref h m) /\
               _ancestors (deref hf m) = _ancestors (deref h m)) /\
    (forall m, ~ reachable h root m -> deref hf m = deref h m).
Proof.
  intros W Hr Hf.
  destruct (backward_equations h root fuel W Hr Hf)
    as (vis & l & called & hf & r & _ & E & _ & RE & (rest & P) & _ & _ & SG & _ & G).
  exists hf, r.
  split; [exact E|].
  split; [apply (proj1 SG)|split; [apply (proj2 SG)|]].
  intros m Hm; destruct (proj2 SG m) as (Ev & Ec & Ea).
  apply Scalar_eq; auto.
  rewrite (G m) by (intros ->; apply Hm, reach_refl).
  rewrite sum_over_zero; [ring|].
  intros d Hd.
  assert (Rd : reachable h root d).
  { apply RE, in_rev; rewrite P; apply in_or_app; auto. }
  destruct (Req_dec (coefficient h d m) 0) as [Z|NZ]; [rewrite Z; ring|].
  exfalso; apply Hm; eapply coefficient_reachable; eauto.
Qed.

Lemma product_beside_wf : wf (fst product_beside).
Proof.
  unfold product_beside; rewrite Scalar_mul_node; cbv beta iota delta [fst].
  apply binary_root_wf; try (simpl; lia); [apply leaves_wf|reflexivity].
Qed.

Lemma product_beside_unreachable :
  ~ reachable (fst product_beside) (snd product_beside) 2.
Proof.
  intros R; destruct (reachable_head _ _ _ R) as [E|(c & Hc & Rc)].
  - simpl in E; lia.
  - simpl in Hc; destruct Hc as [<-|[<-|[]]];
      apply leaf_reachable in Rc; try reflexivity; lia.
Qed.

(** The witness: [a = Scalar(2); b = Scalar(3); c = Scalar(5);
    root = a * b]; [root.backward()] leaves [c] as it was. *)
Lemma backward_frame_witness :
  wf (fst product_beside) /\
  (snd product_beside < length (fst product_beside))%nat /\
  (snd product_beside < 4)%nat /\
  exists hf r,
    backward 4 (fst product_beside) (snd product_beside) = Some (hf, r) /\
    length hf = 4%nat /\
    value (deref hf 0) = 2 /\
    deref hf 2 = mkScalar 5 0 NoOp [].
Proof.
  assert (W : wf (fst product_beside)) by apply product_beside_wf.
  assert (A : (snd product_beside < length (fst product_beside))%nat) by (simpl; lia).
  assert (F : (snd product_beside < 4)%nat) by (simpl; lia).
  repeat (split; [assumption|]).
  destruct (backward_frame (fst product_beside) (snd product_beside) 4 W A F)
    as (hf & r & E & L & G & U).
  exists hf, r; split; [exact E|split; [exact L|split]].
  - exact (proj1 (G 0%nat)).
  - exact (U 2%nat product_beside_unreachable).
Defined.

(** A node that is an operand of the root only: its final gradient is its
    old one plus the root's local derivative, whether [backward] returns
    or not. *)
Lemma grad_below_root h root fuel n :
  wf h -> (root < length h)%nat -> (root < fuel)%nat -> n <> root ->
  (forall d, reachable h root d -> d <> root -> ~ In n (_ancestors (deref h d))) ->
  exists hf r,
    backward fuel h root = Some (hf, r) /\
    grad (deref hf n) = grad (deref h n) + coefficient h root n /\
    (no_raise h root -> r = Ok tt).
Proof.
  intros W Hr Hf Hn Hfree.
  destruct (backward_equations h root fuel W Hr Hf)
    as (vis & l & called & hf & r & _ & E & ND & RE & (rest & P) & Hin & NR & _ & G1 & G).
  exists hf, r; split; [exact E|split; [|intros N; apply NR, N]].
  rewrite (G n Hn); f_equal.
  assert (Hc : forall e, In e called -> reachable h root e).
  { intros e He; apply RE, in_rev; rewrite P; apply in_or_app; auto. }
  assert (Z : forall e, In e called -> e <> root -> coefficient h e n = 0).
  { intros e He Hne.
    destruct (Req_dec (coefficient h e n) 0) as [Z|NZ]; [exact Z|].
    exfalso; apply coefficient_operand in NZ.
    destruct (wf_operands_in_range h e n W NZ) as (Ha & _).
    exact (Hfree e (Hc e He) Hne Ha). }
  assert (NDc : NoDup called).
  { apply NoDup_rev in ND; rewrite P in ND.
    apply NoDup_app_remove_r in ND; exact ND. }
  rewrite (sum_over_single _ _ root NDc Hin).
  - rewrite G1; ring.
  - intros e He Hne; rewrite Z by auto; ring.
Qed.

(** ** [tanh] *)

Lemma sech_square y : (sech y) ^ 2 = 1 - (tanh y) ^ 2.
Proof.
  pose proof (cosh_positive y) as P; pose proof (cosh2_minus_sinh2 y) as E.
  unfold sech, tanh; field_simplify_eq; [|lra].
  simpl; nra.
Qed.

Lemma tanh_bounded y : Rabs (tanh y) <= 1.
Proof.
  rewrite <- tanh_as_quotient.
  pose proof (exp_pos (2 * y)) as P.
  set (E := exp (2 * y)) in *.
  assert (I : / (E + 1) > 0) by (apply Rinv_0_lt_compat; lra).
  assert (Q : (E + 1) * / (E + 1) = 1) by (apply Rinv_r; lra).
  apply Rabs_le; unfold Rdiv; split; nra.
Qed.

Section Tanh.

Context (so : SetOrder).
Variables (h : heap) (a : ref) (fuel : nat).
Hypothesis h_wf : wf h.
Hypothesis a_in : (a < length h)%nat.
Hypothesis enough : (length h < fuel)%nat.

Let x : R := value (deref h a).
Let s : Scalar := mkScalar (tanh x) 0 (TanhBackward a (tanh x)) (iter_of so [a]).

Hypothesis forward_ok : exp (2 * x) <= float_max.

Lemma tanh_built : Scalar_tanh so h a = Ok (h ++ [s], length h).
Proof.
  rewrite Scalar_tanh_node by exact forward_ok; cbv zeta.
  fold x; rewrite tanh_as_quotient; reflexivity.
Qed.

(** [r = tanh(a); r.backward()]: the rule of [r] always returns. *)
Lemma tanh_backward :
  exists hf res,
    backward fuel (h ++ [s]) (length h) = Some (hf, res) /\
    grad (deref hf a) = grad (deref h a) + (1 - (tanh x) ^ 2) /\
    (no_raise h a -> res = Ok tt).
Proof.
  destruct (backward_unary_root so h a (tanh x) (TanhBackward a (tanh x))
              fuel h_wf a_in enough eq_refl) as (hf & res & E & G & NR & _).
  fold s in E, G.
  exists hf, res; split; [exact E|split].
  - rewrite G; unfold coefficient, increments; f_equal.
    rewrite (proj1 (proj2 (seeded_graph _ _ _))), deref_app_new; simpl.
    rewrite py_pow_square by apply tanh_bounded; simpl.
    rewrite seeded_grad by (rewrite length_app; simpl; lia).
    rewrite Nat.eqb_refl; ring.
  - intros Na; apply NR; [|exact Na].
    simpl; exists ((tanh x) ^ 2); apply py_pow_square, tanh_bounded.
Qed.

End Tanh.

(** X3.  [tanh(a)] computes [math.exp(2 * a.value)]: when that overflows,
    [tanh] raises [OverflowError] and builds no node.  Otherwise the result
    has the hyperbolic tangent of [a.value] as its value (the quotient of
    exponentials the code computes is that function), its rule never
    raises, and after [backward()] on it [a.grad] has grown by [1 - y^2]
    for the cached output [y], which is the derivative of the hyperbolic
    tangent at [a.value]. *)
Theorem tanh_correct (so : SetOrder) (h : heap) (a : ref) (fuel : nat) :
  wf h -> (a < length h)%nat -> (length h < fuel)%nat ->
  let x := value (deref h a) in
  derivable_pt_lim tanh x (1 - (tanh x) ^ 2) /\
  (float_max < exp (2 * x) -> Scalar_tanh so h a = OverflowError) /\
  (exp (2 * x) <= float_max ->
   exists h' r,
     Scalar_tanh so h a = Ok (h', r) /\
     value (deref h' r) = tanh x /\
     exists hf res,
       backward fuel h' r = Some (hf, res) /\
       grad (deref hf a) = grad (deref h a) + (1 - (tanh x) ^ 2) /\
       (no_raise h a -> res = Ok tt)).
Proof.
  intros W Ha Hf x; split; [|split].
  - rewrite <- sech_square; apply derivable_pt_lim_tanh.
  - apply Scalar_tanh_overflow.
  - intros F; eexists; eexists.
    split; [apply (tanh_built so h a F)|].
    rewrite deref_app_new; split; [reflexivity|].
    apply tanh_backward; assumption.
Qed.

(** The witness: [a = Scalar(1)]. *)
Lemma tanh_correct_witness :
  wf one_leaf /\ (0 < length one_leaf)%nat /\ (length one_leaf < 2)%nat /\
  exists h' r hf,
    Scalar_tanh insertion_order one_leaf 0 = Ok (h', r) /\
    value (deref h' r) = tanh 1 /\
    backward 2 h' r = Some (hf, Ok tt) /\
    grad (deref hf 0) = 0 + (1 - (tanh 1) ^ 2).
Proof.
  assert (W : wf one_leaf) by apply leaves_wf.
  assert (A : (0 < length one_leaf)%nat) by (simpl; lia).
  assert (F : (length one_leaf < 2)%nat) by (simpl; lia).
  repeat (split; [assumption|]).
  assert (Fw : exp (2 * 1) <= float_max) by (apply exp_in_range; lra).
  destruct (tanh_correct insertion_order one_leaf 0 2 W A F) as (_ & _ & G).
  destruct (G Fw) as (h' & r & E & V & hf & res & Eb & Gb & NR).
  exists h', r, hf; rewrite <- (NR (leaves_no_raise _ 0)); auto.
Defined.

(** ** [**] *)

Section Power.

Context (so : SetOrder).
Variables (h : heap) (a : ref) (p v : R) (fuel : nat).
Hypothesis h_wf : wf h.
Hypothesis a_in : (a < length h)%nat.
Hypothesis enough : (length h < fuel)%nat.
Hypothesis forward_ok : py_pow (value (deref h a)) p = Ok v.

Let s : Scalar := mkScalar v 0 (PowBackward a p) (iter_of so [a]).

Lemma pow_built : Scalar_pow so h a p = Ok (h ++ [s], length h).
Proof. apply Scalar_pow_node; exact forward_ok. Qed.

(** [r = a ** p; r.backward()] when the power in the rule of [r] is
    defined. *)
Lemma pow_backward w :
  py_pow (value (deref h a)) (p - 1) = Ok w ->
  exists hf res,
    backward fuel (h ++ [s]) (length h) = Some (hf, res) /\
    grad (deref hf a) = grad (deref h a) + p * w /\
    (no_raise h a -> res = Ok tt).
Proof.
  intros Hw.
  destruct (backward_unary_root so h a v (PowBackward a p)
              fuel h_wf a_in enough eq_refl) as (hf & res & E & G & NR & _).
  fold s in E, G.
  exists hf, res; split; [exact E|split].
  - rewrite G; unfold coefficient, increments; f_equal.
    rewrite (proj1 (proj2 (seeded_graph _ _ _))), deref_app_new; simpl.
    rewrite (proj1 (seeded_graph _ _ _)), deref_app_old by exact a_in.
    rewrite Hw; simpl.
    rewrite seeded_grad by (rewrite length_app; simpl; lia).
    rewrite Nat.eqb_refl; ring.
  - intros Na; apply NR; [|exact Na].
    simpl; exists w; exact Hw.
Qed.

(** [r = a ** p; r.backward()] when the power in the rule of [r] raises:
    [backward] has only seeded [r]. *)
Lemma pow_backward_raises :
  py_pow (value (deref h a)) (p - 1) = ZeroDivisionError ->
  backward fuel (h ++ [s]) (length h) =
  Some (set_grad (h ++ [s]) (length h) 1, ZeroDivisionError).
Proof.
  intros Hw.
  destruct (backward_unary_root so h a v (PowBackward a p)
              fuel h_wf a_in enough eq_refl) as (hf & res & E & _ & _ & R).
  fold s in E, R.
  destruct R as (-> & _ & ->).
  { simpl; intros (w & Ew); congruence. }
  rewrite E; f_equal; f_equal.
  unfold local_backward.
  rewrite (proj1 (proj2 (seeded_graph _ _ _))), deref_app_new; simpl.
  rewrite (proj1 (seeded_graph _ _ _)), deref_app_old by exact a_in.
  rewrite Hw; reflexivity.
Qed.

End Power.

(** X4.  For a natural number [n >= 1] and a node [a] such that
    [a.value ^ n] and [a.value ^ (n - 1)] are floats, [a ** n] has value
    [a.value ^ n], its rule does not raise, and after [backward()] on it
    [a.grad] has grown by [n * a.value ^ (n - 1)], the derivative of the
    power at [a.value]. *)
Theorem pow_natural_correct (so : SetOrder) (h : heap) (a : ref) (n fuel : nat) :
  wf h -> (a < length h)%nat -> (length h < fuel)%nat -> (0 < n)%nat ->
  let x := value (deref h a) in
  Rabs (x ^ n) <= float_max -> Rabs (x ^ pred n) <= float_max ->
  derivable_pt_lim (fun y => y ^ n) x (INR n * x ^ pred n) /\
  exists h' r,
    Scalar_pow so h a (INR n) = Ok (h', r) /\
    value (deref h' r) = x ^ n /\
    exists hf res,
      backward fuel h' r = Some (hf, res) /\
      grad (deref hf a) = grad (deref h a) + INR n * x ^ pred n /\
      (no_raise h a -> res = Ok tt).
Proof.
  intros W Ha Hf Hn x Rn Rp; split; [apply derivable_pt_lim_pow|].
  assert (Fw : py_pow x (INR n) = Ok (x ^ n)).
  { rewrite py_pow_natural; apply in_range_ok; exact Rn. }
  assert (Bw : py_pow x (INR n - 1) = Ok (x ^ pred n)).
  { destruct n as [|n]; [lia|].
    replace (INR (S n) - 1) with (INR n) by (rewrite S_INR; ring).
    rewrite py_pow_natural; apply in_range_ok; exact Rp. }
  eexists; eexists.
  split; [apply (pow_built so h a (INR n) (x ^ n) Fw)|].
  rewrite deref_app_new; split; [reflexivity|].
  apply (pow_backward so h a (INR n) (x ^ n) fuel W Ha Hf (x ^ pred n) Bw).
Qed.

(** The witness: [Scalar(2) ** 3], of value 8, and a gradient of
    [3 * 2 ^ 2]. *)
Lemma pow_natural_correct_witness :
  wf two_leaves /\ (0 < length two_leaves)%nat /\ (length two_leaves < 3)%nat /\
  (0 < 3)%nat /\ Rabs (2 ^ 3) <= float_max /\ Rabs (2 ^ 2) <= float_max /\
  exists h' r hf,
    Scalar_pow insertion_order two_leaves 0 (INR 3) = Ok (h', r) /\
    value (deref h' r) = 2 ^ 3 /\
    backward 3 h' r = Some (hf, Ok tt) /\
    grad (deref hf 0) = 0 + INR 3 * 2 ^ 2.
Proof.
  assert (W : wf two_leaves) by apply leaves_wf.
  assert (A : (0 < length two_leaves)%nat) by (simpl; lia).
  assert (F : (length two_leaves < 3)%nat) by (simpl; lia).
  assert (N : (0 < 3)%nat) by lia.
  assert (R3 : Rabs (2 ^ 3) <= float_max).
  { rewrite Rabs_pos_eq by (simpl; lra); pose proof float_max_large; simpl; lra. }
  assert (R2 : Rabs (2 ^ 2) <= float_max).
  { rewrite Rabs_pos_eq by (simpl; lra); pose proof float_max_large; simpl; lra. }
  repeat (split; [assumption|]).
  destruct (pow_natural_correct insertion_order two_leaves 0 3 3 W A F N R3 R2)
    as (_ & h' & r & E & V & hf & res & Eb & Gb & NR).
  exists h', r, hf; rewrite <- (NR (leaves_no_raise _ 0)); auto.
Defined.

(** X5.  Powers of a node of value 0.  [z ** p] raises [ZeroDivisionError]
    and builds no node for a negative [p].  For [p = 0] it builds a node of
    value 1 and for [0 < p < 1] a node of value 0, and in both cases
    [backward()] on that node raises [ZeroDivisionError], in the rule of
    the node ([p * 0 ** (p - 1)]), after it has set the gradient of the
    node to 1 and before it has changed any other gradient.  For [p > 1]
    the node has value 0 and [backward()] adds 0 to [z.grad]. *)
Theorem pow_zero_base (so : SetOrder) (h : heap) (z : ref) (p : R) (fuel : nat) :
  wf h -> (z < length h)%nat -> (length h < fuel)%nat ->
  value (deref h z) = 0 ->
  (p < 0 -> Scalar_pow so h z p = ZeroDivisionError) /\
  (0 <= p < 1 ->
   exists h' r,
     Scalar_pow so h z p = Ok (h', r) /\
     value (deref h' r) = (if Req_dec_T p 0 then 1 else 0) /\
     backward fuel h' r = Some (set_grad h' r 1, ZeroDivisionError) /\
     forall m, m <> r -> deref (set_grad h' r 1) m = deref h' m) /\
  (1 < p ->
   exists h' r hf res,
     Scalar_pow so h z p = Ok (h', r) /\
     value (deref h' r) = 0 /\
     backward fuel h' r = Some (hf, res) /\
     grad (deref hf z) = grad (deref h z) + p * 0 /\
     (no_raise h z -> res = Ok tt)).
Proof.
  intros W Hz Hf V; split; [|split].
  - intros Hp; apply Scalar_pow_zero_division; rewrite V.
    apply py_pow_zero_negative; exact Hp.
  - intros [H0 H1].
    assert (Fw : py_pow (value (deref h z)) p = Ok (if Req_dec_T p 0 then 1 else 0)).
    { rewrite V; destruct (Req_dec_T p 0) as [->|Hne].
      - apply py_pow_zero_exponent.
      - apply py_pow_zero_positive; lra. }
    assert (Bw : py_pow (value (deref h z)) (p - 1) = ZeroDivisionError).
    { rewrite V; apply py_pow_zero_negative; lra. }
    eexists; eexists.
    split; [apply (pow_built so h z p _ Fw)|].
    rewrite deref_app_new; split; [reflexivity|].
    split; [apply (pow_backward_raises so h z p _ fuel W Hz Hf Bw)|].
    intros m Hm; unfold set_grad; apply deref_update_other; exact Hm.
  - intros Hp.
    assert (Fw : py_pow (value (deref h z)) p = Ok 0).
    { rewrite V; apply py_pow_zero_positive; lra. }
    assert (Bw : py_pow (value (deref h z)) (p - 1) = Ok 0).
    { rewrite V; apply py_pow_zero_positive; lra. }
    destruct (pow_backward so h z p 0 fuel W Hz Hf 0 Bw) as (hf & res & E & G & NR).
    eexists; eexists; exists hf, res.
    split; [apply (pow_built so h z p 0 Fw)|].
    rewrite deref_app_new; auto.
Qed.

(** The witness: [z = Scalar(0); r = z ** 0.5; r.backward()]. *)
Lemma pow_zero_base_witness :
  wf zero_leaf /\ (0 < length zero_leaf)%nat /\ (length zero_leaf < 2)%nat /\
  value (deref zero_leaf 0) = 0 /\
  exists h' r,
    Scalar_pow insertion_order zero_leaf 0 (5 / 10) = Ok (h', r) /\
    backward 2 h' r = Some (set_grad h' r 1, ZeroDivisionError).
Proof.
  assert (W : wf zero_leaf) by apply leaves_wf.
  assert (A : (0 < length zero_leaf)%nat) by (simpl; lia).
  assert (F : (length zero_leaf < 2)%nat) by (simpl; lia).
  assert (V : value (deref zero_leaf 0) = 0) by reflexivity.
  repeat (split; [assumption|]).
  destruct (pow_zero_base insertion_order zero_leaf 0 (5 / 10) 2 W A F V)
    as (_ & G & _).
  destruct G as (h' & r & E & _ & B & _); [lra|].
  exists h', r; auto.
Defined.

(** ** Sums with a small support *)

Lemma sum_over_remove f x l :
  NoDup l -> In x l -> sum_over f l = f x + sum_over f (remove Nat.eq_dec x l).
Proof.
  induction l as [|y t IH]; intros ND Hx; [destruct Hx|].
  inversion ND as [|? ? Hy ND']; subst; simpl.
  destruct (Nat.eq_dec x y) as [->|Hne].
  - rewrite notin_remove by exact Hy; reflexivity.
  - destruct Hx as [->|Hx]; [congruence|].
    simpl; rewrite IH by assumption; ring.
Qed.

Lemma NoDup_after_remove (x : nat) l : NoDup l -> NoDup (remove Nat.eq_dec x l).
Proof.
  induction 1 as [|y t Hy ND IH]; simpl; [constructor|].
  destruct (Nat.eq_dec x y); auto.
  constructor; auto; intros Hin; apply in_remove in Hin; tauto.
Qed.

(** A sum over a duplicate-free list whose terms vanish outside a
    duplicate-free sublist. *)
Lemma sum_over_support f s : forall l,
  NoDup l -> NoDup s -> (forall x, In x s -> In x l) ->
  (forall x, In x l -> ~ In x s -> f x = 0) ->
  sum_over f l = sum_over f s.
Proof.
  induction s as [|x t IH]; intros l NDl NDs Hs Hz.
  - apply sum_over_zero; intros d Hd; apply Hz; auto.
  - inversion NDs as [|? ? Hx NDt]; subst; simpl.
    rewrite (sum_over_remove f x l NDl) by (apply Hs; simpl; auto).
    f_equal; apply IH; auto.
    + apply NoDup_after_remove; exact NDl.
    + intros y Hy; apply in_in_remove; [intros ->; contradiction|].
      apply Hs; simpl; auto.
    + intros y Hy Hny; apply in_remove in Hy; destruct Hy as [Hy Hne].
      apply Hz; [exact Hy|simpl; intros [E|E]; [congruence|contradiction]].
Qed.

(** ** The adjoint equations on a support *)

(** The equations of [backward] when no rule raises: the sums range over
    [toposort]. *)
Lemma backward_equations_safe h root fuel :
  wf h -> (root < length h)%nat -> (root < fuel)%nat -> no_raise h root ->
  exists l hf,
    backward fuel h root = Some (hf, Ok tt) /\
    NoDup (l ++ [root]) /\
    (forall x, In x (l ++ [root]) <-> reachable h root x) /\
    grad (deref hf root) = 1 /\
    forall n, n <> root ->
      grad (deref hf n) =
      grad (deref h n)
      + sum_over (fun d => coefficient h d n * grad (deref hf d)) (l ++ [root]).
Proof.
  intros W Hr Hf NR.
  destruct (backward_equations h root fuel W Hr Hf)
    as (vis & l & called & hf & r & _ & E & ND & RE & _ & _ & S & _ & G1 & G).
  destruct (S NR) as [-> ->].
  exists l, hf; split; [exact E|split; [exact ND|split; [exact RE|split; [exact G1|]]]].
  intros n Hn; rewrite (G n Hn), sum_over_rev; reflexivity.
Qed.

(** The equations of [backward] with every sum restricted to a list of
    reachable nodes outside which the local derivatives vanish. *)
Lemma backward_support h root fuel :
  wf h -> (root < length h)%nat -> (root < fuel)%nat -> no_raise h root ->
  exists hf,
    backward fuel h root = Some (hf, Ok tt) /\
    grad (deref hf root) = 1 /\
    forall n s,
      n <> root -> NoDup s ->
      (forall x, In x s -> reachable h root x) ->
      (forall d, reachable h root d -> ~ In d s -> coefficient h d n = 0) ->
      grad (deref hf n) =
      grad (deref h n) + sum_over (fun d => coefficient h d n * grad (deref hf d)) s.
Proof.
  intros W Hr Hf NR.
  destruct (backward_equations_safe h root fuel W Hr Hf NR)
    as (l & hf & E & ND & RE & G1 & G).
  exists hf; split; [exact E|split; [exact G1|]].
  intros n s Hn NDs Hs Hz; rewrite (G n Hn); f_equal.
  apply sum_over_support; auto.
  - intros x Hx; apply RE, Hs, Hx.
  - intros x Hx Hnx; rewrite Hz; [ring|apply RE; exact Hx|exact Hnx].
Qed.

(** ** Old nodes below new ones *)

Section Extension.

Variables (h t : heap) (root : ref) (entries : list ref).
Hypothesis H_wf : wf (h ++ t).
Hypothesis root_new : (length h <= root)%nat.
Hypothesis entries_spec :
  forall k o, (length h <= k)%nat -> In o (_ancestors (deref (h ++ t) k)) ->
              (o < length h)%nat -> In o entries.

(** An old node reachable from a new root is reachable, in the old heap,
    from an old node that is an ancestor of a new one. *)
Lemma old_reachable d :
  reachable (h ++ t) root d -> (d < length h)%nat ->
  exists o, In o entries /\ (o < length h)%nat /\ reachable h o d.
Proof.
  intros R; induction R as [|v w R IH Hw]; intros Hd; [lia|].
  destruct (Nat.lt_ge_cases v (length h)) as [Hv|Hv].
  - destruct (IH Hv) as (o & Ho & Hlt & Ro); exists o; split; [exact Ho|].
    split; [exact Hlt|].
    rewrite deref_app_old in Hw by exact Hv; eapply reach_step; eauto.
  - exists w; split; [eapply entries_spec; eauto|split; [exact Hd|apply reach_refl]].
Qed.

(** The closure of an old node reachable from the root adds nothing to a
    node that none of the entries depends on. *)
Lemma old_coefficient_zero d m :
  reachable (h ++ t) root d -> (d < length h)%nat ->
  (forall o, In o entries -> ~ depends h o m) ->
  coefficient (h ++ t) d m = 0.
Proof.
  intros R Hd Hm.
  destruct (Req_dec (coefficient (h ++ t) d m) 0) as [Z|NZ]; [exact Z|exfalso].
  apply coefficient_operand in NZ.
  destruct (wf_operands_in_range _ d m H_wf NZ) as (Ha & _).
  rewrite deref_app_old in Ha by exact Hd.
  destruct (old_reachable d R Hd) as (o & Ho & _ & Ro).
  apply (Hm o Ho); exists d; auto.
Qed.

End Extension.

Lemma closure_in_range h d :
  _backward (deref h d) <> NoOp -> (d < length h)%nat.
Proof.
  intros H; destruct (Nat.lt_ge_cases d (length h)) as [Hd|Hd]; [exact Hd|].
  rewrite deref_out_of_range in H by exact Hd; exfalso; apply H; reflexivity.
Qed.

Lemma coefficient_leaf h d n : _backward (deref h d) = NoOp -> coefficient h d n = 0.
Proof.
  unfold coefficient, increments; intros E.
  rewrite (proj1 (proj2 (seeded_graph h d d))), E; reflexivity.
Qed.

Lemma coefficient_add h d a b n :
  _backward (deref h d) = AddBackward a b ->
  coefficient h d n = (if Nat.eqb a n then 1 else 0) + (if Nat.eqb b n then 1 else 0).
Proof.
  unfold coefficient, increments; intros E.
  rewrite (proj1 (proj2 (seeded_graph h d d))), E; simpl.
  rewrite seeded_grad by (apply closure_in_range; rewrite E; discriminate).
  ring.
Qed.

Lemma coefficient_mul h d a b n :
  _backward (deref h d) = MulBackward a b ->
  coefficient h d n =
  (if Nat.eqb a n then value (deref h b) else 0)
  + (if Nat.eqb b n then value (deref h a) else 0).
Proof.
  unfold coefficient, increments; intros E.
  rewrite (proj1 (proj2 (seeded_graph h d d))), E; simpl.
  rewrite seeded_grad by (apply closure_in_range; rewrite E; discriminate).
  rewrite !(proj1 (seeded_graph h d _)).
  destruct (Nat.eqb a n), (Nat.eqb b n); ring.
Qed.

(** ** Subtraction and negation *)

Lemma deref_app_plus h t i : deref (h ++ t) (length h + i) = nth i t null.
Proof. unfold deref; apply app_nth2_plus. Qed.

Lemma wf_app_leaf so h v : wf h -> wf (h ++ [mkScalar v 0 NoOp (iter_of so [])]).
Proof. intros W; apply (wf_leaf so h v W). Qed.

Section Subtraction.

Context (so : SetOrder).
Variables (h : heap) (a b : ref) (fuel : nat).
Hypothesis h_wf : wf h.
Hypothesis a_in : (a < length h)%nat.
Hypothesis b_in : (b < length h)%nat.
Hypothesis enough : (S (S (length h)) < fuel)%nat.
Hypothesis a_safe : no_raise h a.
Hypothesis b_safe : no_raise h b.

Let L : nat := length h.
Let c : Scalar := mkScalar (-1) 0 NoOp (iter_of so []).
Let n : Scalar :=
  mkScalar (value (deref h b) * -1) 0 (MulBackward b (L + 0)) (iter_of so [b; (L + 0)%nat]).
Let r : Scalar :=
  mkScalar (value (deref h a) + value (deref h b) * -1) 0
    (AddBackward a (L + 1)) (iter_of so [a; (L + 1)%nat]).
Let H : heap := h ++ [c; n; r].

Lemma Scalar_sub_node : Scalar_sub so h a (Node b) = (H, (L + 2)%nat).
Proof.
  unfold Scalar_sub, neg_operand, Scalar_neg.
  rewrite Scalar_mul_num, Scalar_mul_node; simpl fst.
  rewrite Scalar_add_node.
  rewrite deref_app_new.
  rewrite !(deref_app_old _ [_] b), !(deref_app_old _ [_] a)
    by (rewrite ?length_app; simpl; lia).
  rewrite deref_app_new; simpl value.
  unfold H, n, r, c, L; rewrite !length_app; simpl length.
  rewrite <- !app_assoc; simpl app.
  rewrite !Nat.add_0_r, !Nat.add_1_r.
  replace (length h + 2)%nat with (S (S (length h))) by lia.
  reflexivity.
Qed.

Lemma sub_length : length H = (L + 3)%nat.
Proof. unfold H, L; rewrite length_app; simpl; lia. Qed.

Lemma sub_old k : (k < L)%nat -> deref H k = deref h k.
Proof. intros Hk; apply deref_app_old; exact Hk. Qed.

Lemma sub_wf : wf H.
Proof.
  unfold H; change [c; n; r] with ([c] ++ [n] ++ [r]); rewrite !app_assoc.
  apply wf_binary; rewrite ?length_app; simpl; fold L; auto; try lia.
  apply wf_binary; rewrite ?length_app; simpl; fold L; auto; try lia.
  apply wf_app_leaf; exact h_wf.
Qed.

Lemma sub_entries k o :
  (L <= k)%nat -> In o (_ancestors (deref H k)) -> (o < L)%nat -> In o [a; b].
Proof.
  intros Hk Ho Hlt.
  destruct (Nat.lt_ge_cases k (L + 3)) as [Hk3|Hk3].
  - replace k with (L + (k - L))%nat in Ho by lia.
    unfold H, L in Ho; rewrite deref_app_plus in Ho.
    assert (Hc : ((k - L) = 0 \/ (k - L) = 1 \/ (k - L) = 2)%nat) by lia.
    fold L in Ho; destruct Hc as [E|[E|E]]; rewrite E in Ho; simpl in Ho;
      apply iter_of_In in Ho; simpl in Ho; simpl;
      repeat match goal with Hd : _ \/ _ |- _ => destruct Hd end;
      try contradiction; try lia; subst; auto.
  - rewrite deref_out_of_range in Ho by (rewrite sub_length; lia); destruct Ho.
Qed.

Lemma sub_reachable :
  reachable H (L + 2) (L + 2) /\ reachable H (L + 2) (L + 1).
Proof.
  split; [apply reach_refl|].
  eapply reach_step; [apply reach_refl|].
  unfold H, L; rewrite deref_app_plus; simpl; apply iter_of_In; simpl; auto.
Qed.

(** Among the reachable nodes, only the sum and the negation can have an
    old node that neither operand depends on among their operands. *)
Lemma sub_support m d :
  (m < L)%nat -> ~ depends h a m -> ~ depends h b m ->
  reachable H (L + 2) d -> ~ In d [(L + 1)%nat; (L + 2)%nat] ->
  coefficient H d m = 0.
Proof.
  intros Hm Da Db R Hd.
  assert (Hle : (d <= L + 2)%nat).
  { apply (reachable_le H sub_wf (L + 2) d); [rewrite sub_length; lia|exact R]. }
  destruct (Nat.lt_ge_cases d L) as [Hold|Hnew].
  - apply (old_coefficient_zero h [c; n; r] (L + 2) [a; b] sub_wf); auto.
    + unfold L; lia.
    + intros k o; apply sub_entries.
    + intros o [<-|[<-|[]]]; assumption.
  - assert (d = L + 0)%nat by (simpl in Hd; lia); subst d.
    apply coefficient_leaf; unfold H, L; rewrite deref_app_plus; reflexivity.
Qed.

Lemma sub_no_raise : no_raise H (L + 2).
Proof.
  assert (Old : forall o, (o < L)%nat -> no_raise h o -> no_raise H o).
  { intros o Ho No; apply no_raise_app_old; auto; exact sub_wf. }
  apply no_raise_node.
  - apply (safe_add _ _ a (L + 1)); unfold H, L; rewrite deref_app_plus; reflexivity.
  - unfold H at 1, L at 1; rewrite deref_app_plus; simpl.
    intros x Hx; apply iter_of_In in Hx; destruct Hx as [<-|[<-|[]]]; auto.
    apply no_raise_node.
    + apply (safe_mul _ _ b (L + 0)); unfold H, L; rewrite deref_app_plus; reflexivity.
    + unfold H at 1, L at 1; rewrite deref_app_plus; simpl.
      intros y Hy; apply iter_of_In in Hy; destruct Hy as [<-|[<-|[]]]; auto.
      apply leaf_no_raise; unfold H, L; rewrite deref_app_plus; simpl; auto.
      apply iter_of_nil.
Qed.

(** [root = a - b; root.backward()], when no rule raises. *)
Lemma backward_sub_node :
  exists hf,
    backward fuel H (L + 2) = Some (hf, Ok tt) /\
    (~ depends h b a ->
     grad (deref hf a) =
     grad (deref h a) + 1 + (if Nat.eqb b a then -1 else 0)) /\
    (~ depends h a b ->
     grad (deref hf b) =
     grad (deref h b) + (if Nat.eqb a b then 1 else 0) + -1).
Proof.
  destruct (backward_support H (L + 2) fuel sub_wf) as (hf & E & G1 & G).
  { rewrite sub_length; lia. }
  { unfold L; lia. }
  { exact sub_no_raise. }
  exists hf; split; [exact E|].
  destruct sub_reachable as [Rr Rn].
  assert (Cn : _backward (deref H (L + 1)) = MulBackward b (L + 0))
    by (unfold H, L; rewrite deref_app_plus; reflexivity).
  assert (Cr : _backward (deref H (L + 2)) = AddBackward a (L + 1))
    by (unfold H, L; rewrite deref_app_plus; reflexivity).
  assert (Vc : value (deref H (L + 0)) = -1)
    by (unfold H, L; rewrite deref_app_plus; reflexivity).
  assert (Gn : grad (deref hf (L + 1)) = 1).
  { rewrite (G (L + 1)%nat [(L + 2)%nat]); try lia.
    - unfold H at 1, L at 1; rewrite deref_app_plus; simpl.
      rewrite (coefficient_add H _ a (L + 1)) by exact Cr.
      rewrite G1, Nat.eqb_refl.
      destruct (Nat.eqb_spec a (L + 1)); [unfold L in *; lia|ring].
    - repeat constructor; simpl; tauto.
    - intros x [<-|[]]; exact Rr.
    - intros d R Hd.
      destruct (Req_dec (coefficient H d (L + 1)) 0) as [Z|NZ]; [exact Z|exfalso].
      apply coefficient_operand in NZ.
      destruct (wf_operands_in_range _ d _ sub_wf NZ) as (_ & Hlt & Hlen).
      rewrite sub_length in Hlen; apply Hd; simpl; lia. }
  assert (NDs : NoDup [(L + 1)%nat; (L + 2)%nat]).
  { repeat constructor; simpl; try tauto; lia. }
  assert (Rs : forall x, In x [(L + 1)%nat; (L + 2)%nat] -> reachable H (L + 2) x).
  { intros x [<-|[<-|[]]]; assumption. }
  assert (Main : forall m, (m < L)%nat -> ~ depends h a m -> ~ depends h b m ->
            grad (deref hf m) =
            grad (deref h m)
            + ((if Nat.eqb b m then -1 else 0)
               + ((if Nat.eqb a m then 1 else 0) + 0))).
  { intros m Hm Da Db.
    rewrite (G m [(L + 1)%nat; (L + 2)%nat]); auto; try lia.
    - rewrite sub_old by exact Hm; f_equal; simpl.
      rewrite (coefficient_mul H _ b (L + 0)) by exact Cn.
      rewrite (coefficient_add H _ a (L + 1)) by exact Cr.
      rewrite Gn, G1, Vc.
      destruct (Nat.eqb_spec (L + 0) m); [lia|].
      destruct (Nat.eqb_spec (L + 1) m); [lia|].
      ring.
    - intros d R Hd; apply sub_support; auto. }
  split; intros Hd.
  - rewrite (Main a a_in (not_depends_self h a h_wf a_in) Hd).
    rewrite Nat.eqb_refl; ring.
  - rewrite (Main b b_in Hd (not_depends_self h b h_wf b_in)).
    rewrite Nat.eqb_refl; ring.
Qed.

End Subtraction.

(** X6.  Negation and subtraction.  [-a] is [a * -1]: it has value
    [- a.value], and [backward()] on it, whether it returns or a rule of
    [a] or below raises, leaves [a.grad] grown by [-1].  [a - b] on two
    nodes is resolved to [__sub__], i.e. [a + (b * -1)]: it has value
    [a.value - b.value], and when no rule of [a], [b] or below raises,
    [backward()] on it returns and an operand that is not a proper
    ancestor of the other has received [+1] as the left operand and [-1]
    as the right operand (both when [a] and [b] are the same node, so that
    [x - x] leaves [x.grad] unchanged). *)
Theorem neg_sub_correct (so : SetOrder) (h : heap) (a b : ref) (fuel : nat) :
  wf h -> (a < length h)%nat -> (b < length h)%nat ->
  (S (S (length h)) < fuel)%nat ->
  let m := Scalar_neg so h a in
  let d := Scalar_sub so h a (Node b) in
  (value (deref (fst m) (snd m)) = - value (deref h a) /\
   exists hf r,
     backward fuel (fst m) (snd m) = Some (hf, r) /\
     grad (deref hf a) = grad (deref h a) + -1 /\
     (no_raise h a -> r = Ok tt)) /\
  binary so OpSub h (Node a) (Node b) = Ok (fst d, Node (snd d)) /\
  value (deref (fst d) (snd d)) = value (deref h a) - value (deref h b) /\
  (no_raise h a -> no_raise h b ->
   exists hf,
     backward fuel (fst d) (snd d) = Some (hf, Ok tt) /\
     (~ depends h b a ->
      grad (deref hf a) =
      grad (deref h a) + 1 + (if Nat.eqb b a then -1 else 0)) /\
     (~ depends h a b ->
      grad (deref hf b) =
      grad (deref h b) + (if Nat.eqb a b then 1 else 0) + -1)).
Proof.
  intros W Ha Hb Hf m d; split; [|split; [reflexivity|]].
  - subst m; unfold Scalar_neg.
    destruct (backward_mul_num so h a (-1) fuel W Ha) as (V & hf & r & E & G & NR);
      [lia|].
    split; [rewrite V; ring|].
    exists hf, r; split; [exact E|split; [rewrite G; ring|exact NR]].
  - subst d; rewrite (Scalar_sub_node so h a b fuel Ha Hb Hf); simpl fst; simpl snd.
    split.
    + rewrite deref_app_plus; simpl; ring.
    + intros Na Nb; apply backward_sub_node; assumption.
Qed.

(** The witness: [a = Scalar(2); b = Scalar(3); d = a - b]. *)
Lemma neg_sub_correct_witness :
  wf two_leaves /\ (0 < length two_leaves)%nat /\ (1 < length two_leaves)%nat /\
  (S (S (length two_leaves)) < 5)%nat /\
  value (deref (fst (Scalar_sub insertion_order two_leaves 0 (Node 1)))
           (snd (Scalar_sub insertion_order two_leaves 0 (Node 1)))) = 2 - 3 /\
  exists hf,
    backward 5 (fst (Scalar_sub insertion_order two_leaves 0 (Node 1)))
      (snd (Scalar_sub insertion_order two_leaves 0 (Node 1))) = Some (hf, Ok tt) /\
    grad (deref hf 0) = 0 + 1 + 0 /\
    grad (deref hf 1) = 0 + 0 + -1.
Proof.
  assert (W : wf two_leaves) by apply leaves_wf.
  assert (A : (0 < length two_leaves)%nat) by (simpl; lia).
  assert (B : (1 < length two_leaves)%nat) by (simpl; lia).
  assert (F : (S (S (length two_leaves)) < 5)%nat) by (simpl; lia).
  repeat (split; [assumption|]).
  destruct (neg_sub_correct insertion_order two_leaves 0 1 5 W A B F)
    as (_ & _ & V & G).
  split; [exact V|].
  destruct (G (leaves_no_raise _ 0) (leaves_no_raise _ 1)) as (hf & E & Ga & Gb).
  exists hf; split; [exact E|split].
  - apply Ga, leaf_not_depends; reflexivity.
  - apply Gb, leaf_not_depends; reflexivity.
Defined.

(** ** Heaps built through the class *)

Lemma promoted_wf so h a o :
  wf h -> (a < length h)%nat -> operand_ok h o ->
  wf (fst (promote so h o)) /\
  (a < length (fst (promote so h o)))%nat /\
  (snd (promote so h o) < length (fst (promote so h o)))%nat.
Proof.
  intros W Ha Ho; destruct o as [c|r]; simpl.
  - split; [apply (wf_leaf so); exact W|].
    rewrite length_app; simpl; lia.
  - auto.
Qed.

Lemma Scalar_pow_inv so h a p h' r :
  Scalar_pow so h a p = Ok (h', r) ->
  exists v,
    py_pow (value (deref h a)) p = Ok v /\
    h' = h ++ [mkScalar v 0 (PowBackward a p) (iter_of so [a])] /\ r = length h.
Proof.
  intros E; destruct (py_pow (value (deref h a)) p) as [v| | | |] eqn:Ev;
    try (unfold Scalar_pow in E; rewrite Ev in E; discriminate).
  rewrite (Scalar_pow_node so h a p v Ev) in E; injection E as <- <-.
  exists v; auto.
Qed.

Lemma Scalar_tanh_inv so h a h' r :
  Scalar_tanh so h a = Ok (h', r) ->
  exp (2 * value (deref h a)) <= float_max /\
  h' = h ++ [mkScalar (tanh (value (deref h a))) 0
               (TanhBackward a (tanh (value (deref h a)))) (iter_of so [a])] /\
  r = length h.
Proof.
  intros E; destruct (Rle_dec (exp (2 * value (deref h a))) float_max) as [F|F].
  - rewrite (tanh_built so h a F) in E; injection E as <- <-; auto.
  - rewrite Scalar_tanh_overflow in E by lra; discriminate.
Qed.

Lemma Scalar_gelu_inv so h a h' r :
  Scalar_gelu so h a = Ok (h', r) ->
  exp (2 * gelu_inner (value (deref h a))) <= float_max /\
  h' = h ++ [mkScalar (gelu_approx (value (deref h a))) 0
               (GeluBackward a (value (deref h a)) (gelu_inner (value (deref h a))))
               (iter_of so [a])] /\
  r = length h.
Proof.
  intros E.
  destruct (Rle_dec (exp (2 * gelu_inner (value (deref h a)))) float_max) as [F|F].
  - rewrite (gelu_built so h a F), gelu_forward_value in E.
    injection E as <- <-; auto.
  - rewrite Scalar_gelu_overflow in E by lra; discriminate.
Qed.

(** Every heap built through the class is well formed: the ancestors of a
    node were allocated before it, so the graph is acyclic, and they are
    the nodes its closure writes to. *)
Lemma built_wf so h : built so h -> wf h.
Proof.
  induction 1 as [|h v B W|h a o B W Ha Ho|h a o B W Ha Ho|h a p h' r B W Ha E
                  |h a h' r B W Ha E|h a B W Ha|h a h' r B W Ha E].
  - apply wf_nil.
  - apply wf_leaf; exact W.
  - destruct (promoted_wf so h a o W Ha Ho) as (W1 & A1 & B1).
    unfold Scalar_add; destruct (promote so h o) as [h1 b]; simpl in W1, A1, B1.
    change (wf (fst (Scalar_add so h1 a (Node b)))).
    rewrite Scalar_add_node; apply wf_binary; auto.
  - destruct (promoted_wf so h a o W Ha Ho) as (W1 & A1 & B1).
    unfold Scalar_mul; destruct (promote so h o) as [h1 b]; simpl in W1, A1, B1.
    change (wf (fst (Scalar_mul so h1 a (Node b)))).
    rewrite Scalar_mul_node; apply wf_binary; auto.
  - apply Scalar_pow_inv in E; destruct E as (v & _ & -> & _).
    apply wf_unary; auto.
  - apply Scalar_tanh_inv in E; destruct E as (_ & -> & _).
    apply wf_unary; auto.
  - rewrite Scalar_relu_node; apply wf_unary; auto.
  - apply Scalar_gelu_inv in E; destruct E as (_ & -> & _).
    apply wf_unary; auto.
Qed.

(** ** Two levels *)

(** The gradient of a node [m] whose only dependents among the reachable
    nodes are the root and a node [n] that only the root depends on. *)
Lemma grad_two_levels h root fuel n m :
  wf h -> (root < length h)%nat -> (root < fuel)%nat ->
  no_raise h root ->
  n <> root -> m <> root -> reachable h root n ->
  (forall d, reachable h root d -> d <> root -> coefficient h d n = 0) ->
  (forall d, reachable h root d -> d <> n -> d <> root -> coefficient h d m = 0) ->
  exists hf,
    backward fuel h root = Some (hf, Ok tt) /\
    grad (deref hf m) =
    grad (deref h m)
    + (coefficient h n m * (grad (deref h n) + coefficient h root n)
       + coefficient h root m).
Proof.
  intros W Hr Hf NR Hn Hm Rn Zn Zm.
  destruct (backward_support h root fuel W Hr Hf NR) as (hf & E & G1 & G).
  exists hf; split; [exact E|].
  assert (Gn : grad (deref hf n) = grad (deref h n) + coefficient h root n).
  { rewrite (G n [root]); auto.
    - simpl; rewrite G1; ring.
    - repeat constructor; simpl; tauto.
    - intros x [<-|[]]; apply reach_refl.
    - intros d R Hd; apply Zn; [exact R|simpl in Hd; intros ->; tauto]. }
  rewrite (G m [n; root]); auto.
  - simpl; rewrite Gn, G1; ring.
  - repeat constructor; simpl; try tauto; intros [E'|[]]; congruence.
  - intros x [<-|[<-|[]]]; [exact Rn|apply reach_refl].
  - intros d R Hd; apply Zm; [exact R| |]; intros ->; apply Hd; simpl; auto.
Qed.

(** A node has non-zero local derivatives only with respect to older
    nodes. *)
Lemma coefficient_older h d n :
  wf h -> (d <= n)%nat -> coefficient h d n = 0.
Proof.
  intros W Hle.
  destruct (Req_dec (coefficient h d n) 0) as [Z|NZ]; [exact Z|exfalso].
  apply coefficient_operand in NZ.
  destruct (wf_operands_in_range h d n W NZ) as (_ & Hlt & _); lia.
Qed.

(** ** The constructors keep heaps well formed *)

Lemma Scalar_mul_wf so h a o :
  wf h -> (a < length h)%nat -> operand_ok h o -> wf (fst (Scalar_mul so h a o)).
Proof.
  intros W Ha Ho; destruct (promoted_wf so h a o W Ha Ho) as (W1 & A1 & B1).
  unfold Scalar_mul; destruct (promote so h o) as [h1 b]; simpl in W1, A1, B1.
  change (wf (fst (Scalar_mul so h1 a (Node b)))).
  rewrite Scalar_mul_node; apply wf_binary; auto.
Qed.

Lemma Scalar_add_wf so h a o :
  wf h -> (a < length h)%nat -> operand_ok h o -> wf (fst (Scalar_add so h a o)).
Proof.
  intros W Ha Ho; destruct (promoted_wf so h a o W Ha Ho) as (W1 & A1 & B1).
  unfold Scalar_add; destruct (promote so h o) as [h1 b]; simpl in W1, A1, B1.
  change (wf (fst (Scalar_add so h1 a (Node b)))).
  rewrite Scalar_add_node; apply wf_binary; auto.
Qed.

(** ** Reflected subtraction *)

Ltac deref_norm :=
  repeat (rewrite deref_app_new
          || rewrite deref_app_old by (rewrite ?length_app; simpl; lia)).

Ltac flat_heap :=
  rewrite ?length_app; simpl length; rewrite <- ?app_assoc; simpl app;
  rewrite ?Nat.add_0_r, ?Nat.add_1_r;
  repeat (f_equal; try lia).

Section ReflectedSubtraction.

Context (so : SetOrder).
Variables (h : heap) (x : ref) (c : R) (fuel : nat).
Hypothesis h_wf : wf h.
Hypothesis x_in : (x < length h)%nat.
Hypothesis enough : (length h + 3 < fuel)%nat.
Hypothesis x_safe : no_raise h x.

Let L : nat := length h.
Let l1 : Scalar := mkScalar (-1) 0 NoOp (iter_of so []).
Let n : Scalar :=
  mkScalar (value (deref h x) * -1) 0 (MulBackward x (L + 0))
    (iter_of so [x; (L + 0)%nat]).
Let l2 : Scalar := mkScalar c 0 NoOp (iter_of so []).
Let r : Scalar :=
  mkScalar (value (deref h x) * -1 + c) 0 (AddBackward (L + 1) (L + 2))
    (iter_of so [(L + 1)%nat; (L + 2)%nat]).
Let H : heap := h ++ [l1; n; l2; r].

Lemma Scalar_rsub_node : Scalar_rsub so h x (Num c) = (H, (L + 3)%nat).
Proof using x_in.
  clear enough h_wf x_safe.
  unfold Scalar_rsub, Scalar_radd, Scalar_neg.
  rewrite Scalar_mul_num, Scalar_mul_node; simpl fst.
  rewrite Scalar_add_num; simpl fst; rewrite Scalar_add_node.
  deref_norm; simpl value.
  unfold H, r, l2, n, l1, L; flat_heap.
Qed.

Lemma rsub_wf : wf H.
Proof using h_wf x_in.
  clear enough x_safe.
  replace H with (fst (Scalar_rsub so h x (Num c))) by (rewrite Scalar_rsub_node; reflexivity).
  unfold Scalar_rsub, Scalar_radd, Scalar_neg.
  pose proof (Scalar_mul_wf so h x (Num (-1)) h_wf x_in I) as W1.
  destruct (Scalar_mul_ext so h x (Num (-1)) x_in I) as (t & E & Lt & _).
  destruct (Scalar_mul so h x (Num (-1))) as [h1 m]; simpl in W1, E, Lt.
  apply Scalar_add_wf; [exact W1|subst h1; exact Lt|exact I].
Qed.

Lemma rsub_length : length H = (L + 4)%nat.
Proof using Type. clear enough x_in h_wf x_safe; unfold H, L; rewrite length_app; simpl; lia. Qed.

Lemma rsub_no_raise : no_raise H (L + 3).
Proof.
  apply no_raise_node.
  - apply (safe_add _ _ (L + 1) (L + 2)); unfold H, L; rewrite deref_app_plus; reflexivity.
  - unfold H at 1, L at 1; rewrite deref_app_plus; simpl.
    intros y Hy; apply iter_of_In in Hy; destruct Hy as [<-|[<-|[]]].
    + apply no_raise_node.
      * apply (safe_mul _ _ x (L + 0)); unfold H, L; rewrite deref_app_plus; reflexivity.
      * unfold H at 1, L at 1; rewrite deref_app_plus; simpl.
        intros z Hz; apply iter_of_In in Hz; destruct Hz as [<-|[<-|[]]].
        -- apply no_raise_app_old; auto; exact rsub_wf.
        -- apply leaf_no_raise; unfold H, L; rewrite deref_app_plus; simpl; auto.
           apply iter_of_nil.
    + apply leaf_no_raise; unfold H, L; rewrite deref_app_plus; simpl; auto.
      apply iter_of_nil.
Qed.

Lemma backward_rsub :
  exists hf,
    backward fuel H (L + 3) = Some (hf, Ok tt) /\
    grad (deref hf x) = grad (deref h x) + -1.
Proof.
  assert (Cn : _backward (deref H (L + 1)) = MulBackward x (L + 0))
    by (unfold H, L; rewrite deref_app_plus; reflexivity).
  assert (Cr : _backward (deref H (L + 3)) = AddBackward (L + 1) (L + 2))
    by (unfold H, L; rewrite deref_app_plus; reflexivity).
  assert (C0 : _backward (deref H (L + 0)) = NoOp)
    by (unfold H, L; rewrite deref_app_plus; reflexivity).
  assert (C2 : _backward (deref H (L + 2)) = NoOp)
    by (unfold H, L; rewrite deref_app_plus; reflexivity).
  assert (Rn : reachable H (L + 3) (L + 1)).
  { eapply reach_step; [apply reach_refl|].
    unfold H, L; rewrite deref_app_plus; simpl; apply iter_of_In; simpl; auto. }
  destruct (grad_two_levels H (L + 3) fuel (L + 1) x rsub_wf) as (hf & E & G);
    try (unfold L; lia); auto.
  - rewrite rsub_length; lia.
  - exact rsub_no_raise.
  - intros d R Hd.
    assert (Hle : (d <= L + 3)%nat).
    { apply (reachable_le H rsub_wf (L + 3) d); [rewrite rsub_length; lia|exact R]. }
    destruct (Nat.le_gt_cases d (L + 1)) as [Hold|Hnew].
    + apply coefficient_older; [exact rsub_wf|exact Hold].
    + assert (d = L + 2)%nat by lia; subst d; apply coefficient_leaf; exact C2.
  - intros d R Hd1 Hd3.
    assert (Hle : (d <= L + 3)%nat).
    { apply (reachable_le H rsub_wf (L + 3) d); [rewrite rsub_length; lia|exact R]. }
    destruct (Nat.lt_ge_cases d L) as [Hold|Hnew].
    + apply (old_coefficient_zero h [l1; n; l2; r] (L + 3) [x] rsub_wf); auto.
      * unfold L; lia.
      * intros k o Hk Ho Hlt.
        destruct (Nat.lt_ge_cases k (L + 4)) as [Hk4|Hk4].
        -- replace k with (L + (k - L))%nat in Ho by lia.
           fold H in Ho; unfold H, L in Ho; rewrite deref_app_plus in Ho.
           assert (Hc : ((k - L) = 0 \/ (k - L) = 1 \/ (k - L) = 2 \/ (k - L) = 3)%nat)
             by lia.
           fold L in Ho; destruct Hc as [Ek|[Ek|[Ek|Ek]]]; rewrite Ek in Ho;
             simpl in Ho; apply iter_of_In in Ho; simpl in Ho; simpl;
             repeat match goal with Hd : _ \/ _ |- _ => destruct Hd end;
             try contradiction; try lia; subst; auto.
        -- fold H in Ho; rewrite deref_out_of_range in Ho
             by (rewrite rsub_length; lia); destruct Ho.
      * intros o [<-|[]]; apply not_depends_self; auto.
    + assert (Hc : (d = L + 0 \/ d = L + 2)%nat) by lia.
      destruct Hc as [-> | ->]; apply coefficient_leaf; assumption.
  - exists hf; split; [exact E|].
    rewrite G, (coefficient_mul H _ x (L + 0)) by exact Cn.
    rewrite !(coefficient_add H _ (L + 1) (L + 2)) by exact Cr.
    assert (Gn : grad (deref H (L + 1)) = 0)
      by (unfold H, L; rewrite deref_app_plus; reflexivity).
    assert (V0 : value (deref H (L + 0)) = -1)
      by (unfold H, L; rewrite deref_app_plus; reflexivity).
    assert (Gx : deref H x = deref h x)
      by (unfold H; apply deref_app_old; exact x_in).
    rewrite Gn, Gx, V0; simpl.
    rewrite !Nat.eqb_refl.
    repeat match goal with
           | |- context [Nat.eqb ?u ?v] =>
               destruct (Nat.eqb_spec u v); [unfold L in *; lia|]
           end.
    ring.
Qed.

End ReflectedSubtraction.

(** X7.  Reflected subtraction.  [c - x] with a number on the left is
    resolved to [x.__rsub__(c)], i.e. [c + (x * -1)]: the result has value
    [c - x.value], it is the newest node of a heap that is still well
    formed, and when no rule of [x] or below raises, [backward()] on it
    returns and [x.grad] has grown by [-1].  Called with a node,
    [a.__rsub__(b)] builds what [b - a] builds. *)
Theorem rsub_correct (so : SetOrder) (h : heap) (x : ref) (c : R) (fuel : nat) :
  wf h -> (x < length h)%nat -> (length h + 3 < fuel)%nat ->
  let d := Scalar_rsub so h x (Num c) in
  binary so OpSub h (Num c) (Node x) = Ok (fst d, Node (snd d)) /\
  wf (fst d) /\ S (snd d) = length (fst d) /\
  value (deref (fst d) (snd d)) = c - value (deref h x) /\
  (no_raise h x ->
   exists hf,
     backward fuel (fst d) (snd d) = Some (hf, Ok tt) /\
     grad (deref hf x) = grad (deref h x) + -1) /\
  forall b, Scalar_rsub so h x (Node b) = Scalar_sub so h b (Node x).
Proof.
  intros W Hx Hf d; split; [reflexivity|].
  subst d; rewrite (Scalar_rsub_node so h x c Hx); simpl fst; simpl snd.
  split; [apply rsub_wf; assumption|].
  split; [rewrite rsub_length; lia|].
  split; [rewrite deref_app_plus; simpl; ring|].
  split; [intros Nx; apply backward_rsub; assumption|].
  intros b; unfold Scalar_rsub, Scalar_sub, neg_operand.
  destruct (Scalar_neg so h x); reflexivity.
Qed.

(** The witness: [b = Scalar(3); d = 10 - b]. *)
Lemma rsub_correct_witness :
  wf two_leaves /\ (1 < length two_leaves)%nat /\ (length two_leaves + 3 < 6)%nat /\
  value (deref (fst (Scalar_rsub insertion_order two_leaves 1 (Num 10)))
           (snd (Scalar_rsub insertion_order two_leaves 1 (Num 10)))) = 10 - 3 /\
  exists hf,
    backward 6 (fst (Scalar_rsub insertion_order two_leaves 1 (Num 10)))
      (snd (Scalar_rsub insertion_order two_leaves 1 (Num 10))) = Some (hf, Ok tt) /\
    grad (deref hf 1) = 0 + -1.
Proof.
  assert (W : wf two_leaves) by apply leaves_wf.
  assert (B : (1 < length two_leaves)%nat) by (simpl; lia).
  assert (F : (length two_leaves + 3 < 6)%nat) by (simpl; lia).
  repeat (split; [assumption|]).
  destruct (rsub_correct insertion_order two_leaves 1 10 6 W B F)
    as (_ & _ & _ & V & G & _).
  split; [exact V|exact (G (leaves_no_raise _ 1))].
Defined.

(** ** Programs stay within the real numbers *)

Lemma in_range_arithmetic v : arithmetic_outcome (in_range v).
Proof. unfold in_range; destruct (Rle_dec (Rabs v) float_max); exact I. Qed.

Lemma py_truediv_arithmetic x y : arithmetic_outcome (py_truediv x y).
Proof. unfold py_truediv; destruct (Req_dec_T y 0); exact I. Qed.

Lemma py_pow_arithmetic x p :
  py_pow x p <> Complex -> arithmetic_outcome (py_pow x p).
Proof.
  unfold py_pow; intros N.
  destruct (Req_dec_T p 0); [exact I|].
  destruct (Req_dec_T x 0); [destruct (Rlt_dec p 0); exact I|].
  destruct (Req_dec_T p (IZR (Int_part p))); [apply in_range_arithmetic|].
  destruct (Rlt_dec x 0); [congruence|apply in_range_arithmetic].
Qed.

Lemma in_range_not_complex v : in_range v <> Complex.
Proof. unfold in_range; destruct (Rle_dec (Rabs v) float_max); discriminate. Qed.

(** A power with an integral exponent is never complex. *)
Lemma py_pow_integral_real x z : py_pow x (IZR z) <> Complex.
Proof.
  assert (E : z = Int_part (IZR z)) by (apply Int_part_spec; lra).
  unfold py_pow; rewrite <- E.
  destruct (Req_dec_T (IZR z) 0); [discriminate|].
  destruct (Req_dec_T x 0); [destruct (Rlt_dec (IZR z) 0); discriminate|].
  destruct (Req_dec_T (IZR z) (IZR z)); [apply in_range_not_complex|tauto].
Qed.

(** When [x ** p] is a float, [x ** (p - 1)] is not complex: it is a
    float, or it raises. *)
Lemma py_pow_pred_real x p v :
  py_pow x p = Ok v -> py_pow x (p - 1) <> Complex.
Proof.
  intros E.
  destruct (Req_dec_T p (IZR (Int_part p))) as [I|NI].
  - rewrite I, <- minus_IZR; apply py_pow_integral_real.
  - unfold py_pow in E |- *.
    destruct (Req_dec_T p 0) as [->|_].
    { exfalso; apply NI; replace 0 with (IZR 0) by reflexivity.
      f_equal; apply Int_part_spec; simpl; lra. }
    destruct (Req_dec_T (p - 1) 0); [discriminate|].
    destruct (Req_dec_T x 0); [destruct (Rlt_dec (p - 1) 0); discriminate|].
    destruct (Req_dec_T p (IZR (Int_part p))); [contradiction|].
    destruct (Rlt_dec x 0); [discriminate|].
    destruct (Req_dec_T (p - 1) (IZR (Int_part (p - 1))));
      apply in_range_not_complex.
Qed.

Lemma discard_arithmetic (r : result R) :
  arithmetic_outcome r -> arithmetic_outcome (discard r).
Proof. destruct r; simpl; auto. Qed.

(** The closure of a node returns or raises an arithmetic exception, when
    the power the node was built with, if it is a power, is a float. *)
Lemma closure_arithmetic h n :
  (forall s p, _backward (deref h n) = PowBackward s p ->
     exists v, py_pow (value (deref h s)) p = Ok v) ->
  arithmetic_outcome (snd (local_backward h n)).
Proof.
  intros P; unfold local_backward.
  destruct (_backward (deref h n)) as [|a b|a b|a p|a y|a|a x inner]; simpl;
    try exact I.
  - destruct (P a p eq_refl) as [v Ev].
    pose proof (py_pow_arithmetic _ _ (py_pow_pred_real _ _ _ Ev)) as A.
    destruct (py_pow (value (deref h a)) (p - 1)); simpl in *; auto.
  - pose proof (py_pow_arithmetic y 2 (py_pow_integral_real y 2)) as A.
    destruct (py_pow y 2); simpl in *; auto.
  - pose proof (in_range_arithmetic (exp inner)) as A1.
    pose proof (in_range_arithmetic (exp (- inner))) as A2.
    unfold math_exp.
    destruct (in_range (exp inner)) as [e1| | | |]; simpl in *; auto.
    destruct (in_range (exp (- inner))) as [e2| | | |]; simpl in *; auto.
    pose proof (py_truediv_arithmetic 2 (e1 + e2)) as A3.
    destruct (py_truediv 2 (e1 + e2)); simpl in *; auto.
Qed.

(** The outcome of the loop of [backward] is the outcome of one of the
    closures it calls, or the loop returns. *)
Lemma run_closures_outcome (Q : result unit -> Prop) order :
  Q (Ok tt) ->
  forall h,
    (forall n h1, same_graph h h1 -> Q (snd (local_backward h1 n))) ->
    Q (snd (run_closures order h)).
Proof.
  intros Q0; induction order as [|n t IH]; intros h Hq; simpl; [exact Q0|].
  pose proof (Hq n h (same_graph_refl h)) as Hn.
  pose proof (heap_after_same_graph h n) as SG; unfold heap_after in SG.
  destruct (local_backward h n) as [h1 r]; simpl in Hn, SG.
  destruct r as [[]| | | |]; simpl; auto.
  apply IH; intros m h2 SG2; apply Hq.
  apply same_graph_trans with h1; assumption.
Qed.

(** In a heap built through the class, every power node was built from a
    power that is a float. *)
Lemma pow_defined_snoc h s :
  wf h ->
  (forall n a p, _backward (deref h n) = PowBackward a p ->
     exists v, py_pow (value (deref h a)) p = Ok v) ->
  (forall a p, _backward s = PowBackward a p ->
     (a < length h)%nat /\ exists v, py_pow (value (deref h a)) p = Ok v) ->
  forall n a p, _backward (deref (h ++ [s]) n) = PowBackward a p ->
    exists v, py_pow (value (deref (h ++ [s]) a)) p = Ok v.
Proof.
  intros W Old New n a p E.
  destruct (Nat.lt_ge_cases n (length h)) as [Hn|Hn].
  - rewrite deref_app_old in E by exact Hn.
    assert (Ha : (a < n)%nat).
    { apply (anc_lt _ _ (W n Hn)), (anc_operands _ _ (W n Hn)).
      rewrite E; simpl; auto. }
    rewrite deref_app_old by lia; apply (Old n a p E).
  - destruct (Nat.eq_dec n (length h)) as [->|Hne].
    + rewrite deref_app_new in E; destruct (New a p E) as [Ha Hv].
      rewrite deref_app_old by exact Ha; exact Hv.
    + rewrite deref_out_of_range in E by (rewrite length_app; simpl; lia).
      discriminate.
Qed.

Lemma built_pow_defined so h :
  built so h ->
  forall n a p, _backward (deref h n) = PowBackward a p ->
    exists v, py_pow (value (deref h a)) p = Ok v.
Proof.
  intros B; pose proof (built_wf so h B) as Wh; revert Wh.
  induction B as [|h v B IH|h a o B IH Ha Ho|h a o B IH Ha Ho|h a p h' r B IH Ha E
                  |h a h' r B IH Ha E|h a B IH Ha|h a h' r B IH Ha E]; intros _.
  - intros n a p E; rewrite deref_out_of_range in E by (simpl; lia); discriminate.
  - pose proof (built_wf so h B) as W; specialize (IH W).
    apply pow_defined_snoc; auto; simpl; intros; discriminate.
  - pose proof (built_wf so h B) as W; specialize (IH W).
    destruct (promoted_wf so h a o W Ha Ho) as (W1 & A1 & B1).
    assert (P1 : forall n a p, _backward (deref (fst (promote so h o)) n) = PowBackward a p ->
                 exists v, py_pow (value (deref (fst (promote so h o)) a)) p = Ok v).
    { destruct o as [c|b]; simpl; [|auto].
      apply pow_defined_snoc; auto; simpl; intros; discriminate. }
    unfold Scalar_add; destruct (promote so h o) as [h1 b]; simpl in W1, A1, B1, P1.
    change (forall n a0 p,
              _backward (deref (fst (Scalar_add so h1 a (Node b))) n) = PowBackward a0 p ->
              exists v, py_pow (value (deref (fst (Scalar_add so h1 a (Node b))) a0)) p = Ok v).
    rewrite Scalar_add_node; simpl fst.
    apply pow_defined_snoc; auto; simpl; intros; discriminate.
  - pose proof (built_wf so h B) as W; specialize (IH W).
    destruct (promoted_wf so h a o W Ha Ho) as (W1 & A1 & B1).
    assert (P1 : forall n a p, _backward (deref (fst (promote so h o)) n) = PowBackward a p ->
                 exists v, py_pow (value (deref (fst (promote so h o)) a)) p = Ok v).
    { destruct o as [c|b]; simpl; [|auto].
      apply pow_defined_snoc; auto; simpl; intros; discriminate. }
    unfold Scalar_mul; destruct (promote so h o) as [h1 b]; simpl in W1, A1, B1, P1.
    change (forall n a0 p,
              _backward (deref (fst (Scalar_mul so h1 a (Node b))) n) = PowBackward a0 p ->
              exists v, py_pow (value (deref (fst (Scalar_mul so h1 a (Node b))) a0)) p = Ok v).
    rewrite Scalar_mul_node; simpl fst.
    apply pow_defined_snoc; auto; simpl; intros; discriminate.
  - pose proof (built_wf so h B) as W; specialize (IH W).
    apply Scalar_pow_inv in E; destruct E as (v & Ev & -> & _).
    apply pow_defined_snoc; auto; simpl.
    intros a0 p0 E0; injection E0 as <- <-; split; [exact Ha|exists v; exact Ev].
  - pose proof (built_wf so h B) as W; specialize (IH W).
    apply Scalar_tanh_inv in E; destruct E as (_ & -> & _).
    apply pow_defined_snoc; auto; simpl; intros; discriminate.
  - pose proof (built_wf so h B) as W; specialize (IH W).
    rewrite Scalar_relu_node; simpl fst.
    apply pow_defined_snoc; auto; simpl; intros; discriminate.
  - pose proof (built_wf so h B) as W; specialize (IH W).
    apply Scalar_gelu_inv in E; destruct E as (_ & -> & _).
    apply pow_defined_snoc; auto; simpl; intros; discriminate.
Qed.

(** X8.  Programs of the class.  Take a heap built with the constructors
    of the class, every one of which returned a node whose value is a
    float, with whatever gradients earlier passes and resets have left in
    it.  It is well formed, hence acyclic: an ancestor of a node is older
    than the node, and the ancestors are the operands of its rule.  On
    such a heap [backward()] on any node finishes its traversal and its
    loop: it returns, or one of its rules raises [ZeroDivisionError] or
    [OverflowError]; no rule computes a complex number, since the power
    [x ** (p - 1)] of a rule is real whenever the power [x ** p] of the
    forward pass is a float.  The pass changes gradients only. *)
Theorem built_backward (so : SetOrder) (h0 h : heap) (root : ref) (fuel : nat) :
  built so h0 -> same_graph h0 h -> (root < length h)%nat -> (root < fuel)%nat ->
  wf h /\
  (forall n a, In a (_ancestors (deref h n)) -> (a < n)%nat) /\
  exists hf r,
    backward fuel h root = Some (hf, r) /\
    arithmetic_outcome r /\
    same_graph h hf.
Proof.
  intros B SG Hr Hf.
  pose proof (built_wf so h0 B) as W0.
  pose proof (same_graph_wf h0 h SG W0) as W.
  split; [exact W|split].
  - intros n a Ha.
    destruct (Nat.lt_ge_cases n (length h)) as [Hn|Hn].
    + apply (anc_lt _ _ (W n Hn)), Ha.
    + rewrite deref_out_of_range in Ha by exact Hn; destruct Ha.
  - destruct (dfs_root h fuel root W Hr Hf) as (vis & l & E & _).
    unfold backward; rewrite E; simpl snd.
    destruct (run_closures (rev (l ++ [root])) (set_grad h root 1)) as [hf r] eqn:Er.
    exists hf, r; split; [reflexivity|split].
    + change r with (snd (hf, r)); rewrite <- Er.
      apply run_closures_outcome; [exact I|].
      intros n h1 SG1; apply closure_arithmetic; intros s p Ep.
      assert (SG0 : same_graph h0 h1).
      { apply same_graph_trans with h; [exact SG|].
        apply same_graph_trans with (set_grad h root 1);
          [apply set_grad_same_graph|exact SG1]. }
      destruct SG0 as [_ Eq].
      destruct (Eq n) as (_ & Cn & _); destruct (Eq s) as (Vs & _ & _).
      rewrite Vs; apply (built_pow_defined so h0 B n s p); congruence.
    + change hf with (fst (hf, r)); rewrite <- Er, run_closures_fst.
      apply same_graph_trans with (set_grad h root 1);
        [apply set_grad_same_graph|apply run_all_same_graph].
Qed.

Lemma product_built :
  built insertion_order (fst (Scalar_mul insertion_order two_leaves 0 (Node 1))).
Proof.
  apply built_mul; [|simpl; lia|simpl; lia].
  change two_leaves with
    (fst (Scalar_init insertion_order (fst (Scalar_init insertion_order [] 2 [])) 3 [])).
  apply built_leaf, built_leaf, built_empty.
Qed.

Lemma stale_product_same_graph :
  same_graph (fst (Scalar_mul insertion_order two_leaves 0 (Node 1)))
    (fst stale_product).
Proof.
  split; [reflexivity|].
  intros [|[|[|[|m]]]]; simpl; auto.
Qed.

(** The witness: [a = Scalar(2); b = Scalar(3); root = a * b], with a
    gradient of 7 left in [a] by an earlier pass. *)
Lemma built_backward_witness :
  built insertion_order (fst (Scalar_mul insertion_order two_leaves 0 (Node 1))) /\
  same_graph (fst (Scalar_mul insertion_order two_leaves 0 (Node 1)))
    (fst stale_product) /\
  (2 < length (fst stale_product))%nat /\ (2 < 3)%nat /\
  exists hf r,
    backward 3 (fst stale_product) 2 = Some (hf, r) /\
    arithmetic_outcome r /\ same_graph (fst stale_product) hf.
Proof.
  assert (B := product_built).
  assert (SG := stale_product_same_graph).
  assert (L : (2 < length (fst stale_product))%nat) by (simpl; lia).
  assert (F : (2 < 3)%nat) by lia.
  repeat (split; [assumption|]).
  exact (proj2 (proj2 (built_backward insertion_order _ _ 2%nat 3%nat B SG L F))).
Defined.

(** ** The methods [__div__] and [__rdiv__], called by name *)

Lemma py_pow_inverse_square x : x <> 0 -> py_pow x (-1 - 1) = in_range (/ x ^ 2).
Proof.
  intros Hx; replace (-1 - 1) with (IZR (-2)) by lra.
  rewrite py_pow_integer by (auto; lia); reflexivity.
Qed.

Lemma coefficient_pow h d a p w n :
  _backward (deref h d) = PowBackward a p ->
  py_pow (value (deref h a)) (p - 1) = Ok w ->
  coefficient h d n = if Nat.eqb a n then p * w else 0.
Proof.
  unfold coefficient, increments; intros E Ew.
  rewrite (proj1 (proj2 (seeded_graph h d d))), E; simpl.
  rewrite (proj1 (seeded_graph h d _)), Ew; simpl.
  rewrite seeded_grad by (apply closure_in_range; rewrite E; discriminate).
  destruct (Nat.eqb a n); ring.
Qed.

Section Division.

Context (so : SetOrder).
Variables (h : heap) (a b : ref) (fuel : nat).
Hypothesis h_wf : wf h.
Hypothesis a_in : (a < length h)%nat.
Hypothesis b_in : (b < length h)%nat.

Let L : nat := length h.
Let va : R := value (deref h a).
Let vb : R := value (deref h b).

Hypothesis b_nonzero : vb <> 0.
Hypothesis forward_ok : Rabs (/ vb) <= float_max.

Let n : Scalar := mkScalar (/ vb) 0 (PowBackward b (-1)) (iter_of so [b]).
Let r : Scalar := mkScalar (va * / vb) 0 (MulBackward a L) (iter_of so [a; L]).
Let H : heap := h ++ [n; r].

Lemma Scalar_div_node : Scalar_div so h a (Node b) = Ok (H, (L + 1)%nat).
Proof.
  unfold Scalar_div, inv_operand.
  rewrite (Scalar_pow_node so h b (-1) (/ vb))
    by (fold vb; rewrite py_pow_inverse, in_range_ok; auto).
  simpl bind; rewrite Scalar_mul_node.
  rewrite deref_app_new, (deref_app_old _ [_] a) by exact a_in; simpl value.
  unfold H, n, r, L, va; rewrite !length_app; simpl length.
  rewrite <- !app_assoc; simpl app.
  rewrite !Nat.add_1_r; reflexivity.
Qed.

Lemma div_length : length H = (L + 2)%nat.
Proof. unfold H, L; rewrite length_app; simpl; lia. Qed.

Lemma div_old k : (k < L)%nat -> deref H k = deref h k.
Proof. intros Hk; apply deref_app_old; exact Hk. Qed.

Lemma div_wf : wf H.
Proof.
  unfold H; change [n; r] with ([n] ++ [r]); rewrite !app_assoc.
  apply wf_binary; rewrite ?length_app; simpl; fold L; auto; try lia.
  apply wf_unary; auto.
Qed.

Lemma div_entries k o :
  (L <= k)%nat -> In o (_ancestors (deref H k)) -> (o < L)%nat -> In o [a; b].
Proof.
  intros Hk Ho Hlt.
  destruct (Nat.lt_ge_cases k (L + 2)) as [Hk2|Hk2].
  - replace k with (L + (k - L))%nat in Ho by lia.
    unfold H, L in Ho; rewrite deref_app_plus in Ho.
    assert (Hc : ((k - L) = 0 \/ (k - L) = 1)%nat) by lia.
    fold L in Ho; destruct Hc as [E|E]; rewrite E in Ho; simpl in Ho;
      apply iter_of_In in Ho; simpl in Ho; simpl;
      repeat match goal with Hd : _ \/ _ |- _ => destruct Hd end;
      try contradiction; try lia; subst; auto.
  - rewrite deref_out_of_range in Ho by (rewrite div_length; lia); destruct Ho.
Qed.

Lemma div_reachable :
  reachable H (L + 1) (L + 1) /\ reachable H (L + 1) (L + 0).
Proof.
  split; [apply reach_refl|].
  eapply reach_step; [apply reach_refl|].
  unfold H, L; rewrite deref_app_plus; simpl; apply iter_of_In; simpl.
  right; left; lia.
Qed.

Lemma div_support m d :
  (m < L)%nat -> ~ depends h a m -> ~ depends h b m ->
  reachable H (L + 1) d -> ~ In d [(L + 0)%nat; (L + 1)%nat] ->
  coefficient H d m = 0.
Proof.
  intros Hm Da Db R Hd.
  assert (Hle : (d <= L + 1)%nat).
  { apply (reachable_le H div_wf (L + 1) d); [rewrite div_length; lia|exact R]. }
  assert (Hold : (d < L)%nat) by (simpl in Hd; lia).
  apply (old_coefficient_zero h [n; r] (L + 1) [a; b] div_wf); auto.
  - unfold L; lia.
  - intros k o; apply div_entries.
  - intros o [<-|[<-|[]]]; assumption.
Qed.

Hypothesis enough : (S (length h) < fuel)%nat.
Hypothesis backward_ok : Rabs (/ vb ^ 2) <= float_max.
Hypothesis a_safe : no_raise h a.
Hypothesis b_safe : no_raise h b.

Lemma div_rule : py_pow (value (deref H b)) (-1 - 1) = Ok (/ vb ^ 2).
Proof.
  rewrite div_old by exact b_in; fold vb.
  rewrite py_pow_inverse_square by exact b_nonzero.
  apply in_range_ok; exact backward_ok.
Qed.

Lemma div_no_raise : no_raise H (L + 1).
Proof.
  assert (Old : forall o, (o < L)%nat -> no_raise h o -> no_raise H o).
  { intros o Ho No; apply no_raise_app_old; auto; exact div_wf. }
  apply no_raise_node.
  - apply (safe_mul _ _ a (L + 0)); unfold H, L; rewrite deref_app_plus; simpl.
    rewrite Nat.add_0_r; reflexivity.
  - unfold H at 1, L at 1; rewrite deref_app_plus; simpl.
    intros x Hx; apply iter_of_In in Hx; destruct Hx as [<-|[<-|[]]]; auto.
    fold L; replace L with (L + 0)%nat by lia.
    apply no_raise_node.
    + apply safe_iff.
      replace (_backward (deref H (L + 0))) with (PowBackward b (-1))
        by (unfold H, L; rewrite deref_app_plus; reflexivity).
      simpl; exists (/ vb ^ 2); exact div_rule.
    + unfold H at 1, L at 1; rewrite deref_app_plus; simpl.
      intros y Hy; apply iter_of_In in Hy; destruct Hy as [<-|[]]; auto.
Qed.

(** [root = a.__div__(b); root.backward()], when no rule raises. *)
Lemma backward_div_node :
  exists hf,
    backward fuel H (L + 1) = Some (hf, Ok tt) /\
    (~ depends h b a ->
     grad (deref hf a) =
     grad (deref h a) + / vb + (if Nat.eqb b a then -1 * / vb ^ 2 * va else 0)) /\
    (~ depends h a b ->
     grad (deref hf b) =
     grad (deref h b) + (if Nat.eqb a b then / vb else 0) + -1 * / vb ^ 2 * va).
Proof.
  destruct (backward_support H (L + 1) fuel div_wf) as (hf & E & G1 & G).
  { rewrite div_length; lia. }
  { unfold L; lia. }
  { exact div_no_raise. }
  exists hf; split; [exact E|].
  destruct div_reachable as [Rr Rn].
  assert (Cn : _backward (deref H (L + 0)) = PowBackward b (-1))
    by (unfold H, L; rewrite deref_app_plus; reflexivity).
  assert (Cr : _backward (deref H (L + 1)) = MulBackward a (L + 0)).
  { unfold H, L; rewrite deref_app_plus; simpl; rewrite Nat.add_0_r; reflexivity. }
  assert (Vn : value (deref H (L + 0)) = / vb)
    by (unfold H, L; rewrite deref_app_plus; reflexivity).
  assert (Va : value (deref H a) = va) by (rewrite div_old by exact a_in; reflexivity).
  assert (Gn : grad (deref hf (L + 0)) = va).
  { rewrite (G (L + 0)%nat [(L + 1)%nat]); try lia.
    - unfold H at 1, L at 1; rewrite deref_app_plus; simpl.
      rewrite (coefficient_mul H _ a (L + 0)) by exact Cr.
      rewrite G1, Nat.eqb_refl, Va.
      destruct (Nat.eqb_spec a (L + 0)); [unfold L in *; lia|ring].
    - repeat constructor; simpl; tauto.
    - intros x [<-|[]]; exact Rr.
    - intros d R Hd.
      destruct (Req_dec (coefficient H d (L + 0)) 0) as [Z|NZ]; [exact Z|exfalso].
      apply coefficient_operand in NZ.
      destruct (wf_operands_in_range _ d _ div_wf NZ) as (_ & Hlt & Hlen).
      rewrite div_length in Hlen; apply Hd; simpl; lia. }
  assert (NDs : NoDup [(L + 0)%nat; (L + 1)%nat]).
  { repeat constructor; simpl; try tauto; lia. }
  assert (Rs : forall x, In x [(L + 0)%nat; (L + 1)%nat] -> reachable H (L + 1) x).
  { intros x [<-|[<-|[]]]; assumption. }
  assert (Main : forall m, (m < L)%nat -> ~ depends h a m -> ~ depends h b m ->
            grad (deref hf m) =
            grad (deref h m)
            + ((if Nat.eqb b m then -1 * / vb ^ 2 * va else 0)
               + ((if Nat.eqb a m then / vb else 0) + 0))).
  { intros m Hm Da Db.
    rewrite (G m [(L + 0)%nat; (L + 1)%nat]); auto; try lia.
    - rewrite div_old by exact Hm; f_equal; simpl sum_over.
      rewrite (coefficient_pow H _ b (-1) (/ vb ^ 2)) by (exact Cn || exact div_rule).
      rewrite (coefficient_mul H _ a (L + 0)) by exact Cr.
      rewrite Gn, G1, Vn.
      destruct (Nat.eqb_spec (L + 0) m); [lia|].
      destruct (Nat.eqb b m), (Nat.eqb a m); ring.
    - intros d R Hd; apply div_support; auto. }
  split; intros Hd.
  - rewrite (Main a a_in (not_depends_self h a h_wf a_in) Hd).
    rewrite Nat.eqb_refl; ring.
  - rewrite (Main b b_in Hd (not_depends_self h b h_wf b_in)).
    rewrite Nat.eqb_refl; ring.
Qed.

End Division.

Section ReflectedDivision.

Context (so : SetOrder).
Variables (h : heap) (x : ref) (c : R) (fuel : nat).
Hypothesis h_wf : wf h.
Hypothesis x_in : (x < length h)%nat.

Let L : nat := length h.
Let vx : R := value (deref h x).

Hypothesis x_nonzero : vx <> 0.
Hypothesis forward_ok : Rabs (/ vx) <= float_max.

Let n : Scalar := mkScalar (/ vx) 0 (PowBackward x (-1)) (iter_of so [x]).
Let l : Scalar := mkScalar c 0 NoOp (iter_of so []).
Let r : Scalar :=
  mkScalar (/ vx * c) 0 (MulBackward (L + 0) (L + 1))
    (iter_of so [(L + 0)%nat; (L + 1)%nat]).
Let H : heap := h ++ [n; l; r].

Lemma Scalar_rdiv_node : Scalar_rdiv so h x (Num c) = Ok (H, (L + 2)%nat).
Proof.
  unfold Scalar_rdiv, Scalar_rmul.
  rewrite (Scalar_pow_node so h x (-1) (/ vx))
    by (fold vx; rewrite py_pow_inverse, in_range_ok; auto).
  simpl bind; rewrite Scalar_mul_num; simpl fst; rewrite Scalar_mul_node.
  deref_norm; simpl value.
  unfold H, r, l, n, L; flat_heap.
Qed.

Lemma rdiv_length : length H = (L + 3)%nat.
Proof. unfold H, L; rewrite length_app; simpl; lia. Qed.

Lemma rdiv_wf : wf H.
Proof.
  unfold H; change [n; l; r] with ([n] ++ [l] ++ [r]); rewrite !app_assoc.
  apply wf_binary; rewrite ?length_app; simpl; fold L; auto; try lia.
  apply wf_app_leaf, wf_unary; auto.
Qed.

Hypothesis enough : (length h + 2 < fuel)%nat.
Hypothesis backward_ok : Rabs (/ vx ^ 2) <= float_max.
Hypothesis x_safe : no_raise h x.

Lemma rdiv_rule : py_pow (value (deref H x)) (-1 - 1) = Ok (/ vx ^ 2).
Proof.
  unfold H; rewrite deref_app_old by exact x_in; fold vx.
  rewrite py_pow_inverse_square by exact x_nonzero.
  apply in_range_ok; exact backward_ok.
Qed.

Lemma rdiv_no_raise : no_raise H (L + 2).
Proof.
  apply no_raise_node.
  - apply (safe_mul _ _ (L + 0) (L + 1)); unfold H, L; rewrite deref_app_plus; reflexivity.
  - unfold H at 1, L at 1; rewrite deref_app_plus; simpl.
    intros y Hy; apply iter_of_In in Hy; destruct Hy as [<-|[<-|[]]].
    + apply no_raise_node.
      * apply safe_iff.
        replace (_backward (deref H (L + 0))) with (PowBackward x (-1))
          by (unfold H, L; rewrite deref_app_plus; reflexivity).
        simpl; exists (/ vx ^ 2); exact rdiv_rule.
      * unfold H at 1, L at 1; rewrite deref_app_plus; simpl.
        intros z Hz; apply iter_of_In in Hz; destruct Hz as [<-|[]].
        apply no_raise_app_old; auto; exact rdiv_wf.
    + apply leaf_no_raise; unfold H, L; rewrite deref_app_plus; simpl; auto.
      apply iter_of_nil.
Qed.

(** [root = x.__rdiv__(c); root.backward()], when no rule raises. *)
Lemma backward_rdiv :
  exists hf,
    backward fuel H (L + 2) = Some (hf, Ok tt) /\
    grad (deref hf x) = grad (deref h x) + -1 * / vx ^ 2 * c.
Proof.
  assert (Cn : _backward (deref H (L + 0)) = PowBackward x (-1))
    by (unfold H, L; rewrite deref_app_plus; reflexivity).
  assert (Cr : _backward (deref H (L + 2)) = MulBackward (L + 0) (L + 1))
    by (unfold H, L; rewrite deref_app_plus; reflexivity).
  assert (C1 : _backward (deref H (L + 1)) = NoOp)
    by (unfold H, L; rewrite deref_app_plus; reflexivity).
  assert (Rn : reachable H (L + 2) (L + 0)).
  { eapply reach_step; [apply reach_refl|].
    unfold H, L; rewrite deref_app_plus; simpl; apply iter_of_In; simpl; auto. }
  destruct (grad_two_levels H (L + 2) fuel (L + 0) x rdiv_wf) as (hf & E & G);
    try (unfold L; lia); auto.
  - rewrite rdiv_length; lia.
  - exact rdiv_no_raise.
  - intros d R Hd.
    assert (Hle : (d <= L + 2)%nat).
    { apply (reachable_le H rdiv_wf (L + 2) d); [rewrite rdiv_length; lia|exact R]. }
    destruct (Nat.le_gt_cases d (L + 0)) as [Hold|Hnew].
    + apply coefficient_older; [exact rdiv_wf|exact Hold].
    + assert (d = L + 1)%nat by lia; subst d; apply coefficient_leaf; exact C1.
  - intros d R Hd1 Hd3.
    assert (Hle : (d <= L + 2)%nat).
    { apply (reachable_le H rdiv_wf (L + 2) d); [rewrite rdiv_length; lia|exact R]. }
    destruct (Nat.lt_ge_cases d L) as [Hold|Hnew].
    + apply (old_coefficient_zero h [n; l; r] (L + 2) [x] rdiv_wf); auto.
      * unfold L; lia.
      * intros k o Hk Ho Hlt.
        destruct (Nat.lt_ge_cases k (L + 3)) as [Hk4|Hk4].
        -- replace k with (L + (k - L))%nat in Ho by lia.
           fold H in Ho; unfold H, L in Ho; rewrite deref_app_plus in Ho.
           assert (Hc : ((k - L) = 0 \/ (k - L) = 1 \/ (k - L) = 2)%nat) by lia.
           fold L in Ho; destruct Hc as [Ek|[Ek|Ek]]; rewrite Ek in Ho;
             simpl in Ho; apply iter_of_In in Ho; simpl in Ho; simpl;
             repeat match goal with Hd : _ \/ _ |- _ => destruct Hd end;
             try contradiction; try lia; subst; auto.
        -- fold H in Ho; rewrite deref_out_of_range in Ho
             by (rewrite rdiv_length; lia); destruct Ho.
      * intros o [<-|[]]; apply not_depends_self; auto.
    + assert (d = L + 1)%nat by lia; subst d; apply coefficient_leaf; exact C1.
  - exists hf; split; [exact E|].
    rewrite G, (coefficient_pow H _ x (-1) (/ vx ^ 2)) by (exact Cn || exact rdiv_rule).
    rewrite !(coefficient_mul H _ (L + 0) (L + 1)) by exact Cr.
    assert (Gn : grad (deref H (L + 0)) = 0)
      by (unfold H, L; rewrite deref_app_plus; reflexivity).
    assert (V1 : value (deref H (L + 1)) = c)
      by (unfold H, L; rewrite deref_app_plus; reflexivity).
    assert (Gx : deref H x = deref h x)
      by (unfold H; apply deref_app_old; exact x_in).
    rewrite Gn, Gx, V1; simpl.
    rewrite !Nat.eqb_refl.
    repeat match goal with
           | |- context [Nat.eqb ?u ?v] =>
               destruct (Nat.eqb_spec u v); [unfold L in *; lia|]
           end.
    ring.
Qed.

End ReflectedDivision.

(** X9.  The method [__div__], which only a call by name reaches.
    [a.__div__(b)] is [a * b ** -1].  For a node [b] of value 0, and for
    the number 0, it raises [ZeroDivisionError] and builds no product.  For
    a number [c] whose inverse is a float it is [a * (1 / c)]: a node of
    value [a.value * (1 / c)], and [backward()] on it leaves [a.grad] grown
    by [1 / c].  For a node [b] whose inverse is a float it builds
    [b ** -1] and the product, of value [a.value * (1 / b.value)]; when
    [1 / b.value ** 2] is a float too and no rule of [a], [b] or below
    raises, [backward()] on the result returns, and an operand that is not
    a proper ancestor of the other has received [1 / b.value] as the
    dividend and [- a.value / b.value ** 2] as the divisor (both in
    [a.__div__(a)]): the partial derivatives of the quotient. *)
Theorem div_correct (so : SetOrder) (h : heap) (a b : ref) (c : R) (fuel : nat) :
  wf h -> (a < length h)%nat -> (b < length h)%nat -> (S (length h) < fuel)%nat ->
  let va := value (deref h a) in
  let vb := value (deref h b) in
  lookup "__div__" Scalar_binary_methods = Some Scalar_div /\
  (vb = 0 -> Scalar_div so h a (Node b) = ZeroDivisionError) /\
  Scalar_div so h a (Num 0) = ZeroDivisionError /\
  (c <> 0 -> Rabs (/ c) <= float_max ->
   exists h' r hf res,
     Scalar_div so h a (Num c) = Ok (h', r) /\
     value (deref h' r) = va * / c /\
     backward fuel h' r = Some (hf, res) /\
     grad (deref hf a) = grad (deref h a) + / c * 1 /\
     (no_raise h a -> res = Ok tt)) /\
  (vb <> 0 -> Rabs (/ vb) <= float_max ->
   exists h' r,
     Scalar_div so h a (Node b) = Ok (h', r) /\
     value (deref h' r) = va * / vb /\
     (Rabs (/ vb ^ 2) <= float_max -> no_raise h a -> no_raise h b ->
      exists hf,
        backward fuel h' r = Some (hf, Ok tt) /\
        (~ depends h b a ->
         grad (deref hf a) =
         grad (deref h a) + / vb
         + (if Nat.eqb b a then -1 * / vb ^ 2 * va else 0)) /\
        (~ depends h a b ->
         grad (deref hf b) =
         grad (deref h b) + (if Nat.eqb a b then / vb else 0)
         + -1 * / vb ^ 2 * va))).
Proof.
  intros W Ha Hb Hf va vb.
  split; [reflexivity|].
  split.
  { intros Z; unfold Scalar_div, inv_operand.
    rewrite (Scalar_pow_zero_division so h b (-1)); [reflexivity|].
    fold vb; rewrite Z; apply py_pow_zero_negative; lra. }
  split.
  { unfold Scalar_div, inv_operand.
    rewrite py_pow_zero_negative by lra; reflexivity. }
  split.
  - intros Hc Rc.
    assert (E : Scalar_div so h a (Num c) = Ok (Scalar_mul so h a (Num (/ c)))).
    { unfold Scalar_div, inv_operand.
      rewrite py_pow_inverse by exact Hc.
      rewrite in_range_ok by exact Rc; reflexivity. }
    destruct (backward_mul_num so h a (/ c) fuel W Ha Hf)
      as (V & hf & res & Eb & G & NR).
    exists (fst (Scalar_mul so h a (Num (/ c)))), (snd (Scalar_mul so h a (Num (/ c)))),
      hf, res.
    rewrite E, <- surjective_pairing; auto.
  - intros Nz Rf.
    rewrite (Scalar_div_node so h a b Ha Nz Rf).
    eexists; eexists; split; [reflexivity|split].
    + replace (length h + 1)%nat with (length (h ++ [mkScalar (/ vb) 0 (PowBackward b (-1))
                                                      (iter_of so [b])]))
        by (rewrite length_app; simpl; lia).
      change (?x ++ [?n; ?r]) with (x ++ [n] ++ [r]); rewrite app_assoc.
      rewrite deref_app_new; reflexivity.
    + intros Rb Na Nb.
      exact (backward_div_node so h a b fuel W Ha Hb Nz Hf Rb Na Nb).
Qed.

Lemma div_correct_witness :
  wf two_leaves /\ (0 < length two_leaves)%nat /\ (1 < length two_leaves)%nat /\
  (S (length two_leaves) < 4)%nat /\
  value (deref two_leaves 1) <> 0 /\
  Rabs (/ value (deref two_leaves 1)) <= float_max /\
  Rabs (/ value (deref two_leaves 1) ^ 2) <= float_max /\
  exists h' r hf,
    Scalar_div insertion_order two_leaves 0 (Node 1) = Ok (h', r) /\
    value (deref h' r) = 2 * / 3 /\
    backward 4 h' r = Some (hf, Ok tt) /\
    grad (deref hf 0) = 0 + / 3 + 0 /\
    grad (deref hf 1) = 0 + 0 + -1 * / 3 ^ 2 * 2.
Proof.
  assert (W : wf two_leaves) by apply leaves_wf.
  assert (A : (0 < length two_leaves)%nat) by (simpl; lia).
  assert (B : (1 < length two_leaves)%nat) by (simpl; lia).
  assert (F : (S (length two_leaves) < 4)%nat) by (simpl; lia).
  assert (Nz : value (deref two_leaves 1) <> 0) by (simpl; lra).
  assert (R1 : Rabs (/ value (deref two_leaves 1)) <= float_max).
  { simpl; rewrite Rabs_pos_eq by lra; pose proof float_max_large; lra. }
  assert (R2 : Rabs (/ value (deref two_leaves 1) ^ 2) <= float_max).
  { simpl; rewrite Rabs_pos_eq by lra; pose proof float_max_large; lra. }
  repeat (split; [assumption|]).
  destruct (div_correct insertion_order two_leaves 0 1 1 4 W A B F)
    as (_ & _ & _ & _ & D).
  destruct (D Nz R1) as (h' & r & E & V & G).
  destruct (G R2 (leaves_no_raise _ 0) (leaves_no_raise _ 1)) as (hf & Eb & Ga & Gb).
  exists h', r, hf; split; [exact E|split; [exact V|split; [exact Eb|split]]].
  - apply Ga, leaf_not_depends; reflexivity.
  - apply Gb, leaf_not_depends; reflexivity.
Defined.

(** X10.  The method [__rdiv__], which only a call by name reaches.
    [x.__rdiv__(c)] is [c * x ** -1]; with a number [c] the product is
    resolved to [(x ** -1).__rmul__(c)], i.e. [(x ** -1) * c].  For a node
    [x] of value 0 it raises [ZeroDivisionError].  When [1 / x.value] is a
    float, the result has value [(1 / x.value) * c]; when
    [1 / x.value ** 2] is a float too and no rule of [x] or below raises,
    [backward()] on the result returns and [x.grad] has grown by
    [- c / x.value ** 2], the derivative of [c / x].  Called with a node,
    [x.__rdiv__(b)] builds what [b.__div__(x)] builds. *)
Theorem rdiv_correct (so : SetOrder) (h : heap) (x : ref) (c : R) (fuel : nat) :
  wf h -> (x < length h)%nat -> (length h + 2 < fuel)%nat ->
  let vx := value (deref h x) in
  lookup "__rdiv__" Scalar_binary_methods = Some Scalar_rdiv /\
  (vx = 0 -> Scalar_rdiv so h x (Num c) = ZeroDivisionError) /\
  (vx <> 0 -> Rabs (/ vx) <= float_max ->
   exists h' r,
     Scalar_rdiv so h x (Num c) = Ok (h', r) /\
     value (deref h' r) = / vx * c /\
     (Rabs (/ vx ^ 2) <= float_max -> no_raise h x ->
      exists hf,
        backward fuel h' r = Some (hf, Ok tt) /\
        grad (deref hf x) = grad (deref h x) + -1 * / vx ^ 2 * c)) /\
  forall b, Scalar_rdiv so h x (Node b) = Scalar_div so h b (Node x).
Proof.
  intros W Hx Hf vx.
  split; [reflexivity|].
  split.
  { intros Z; unfold Scalar_rdiv.
    rewrite (Scalar_pow_zero_division so h x (-1)); [reflexivity|].
    fold vx; rewrite Z; apply py_pow_zero_negative; lra. }
  split.
  - intros Nz Rf.
    rewrite (Scalar_rdiv_node so h x c Hx Nz Rf).
    eexists; eexists; split; [reflexivity|split].
    + rewrite deref_app_plus; reflexivity.
    + intros Rb Nx.
      exact (backward_rdiv so h x c fuel W Hx Nz Hf Rb Nx).
  - intros b; unfold Scalar_rdiv, Scalar_div, inv_operand.
    destruct (Scalar_pow so h x (-1)) as [[h1 n]| | | |]; reflexivity.
Qed.

Lemma rdiv_correct_witness :
  wf two_leaves /\ (0 < length two_leaves)%nat /\ (length two_leaves + 2 < 5)%nat /\
  value (deref two_leaves 0) <> 0 /\
  Rabs (/ value (deref two_leaves 0)) <= float_max /\
  Rabs (/ value (deref two_leaves 0) ^ 2) <= float_max /\
  exists h' r hf,
    Scalar_rdiv insertion_order two_leaves 0 (Num 6) = Ok (h', r) /\
    value (deref h' r) = / 2 * 6 /\
    backward 5 h' r = Some (hf, Ok tt) /\
    grad (deref hf 0) = 0 + -1 * / 2 ^ 2 * 6.
Proof.
  assert (W : wf two_leaves) by apply leaves_wf.
  assert (A : (0 < length two_leaves)%nat) by (simpl; lia).
  assert (F : (length two_leaves + 2 < 5)%nat) by (simpl; lia).
  assert (Nz : value (deref two_leaves 0) <> 0) by (simpl; lra).
  assert (R1 : Rabs (/ value (deref two_leaves 0)) <= float_max).
  { simpl; rewrite Rabs_pos_eq by lra; pose proof float_max_large; lra. }
  assert (R2 : Rabs (/ value (deref two_leaves 0) ^ 2) <= float_max).
  { simpl; rewrite Rabs_pos_eq by lra; pose proof float_max_large; lra. }
  repeat (split; [assumption|]).
  destruct (rdiv_correct insertion_order two_leaves 0 6 5 W A F) as (_ & _ & D & _).
  destruct (D Nz R1) as (h' & r & E & V & G).
  destruct (G R2 (leaves_no_raise _ 0)) as (hf & Eb & Gx).
  exists h', r, hf; auto.
Defined.

(** ** The network layer: parameters and [zero_grad] *)

Lemma zero_grad_same_graph ps : forall h, same_graph h (zero_grad h ps).
Proof.
  induction ps as [|p t IH]; intros h; simpl; [apply same_graph_refl|].
  apply same_graph_trans with (set_grad h p 0);
    [apply set_grad_same_graph|apply IH].
Qed.

Lemma zero_grad_other ps m : forall h,
  ~ In m ps -> deref (zero_grad h ps) m = deref h m.
Proof.
  induction ps as [|p t IH]; intros h Hm; simpl; [reflexivity|].
  rewrite IH by (intros X; apply Hm; simpl; auto).
  apply deref_update_other; intros ->; apply Hm; simpl; auto.
Qed.

Lemma zero_grad_keeps_zero ps m : forall h,
  grad (deref h m) = 0 -> grad (deref (zero_grad h ps) m) = 0.
Proof.
  induction ps as [|p t IH]; intros h G; simpl; [exact G|].
  apply IH.
  destruct (Nat.eq_dec m p) as [->|Hne].
  - destruct (Nat.lt_ge_cases p (length h)) as [Hp|Hp].
    + apply grad_set_grad_same; exact Hp.
    + unfold set_grad; rewrite update_out_of_range by exact Hp; exact G.
  - rewrite grad_set_grad_other by auto; exact G.
Qed.

Lemma zero_grad_param ps p : forall h,
  In p ps -> (p < length h)%nat -> grad (deref (zero_grad h ps) p) = 0.
Proof.
  induction ps as [|q t IH]; intros h Hp Hl; simpl; [destruct Hp|].
  destruct (Nat.eq_dec q p) as [->|Hne].
  - apply zero_grad_keeps_zero, grad_set_grad_same; exact Hl.
  - destruct Hp as [->|Hp]; [contradiction|].
    apply IH; [exact Hp|].
    rewrite (proj1 (set_grad_same_graph h q 0)); exact Hl.
Qed.

Lemma zero_grad_length ps h : length (zero_grad h ps) = length h.
Proof. exact (proj1 (zero_grad_same_graph ps h)). Qed.

(** Resetting twice is resetting once. *)
Lemma zero_grad_idempotent ps h : zero_grad (zero_grad h ps) ps = zero_grad h ps.
Proof.
  apply (nth_ext _ _ null null); [apply zero_grad_length|].
  intros m Hm; rewrite zero_grad_length in Hm.
  change (deref (zero_grad (zero_grad h ps) ps) m = deref (zero_grad h ps) m).
  destruct (in_dec Nat.eq_dec m ps) as [Hin|Hout].
  - pose proof (zero_grad_length ps h) as Lz.
    assert (G1 : grad (deref (zero_grad h ps) m) = 0)
      by (apply zero_grad_param; [exact Hin|rewrite zero_grad_length in Hm; exact Hm]).
    assert (G2 : grad (deref (zero_grad (zero_grad h ps) ps) m) = 0)
      by (apply zero_grad_keeps_zero; exact G1).
    destruct (proj2 (zero_grad_same_graph ps (zero_grad h ps)) m) as (V & C & A).
    apply Scalar_eq; auto; congruence.
  - apply zero_grad_other; exact Hout.
Qed.

Lemma MLP_parameters_spec net p :
  In p (MLP_parameters net) <->
  exists l n, In l (layers net) /\ In n (neurons l) /\
              (In p (weights n) \/ p = bias n).
Proof.
  unfold MLP_parameters, Layer_parameters, Neuron_parameters.
  rewrite in_flat_map; split.
  - intros (l & Hl & Hp); apply in_flat_map in Hp; destruct Hp as (n & Hn & Hp).
    exists l, n; split; [exact Hl|split; [exact Hn|]].
    apply in_app_or in Hp; destruct Hp as [Hp|[<-|[]]]; auto.
  - intros (l & n & Hl & Hn & Hp); exists l; split; [exact Hl|].
    apply in_flat_map; exists n; split; [exact Hn|].
    apply in_or_app; destruct Hp as [Hp| ->]; simpl; auto.
Qed.

(** X11.  The parameters of a network are the weights and the bias of
    every neuron of every layer.  [zero_grad()] writes 0 into the gradient
    of each of them and changes nothing else: values, closures and ancestor
    sets stay as they are, and every node that is not a parameter, hence
    every intermediate node of an earlier forward pass, keeps the gradient
    it holds.  Calling [zero_grad()] twice in a row is calling it once. *)
Theorem zero_grad_resets (h : heap) (net : MLP) :
  (forall p, In p (MLP_parameters net) -> (p < length h)%nat) ->
  (forall p, In p (MLP_parameters net) <->
     exists l n, In l (layers net) /\ In n (neurons l) /\
                 (In p (weights n) \/ p = bias n)) /\
  same_graph h (zero_grad h (MLP_parameters net)) /\
  (forall p, In p (MLP_parameters net) ->
     grad (deref (zero_grad h (MLP_parameters net)) p) = 0) /\
  (forall m, ~ In m (MLP_parameters net) ->
     deref (zero_grad h (MLP_parameters net)) m = deref h m) /\
  zero_grad (zero_grad h (MLP_parameters net)) (MLP_parameters net) =
  zero_grad h (MLP_parameters net).
Proof.
  intros Hin.
  split; [intros p; apply MLP_parameters_spec|].
  split; [apply zero_grad_same_graph|].
  split; [intros p Hp; apply zero_grad_param; auto|].
  split; [intros m Hm; apply zero_grad_other; exact Hm|].
  apply zero_grad_idempotent.
Qed.

(** The witness: the linear neuron after one forward and one backward
    pass on the input [[3, 4]].  The two weights and the bias are reset;
    the product [w0 * 3] keeps its gradient. *)
Lemma zero_grad_resets_witness :
  (forall p, In p (MLP_parameters linear_net) -> (p < length linear_trained)%nat) /\
  MLP_parameters linear_net = [0; 1; 2]%nat /\
  grad (deref linear_trained 0) = 3 /\
  grad (deref (zero_grad linear_trained (MLP_parameters linear_net)) 0) = 0 /\
  grad (deref (zero_grad linear_trained (MLP_parameters linear_net)) 1) = 0 /\
  grad (deref (zero_grad linear_trained (MLP_parameters linear_net)) 2) = 0 /\
  grad (deref linear_trained 4) = 1 /\
  deref (zero_grad linear_trained (MLP_parameters linear_net)) 4 =
  deref linear_trained 4.
Proof.
  assert (Hin : forall p, In p (MLP_parameters linear_net) ->
                          (p < length linear_trained)%nat).
  { intros p Hp; simpl in Hp.
    assert (L : length linear_trained = 9%nat) by (vm_compute; reflexivity).
    rewrite L; lia. }
  destruct (zero_grad_resets linear_trained linear_net Hin) as (_ & _ & Z & K & _).
  split; [exact Hin|].
  split; [reflexivity|].
  split; [vm_compute; lra|].
  split; [apply Z; simpl; auto|].
  split; [apply Z; simpl; auto|].
  split; [apply Z; simpl; auto|].
  split; [vm_compute; lra|].
  apply K; simpl; lia.
Defined.

(** X12.  [zero_grad()] resets the parameters, not the graph.  For the
    linear neuron [n] with weights [w0], [w1] and bias [b], after
    [y = n([3, 4]); y.backward()] the gradients are [w0.grad = 3],
    [w1.grad = 4], [b.grad = 1].  After [n.zero_grad()], a second
    [y.backward()] on the same output finds the gradients that the first
    pass left in the sums and products below [y] and gives
    [w0.grad = 9], [w1.grad = 8], [b.grad = 2]; a new forward pass
    [y2 = n([3, 4])] followed by [y2.backward()] gives 3, 4 and 1 again. *)
Theorem zero_grad_then_backward :
  backward 10 (fst linear_output) (snd linear_output) =
    Some (linear_trained, Ok tt) /\
  grad (deref linear_trained 0) = 3 /\
  grad (deref linear_trained 1) = 4 /\
  grad (deref linear_trained 2) = 1 /\
  (exists h2,
     backward 10 (zero_grad linear_trained (Neuron_parameters linear_neuron))
       (snd linear_output) = Some (h2, Ok tt) /\
     grad (deref h2 0) = 9 /\ grad (deref h2 1) = 8 /\ grad (deref h2 2) = 2) /\
  (exists h3 y2 h4,
     Neuron_call insertion_order
       (zero_grad linear_trained (Neuron_parameters linear_neuron))
       linear_neuron [Num 3; Num 4] = Ok (h3, Some y2) /\
     backward 16 h3 y2 = Some (h4, Ok tt) /\
     grad (deref h4 0) = 3 /\ grad (deref h4 1) = 4 /\ grad (deref h4 2) = 1).
Proof.
  split; [vm_compute; reflexivity|].
  split; [vm_compute; lra|].
  split; [vm_compute; lra|].
  split; [vm_compute; lra|].
  split.
  - eexists; split; [vm_compute; reflexivity|].
    repeat split; vm_compute; lra.
  - eexists; eexists; eexists; split; [vm_compute; reflexivity|].
    split; [vm_compute; reflexivity|].
    repeat split; vm_compute; lra.
Qed.

(** X13.  The end-to-end scenario.  A neuron with weights [0.5] and
    [-0.5], bias 0 and activation ['linear'], called on [[1.0, 1.0]],
    returns a node of value 0; [backward()] on that node returns and
    leaves the gradients of the two weights at 1 and 1 and the gradient of
    the bias at 1. *)
Theorem linear_neuron_scenario :
  value (deref linear_heap 0) = 5 / 10 /\
  value (deref linear_heap 1) = - (5 / 10) /\
  value (deref linear_heap 2) = 0 /\
  exists h y hf,
    Neuron_call insertion_order linear_heap linear_neuron [Num 1; Num 1] =
      Ok (h, Some y) /\
    value (deref h y) = 0 /\
    backward 10 h y = Some (hf, Ok tt) /\
    grad (deref hf 0) = 1 /\ grad (deref hf 1) = 1 /\ grad (deref hf 2) = 1.
Proof.
  repeat (split; [reflexivity|]).
  eexists; eexists; eexists; split; [vm_compute; reflexivity|].
  split; [vm_compute; lra|].
  split; [vm_compute; reflexivity|].
  repeat split; vm_compute; lra.
Qed.

(** ** Layers and networks *)


Lemma MLP_run_app so pre post : forall h x h1 x1,
  MLP_run so h pre x = Ok (h1, x1) ->
  MLP_run so h (pre ++ post) x = MLP_run so h1 post x1.
Proof.
  induction pre as [|l t IH]; intros h x h1 x1 E; simpl in *.
  - injection E as <- <-; reflexivity.
  - destruct (Layer_call so h l x) as [[h2 x2]| | | |]; try discriminate.
    simpl in *; apply IH; exact E.
Qed.



(** A neuron called on one element instead of a sequence raises. *)
Lemma Layer_outputs_single so h n t i :
  Layer_outputs so h (n :: t) (Single i) = TypeError.
Proof. reflexivity. Qed.

(** X15.  A layer of one neuron in front of another layer.  In a network,
    a layer with exactly one neuron hands the next layer that neuron's
    output itself instead of a list; when the next layer has a neuron, that
    neuron calls [zip] on it and the network raises [TypeError]: whenever
    the input reaches such a layer and its neuron returns, the call of the
    network raises [TypeError]. *)
Theorem narrow_layer_raises (so : SetOrder) (h0 h h1 : heap) (pre rest : list Layer)
    (n1 : Neuron) (l2 : Layer) (x0 x : pyvalue) (y1 : item) :
  neurons l2 <> [] ->
  MLP_run so h0 pre x0 = Ok (h, x) ->
  Neuron_apply so h n1 x = Ok (h1, y1) ->
  Layer_call so h (mkLayer [n1]) x = Ok (h1, Single y1) /\
  Layer_call so h1 l2 (Single y1) = TypeError /\
  MLP_call so h0 (mkMLP (pre ++ mkLayer [n1] :: l2 :: rest)) x0 = TypeError.
Proof.
  intros N2 Epre E1.
  assert (C1 : Layer_call so h (mkLayer [n1]) x = Ok (h1, Single y1)).
  { unfold Layer_call; simpl; rewrite E1; reflexivity. }
  assert (C2 : Layer_call so h1 l2 (Single y1) = TypeError).
  { unfold Layer_call; destruct (neurons l2) as [|n t]; [contradiction|].
    rewrite Layer_outputs_single; reflexivity. }
  split; [exact C1|split; [exact C2|]].
  unfold MLP_call; simpl layers.
  rewrite (MLP_run_app so pre _ h0 x0 h x Epre); simpl.
  rewrite C1; simpl; rewrite C2; reflexivity.
Qed.

(** The witness: two layers of one linear neuron each, called on [[3]].
    The network with two neurons in its first layer returns. *)
Lemma narrow_layer_raises_witness :
  neurons (mkLayer [neuron_w1]) <> [] /\
  MLP_run insertion_order linear_heap [] (Sequence [INum 3]) =
    Ok (linear_heap, Sequence [INum 3]) /\
  (exists h1 y1,
     Neuron_apply insertion_order linear_heap neuron_w0 (Sequence [INum 3]) =
       Ok (h1, y1)) /\
  MLP_call insertion_order linear_heap narrow_net (Sequence [INum 3]) = TypeError.
Proof.
  assert (N : neurons (mkLayer [neuron_w1]) <> []) by discriminate.
  assert (P : MLP_run insertion_order linear_heap [] (Sequence [INum 3]) =
              Ok (linear_heap, Sequence [INum 3])) by reflexivity.
  destruct (Neuron_apply insertion_order linear_heap neuron_w0 (Sequence [INum 3]))
    as [[h1 y1]| | | |] eqn:E; try (vm_compute in E; discriminate).
  split; [exact N|split; [exact P|split; [exists h1, y1; reflexivity|]]].
  exact (proj2 (proj2 (narrow_layer_raises insertion_order linear_heap linear_heap h1
                         [] [] neuron_w0 (mkLayer [neuron_w1]) _ _ y1 N P E))).
Defined.

(** With two neurons in the first layer, the network returns: the output
    of [wide_net] on [[2]] is a node of value
    [0.5 * (0.5 * 2) + -0.5 * (-0.5 * 2)]. *)
Example wide_net_scenario :
  exists h y,
    MLP_call insertion_order linear_heap wide_net (Sequence [INum 2]) =
      Ok (h, Single (INode y)) /\
    value (deref h y) = 1.
Proof.
  eexists; eexists; split; [vm_compute; reflexivity|].
  vm_compute; lra.
Qed.

(** ** When [backward] returns *)

Lemma same_graph_sym h h' : same_graph h h' -> same_graph h' h.
Proof.
  intros [L E]; split; [congruence|].
  intros m; destruct (E m) as (?&?&?); repeat split; congruence.
Qed.

(** When the loop returns, every closure it was to call returns. *)
Lemma run_closures_ok_safe order : forall h hf,
  run_closures order h = (hf, Ok tt) -> forall n, In n order -> safe h n.
Proof.
  induction order as [|m t IH]; intros h hf E n Hn; [destruct Hn|].
  simpl in E.
  pose proof (heap_after_same_graph h m) as SG; unfold heap_after in SG.
  destruct (local_backward h m) as [h1 r] eqn:Em; simpl in SG.
  destruct r as [[]| | | |]; try (injection E as _ E; discriminate).
  destruct Hn as [<-|Hn].
  - unfold safe; rewrite Em; reflexivity.
  - apply (safe_same_graph h1); [apply same_graph_sym; exact SG|].
    apply (IH h1 hf E n Hn).
Qed.

(** X16.  When [backward()] returns.  On a well-formed heap,
    [root.backward()] returns if and only if the rule of no node reachable
    from the root raises, and whether a rule raises does not depend on the
    gradients: the rule of a power node [x ** p] returns when
    [x.value ** (p - 1)] is a float, the rule of a [tanh] node when the
    square of its output is a float, the rule of a [gelu] node when
    [math.exp(inner)] and [math.exp(-inner)] are floats, and the rules of
    sums, products, [relu] nodes and leaves always return. *)
Theorem backward_returns_iff (h : heap) (root : ref) (fuel : nat) :
  wf h -> (root < length h)%nat -> (root < fuel)%nat ->
  ((exists hf, backward fuel h root = Some (hf, Ok tt)) <-> no_raise h root) /\
  (no_raise h root <->
   forall n, reachable h root n -> closure_safe h (_backward (deref h n))).
Proof.
  intros W Hr Hf.
  destruct (dfs_root h fuel root W Hr Hf) as (vis & l & E & _ & _ & RE).
  assert (B : backward fuel h root =
              Some (run_closures (rev (l ++ [root])) (set_grad h root 1)))
    by (unfold backward; rewrite E; reflexivity).
  split; [split|].
  - intros (hf & Eb) n Rn.
    rewrite B in Eb; injection Eb as Eb.
    apply (safe_same_graph (set_grad h root 1));
      [apply same_graph_sym, set_grad_same_graph|].
    apply (run_closures_ok_safe _ _ hf Eb).
    rewrite <- in_rev; apply RE; exact Rn.
  - intros NR; rewrite B, run_closures_safe; [eexists; reflexivity|].
    intros n Hn; apply (safe_same_graph h); [apply set_grad_same_graph|].
    apply NR, RE, in_rev, Hn.
  - unfold no_raise; split; intros H n Rn; apply safe_iff, H, Rn.
Qed.

Lemma sqrt_zero_wf : wf sqrt_zero.
Proof.
  pose proof sqrt_zero_built as B.
  apply Scalar_pow_inv in B; destruct B as (v & _ & -> & _).
  apply wf_unary; [apply leaves_wf|simpl; lia|reflexivity].
Qed.

(** The witness: [z = Scalar(0); r = z ** 0.5].  The rule of [r] computes
    [0 ** -0.5]: [r.backward()] does not return. *)
Lemma backward_returns_iff_witness :
  wf sqrt_zero /\ (1 < length sqrt_zero)%nat /\ (1 < 2)%nat /\
  ~ closure_safe sqrt_zero (_backward (deref sqrt_zero 1)) /\
  ~ no_raise sqrt_zero 1 /\
  ~ exists hf, backward 2 sqrt_zero 1 = Some (hf, Ok tt).
Proof.
  assert (W := sqrt_zero_wf).
  assert (L : (1 < length sqrt_zero)%nat) by (simpl; lia).
  assert (F : (1 < 2)%nat) by lia.
  assert (C : ~ closure_safe sqrt_zero (_backward (deref sqrt_zero 1))).
  { simpl; intros (v & Ev).
    rewrite py_pow_zero_negative in Ev by lra; discriminate. }
  destruct (backward_returns_iff sqrt_zero 1 2 W L F) as (R & S).
  assert (N : ~ no_raise sqrt_zero 1).
  { intros NR; apply C, (proj1 S NR), reach_refl. }
  repeat (split; [assumption|]).
  intros X; apply N, R, X.
Defined.

(** ** [relu] away from 0 *)

Lemma Rmax_zero_value x : (if py_lt x 0 then 0 else x) = Rmax 0 x.
Proof.
  unfold py_lt, Rmax; destruct (Rlt_dec x 0), (Rle_dec 0 x); lra.
Qed.

Lemma derivable_pt_lim_relu x :
  x <> 0 -> derivable_pt_lim (Rmax 0) x (if Rlt_dec 0 x then 1 else 0).
Proof.
  intros Hx eps Heps.
  assert (Hd : 0 < Rabs x) by (apply Rabs_pos_lt; exact Hx).
  exists (mkposreal (Rabs x) Hd); simpl; intros d Hd0 Hlt.
  destruct (Rlt_dec 0 x) as [Hp|Hn].
  - rewrite (Rabs_pos_eq x) in Hlt by lra.
    assert (0 < x + d) by (unfold Rabs in Hlt; destruct (Rcase_abs d); lra).
    rewrite !Rmax_right by lra.
    replace ((x + d - x) / d - 1) with 0 by (field; exact Hd0).
    rewrite Rabs_R0; exact Heps.
  - assert (x < 0) by lra.
    rewrite (Rabs_left x) in Hlt by lra.
    assert (x + d < 0) by (unfold Rabs in Hlt; destruct (Rcase_abs d); lra).
    rewrite !Rmax_left by lra.
    replace ((0 - 0) / d - 0) with 0 by (field; exact Hd0).
    rewrite Rabs_R0; exact Heps.
Qed.

(** X17.  [relu(a)] has value [max(0, a.value)]; [backward()] on it
    returns unless the rule of [a] or of a node below it raises, and
    either way [a.grad] has grown by 1 when [a.value > 0] and by 0
    otherwise: away from 0, the derivative of [max(0, x)] at [a.value]. *)
Theorem relu_correct (so : SetOrder) (h : heap) (a : ref) (fuel : nat) :
  wf h -> (a < length h)%nat -> (length h < fuel)%nat ->
  let x := value (deref h a) in
  let r := Scalar_relu so h a in
  value (deref (fst r) (snd r)) = Rmax 0 x /\
  (exists hf res,
     backward fuel (fst r) (snd r) = Some (hf, res) /\
     grad (deref hf a) = grad (deref h a) + (if Rlt_dec 0 x then 1 else 0) /\
     (no_raise h a -> res = Ok tt)) /\
  (x <> 0 -> derivable_pt_lim (Rmax 0) x (if Rlt_dec 0 x then 1 else 0)).
Proof.
  intros W Ha Hf x r; subst r; rewrite Scalar_relu_node; simpl fst; simpl snd.
  fold x; rewrite Rmax_zero_value.
  split; [rewrite deref_app_new; reflexivity|].
  split; [|apply derivable_pt_lim_relu].
  destruct (backward_unary_root so h a (Rmax 0 x) (ReluBackward a) fuel W Ha Hf eq_refl)
    as (hf & res & E & G & NR & _).
  exists hf, res; split; [exact E|split; [|intros Na; apply NR; [exact I|exact Na]]].
  rewrite G; f_equal.
  unfold coefficient, increments.
  rewrite (proj1 (proj2 (seeded_graph _ _ _))), deref_app_new; simpl.
  rewrite (proj1 (seeded_graph _ _ _)), deref_app_new; simpl.
  rewrite seeded_grad by (rewrite length_app; simpl; lia).
  rewrite Nat.eqb_refl; unfold py_gt, py_lt, Rmax.
  destruct (Rle_dec 0 x), (Rlt_dec 0 x); simpl;
    repeat match goal with |- context [Rlt_dec ?u ?v] => destruct (Rlt_dec u v) end;
    simpl; lra.
Qed.

Lemma relu_correct_witness :
  wf two_leaves /\ (0 < length two_leaves)%nat /\ (length two_leaves < 3)%nat /\
  value (deref (fst (Scalar_relu insertion_order two_leaves 0))
           (snd (Scalar_relu insertion_order two_leaves 0))) = Rmax 0 2 /\
  exists hf,
    backward 3 (fst (Scalar_relu insertion_order two_leaves 0))
      (snd (Scalar_relu insertion_order two_leaves 0)) = Some (hf, Ok tt) /\
    grad (deref hf 0) = 0 + (if Rlt_dec 0 2 then 1 else 0).
Proof.
  assert (W : wf two_leaves) by apply leaves_wf.
  assert (A : (0 < length two_leaves)%nat) by (simpl; lia).
  assert (F : (length two_leaves < 3)%nat) by (simpl; lia).
  repeat (split; [assumption|]).
  destruct (relu_correct insertion_order two_leaves 0 3 W A F)
    as (V & (hf & res & E & G & NR) & _).
  split; [exact V|].
  exists hf; rewrite <- (NR (leaves_no_raise _ 0)); auto.
Defined.
